(** * Lexus showroom: configuration store and 3D scene service

    A shallow embedding of [store.service.ts] (the configuration store) and of
    [three-scene.service.ts] (entity synchronisation, audio binding and the
    per-frame simulation loop), followed by the properties of the
    specification that were checked against it.

    Conventions of the embedding:
    - a JavaScript number is an exact rational ([Q]); equality of computed
      numbers is [==].  Array indices and counters are integers ([Z]);
    - [undefined] and [null] are [None];
    - a JavaScript [Map] keyed by strings is a [gmap string _]; the service
      never depends on the iteration order of its maps;
    - scene-graph objects live in a heap indexed by handles ([nat]); object
      identity is handle equality;
    - what three.js computes from geometry ([Box3.setFromObject],
      [getWorldPosition]) and [Math.sin]/[Math.cos] are operations of a
      [Host];
    - the camera, the renderer, the orbit controls, shadows and material
      assignment of meshes are not tracked. *)

From Stdlib Require Import ZArith QArith Qabs Lia Lqa Ascii String.
From stdpp Require Import base option list gmap strings.

Open Scope Q_scope.

(** ** JavaScript helpers *)

Module Js.

(** [arr[i]]: [undefined] unless [i] is the index of an element. *)
Definition index {A : Type} (arr : list A) (i : Z) : option A :=
  if (i <? 0)%Z then None else arr !! Z.to_nat i.

(** Truthiness of a string: only the empty string is falsy. *)
Definition truthy (s : string) : bool := negb (String.eqb s "").

(** Truthiness of [string | undefined]. *)
Definition truthy_opt (s : option string) : bool :=
  match s with
  | Some s => truthy s
  | None => false
  end.

(** [s || null] for [s : string | undefined]. *)
Definition or_null (s : option string) : option string :=
  match s with
  | Some s => if truthy s then Some s else None
  | None => None
  end.

(** [Math.max], [Math.min], [Math.abs] and [THREE.MathUtils.lerp]. *)
Definition Math_max (a b : Q) : Q := if Qlt_le_dec a b then b else a.
Definition Math_min (a b : Q) : Q := if Qlt_le_dec b a then b else a.
Definition Math_abs (a : Q) : Q := if Qlt_le_dec a 0 then - a else a.
Definition lerp (x y t : Q) : Q := (1 - t) * x + t * y.

(** The result of a method that may raise a [TypeError]; the state is the
    one reached when the method returned or threw. *)
Inductive Outcome (A : Type) : Type :=
| Done (a : A)
| TypeError (a : A).
Arguments Done {A} a.
Arguments TypeError {A} a.

Definition state_of {A : Type} (o : Outcome A) : A :=
  match o with
  | Done a => a
  | TypeError a => a
  end.

Definition threw {A : Type} (o : Outcome A) : bool :=
  match o with
  | Done _ => false
  | TypeError _ => true
  end.

End Js.

(** ** Data types ([data.types.ts]) *)

Record Vec3 : Type := mkVec3 { vx : Q; vy : Q; vz : Q }.

Record CarConfig : Type := mkCarConfig {
  car_id : string;
  car_name : string;
  car_color : string;
  car_underglowColor : string;
  car_roughness : Q;
  car_metalness : Q;
  car_modelUrl : option string;
  car_ignitionSoundUrl : option string;
  car_driveSoundUrl : option string
}.

Record EnvironmentItem : Type := mkEnvironmentItem {
  env_id : string;
  env_name : string;
  env_url : string;
  env_assetId : string;
  env_scale : Q;
  env_position : Vec3
}.

Record SceneObject : Type := mkSceneObject {
  so_id : string;
  so_name : string;
  so_url : string;
  so_position : Vec3;
  so_rotation : Vec3;
  so_scale : Vec3
}.

Record SectionConfig : Type := mkSectionConfig {
  sec_id : string;
  sec_label : string
}.

(** The fields of [AppConfig] that the modelled code reads. *)
Record AppConfig : Type := mkAppConfig {
  sections : list SectionConfig;
  activeCarIndex : Z;
  fleet : list CarConfig;
  environments : list EnvironmentItem;
  activeEnvironmentId : option string;
  sceneObjects : list SceneObject;
  (** [character.position] *)
  character_position : Vec3
}.

(** [Partial<AppConfig>]: an absent key is [None]. *)
Record PartialConfig : Type := mkPartialConfig {
  p_sections : option (list SectionConfig);
  p_activeCarIndex : option Z;
  p_fleet : option (list CarConfig);
  p_environments : option (list EnvironmentItem);
  p_activeEnvironmentId : option (option string);
  p_sceneObjects : option (list SceneObject);
  p_character_position : option Vec3
}.

Definition no_update : PartialConfig :=
  mkPartialConfig None None None None None None None.

(** ** The configuration store ([store.service.ts]) *)

Module Store.

Record t : Type := mk {
  config : AppConfig;
  loadingCount : Z;
  activeSectionIndex : Z;
  isMenuOpen : bool;
  joystickState : Q * Q
}.

(** The store as its constructor leaves it: no pending operation, the first
    section, the menu closed, the joystick at rest. *)
Definition initial (c : AppConfig) : t := mk c 0 0 false (0, 0).

Definition set_config (f : AppConfig -> AppConfig) (s : t) : t :=
  mk (f (config s)) (loadingCount s) (activeSectionIndex s) (isMenuOpen s)
     (joystickState s).

Definition set_loadingCount (f : Z -> Z) (s : t) : t :=
  mk (config s) (f (loadingCount s)) (activeSectionIndex s) (isMenuOpen s)
     (joystickState s).

Definition isLoading (s : t) : bool := (0 <? loadingCount s)%Z.

Definition incrementLoading (s : t) : t :=
  set_loadingCount (fun c => (c + 1)%Z) s.

Definition decrementLoading (s : t) : t :=
  set_loadingCount (fun c => Z.max 0 (c - 1)) s.

(** [fleet[activeCarIndex] || fleet[0]]: a car object is always truthy, so
    the fallback is taken exactly when the index names no element. *)
Definition activeCar (s : t) : option CarConfig :=
  match Js.index (fleet (config s)) (activeCarIndex (config s)) with
  | Some c => Some c
  | None => Js.index (fleet (config s)) 0
  end.

Definition activeEnvironment (s : t) : option EnvironmentItem :=
  List.find
    (fun e => bool_decide (Some (env_id e) = activeEnvironmentId (config s)))
    (environments (config s)).

Definition activeSection (s : t) : option SectionConfig :=
  Js.index (sections (config s)) (activeSectionIndex s).

(** [{ ...current, ...newConfig }] *)
Definition merge (c : AppConfig) (p : PartialConfig) : AppConfig :=
  mkAppConfig
    (default (sections c) (p_sections p))
    (default (activeCarIndex c) (p_activeCarIndex p))
    (default (fleet c) (p_fleet p))
    (default (environments c) (p_environments p))
    (default (activeEnvironmentId c) (p_activeEnvironmentId p))
    (default (sceneObjects c) (p_sceneObjects p))
    (default (character_position c) (p_character_position p)).

Definition updateConfig (p : PartialConfig) (s : t) : t :=
  set_config (fun c => merge c p) s.

Definition setCarIndex (i : Z) (s : t) : t :=
  updateConfig (mkPartialConfig None (Some i) None None None None None) s.

Definition addEnvironment (env : EnvironmentItem) (s : t) : t :=
  set_config (fun c =>
    mkAppConfig (sections c) (activeCarIndex c) (fleet c)
      (environments c ++ [env]) (Some (env_id env)) (sceneObjects c)
      (character_position c)) s.

Definition setActiveEnvironment (id : string) (s : t) : t :=
  updateConfig (mkPartialConfig None None None None (Some (Some id)) None None) s.

Definition removeEnvironment (id : string) (s : t) : t :=
  set_config (fun c =>
    let newEnvs :=
      List.filter (fun e => negb (String.eqb (env_id e) id)) (environments c) in
    mkAppConfig (sections c) (activeCarIndex c) (fleet c)
      newEnvs
      (if bool_decide (activeEnvironmentId c = Some id)
       then Js.or_null (env_id <$> Js.index newEnvs 0)
       else activeEnvironmentId c)
      (sceneObjects c) (character_position c)) s.

Definition addSceneObject (obj : SceneObject) (s : t) : t :=
  set_config (fun c =>
    mkAppConfig (sections c) (activeCarIndex c) (fleet c) (environments c)
      (activeEnvironmentId c) (sceneObjects c ++ [obj])
      (character_position c)) s.

Definition removeSceneObject (id : string) (s : t) : t :=
  set_config (fun c =>
    mkAppConfig (sections c) (activeCarIndex c) (fleet c) (environments c)
      (activeEnvironmentId c)
      (List.filter (fun o => negb (String.eqb (so_id o) id)) (sceneObjects c))
      (character_position c)) s.

(** The calls that move the pending-operation counter. *)
Inductive LoadingOp : Type := Increment | Decrement.

Definition applyLoadingOp (s : t) (op : LoadingOp) : t :=
  match op with
  | Increment => incrementLoading s
  | Decrement => decrementLoading s
  end.

End Store.

(** ** Scene-graph objects ([THREE.Object3D]) *)

Inductive ObjKind : Type := KGroup | KMesh | KObject.

Record Euler : Type := mkEuler { ex : Q; ey : Q; ez : Q; e_order : string }.

(** The fields of an object that the service reads or writes; the four
    [ud_] fields are the keys of [userData] it uses ([None]: undefined). *)
Record Object3D : Type := mkObject3D {
  o_kind : ObjKind;
  o_name : string;
  o_parent : option nat;
  o_children : list nat;
  o_position : Vec3;
  o_rotation : Euler;
  o_scale : Vec3;
  o_visible : bool;
  ud_url : option string;
  ud_modelUrl : option string;
  ud_origPos : option Vec3;
  ud_isFront : option bool
}.

Definition newObject (k : ObjKind) : Object3D :=
  mkObject3D k "" None [] (mkVec3 0 0 0) (mkEuler 0 0 0 "XYZ") (mkVec3 1 1 1)
    true None None None None.

Definition set_name (n : string) (o : Object3D) : Object3D :=
  mkObject3D (o_kind o) n (o_parent o) (o_children o) (o_position o)
    (o_rotation o) (o_scale o) (o_visible o) (ud_url o) (ud_modelUrl o)
    (ud_origPos o) (ud_isFront o).

Definition set_parent (p : option nat) (o : Object3D) : Object3D :=
  mkObject3D (o_kind o) (o_name o) p (o_children o) (o_position o)
    (o_rotation o) (o_scale o) (o_visible o) (ud_url o) (ud_modelUrl o)
    (ud_origPos o) (ud_isFront o).

Definition set_children (c : list nat) (o : Object3D) : Object3D :=
  mkObject3D (o_kind o) (o_name o) (o_parent o) c (o_position o)
    (o_rotation o) (o_scale o) (o_visible o) (ud_url o) (ud_modelUrl o)
    (ud_origPos o) (ud_isFront o).

Definition set_position (p : Vec3) (o : Object3D) : Object3D :=
  mkObject3D (o_kind o) (o_name o) (o_parent o) (o_children o) p
    (o_rotation o) (o_scale o) (o_visible o) (ud_url o) (ud_modelUrl o)
    (ud_origPos o) (ud_isFront o).

Definition set_rotation (r : Euler) (o : Object3D) : Object3D :=
  mkObject3D (o_kind o) (o_name o) (o_parent o) (o_children o) (o_position o)
    r (o_scale o) (o_visible o) (ud_url o) (ud_modelUrl o)
    (ud_origPos o) (ud_isFront o).

Definition set_scale (s : Vec3) (o : Object3D) : Object3D :=
  mkObject3D (o_kind o) (o_name o) (o_parent o) (o_children o) (o_position o)
    (o_rotation o) s (o_visible o) (ud_url o) (ud_modelUrl o)
    (ud_origPos o) (ud_isFront o).

Definition set_visible (v : bool) (o : Object3D) : Object3D :=
  mkObject3D (o_kind o) (o_name o) (o_parent o) (o_children o) (o_position o)
    (o_rotation o) (o_scale o) v (ud_url o) (ud_modelUrl o)
    (ud_origPos o) (ud_isFront o).

Definition set_ud_url (u : option string) (o : Object3D) : Object3D :=
  mkObject3D (o_kind o) (o_name o) (o_parent o) (o_children o) (o_position o)
    (o_rotation o) (o_scale o) (o_visible o) u (ud_modelUrl o)
    (ud_origPos o) (ud_isFront o).

Definition set_ud_modelUrl (u : option string) (o : Object3D) : Object3D :=
  mkObject3D (o_kind o) (o_name o) (o_parent o) (o_children o) (o_position o)
    (o_rotation o) (o_scale o) (o_visible o) (ud_url o) u
    (ud_origPos o) (ud_isFront o).

Definition set_ud_origPos (p : option Vec3) (o : Object3D) : Object3D :=
  mkObject3D (o_kind o) (o_name o) (o_parent o) (o_children o) (o_position o)
    (o_rotation o) (o_scale o) (o_visible o) (ud_url o) (ud_modelUrl o)
    p (ud_isFront o).

Definition set_ud_isFront (b : option bool) (o : Object3D) : Object3D :=
  mkObject3D (o_kind o) (o_name o) (o_parent o) (o_children o) (o_position o)
    (o_rotation o) (o_scale o) (o_visible o) (ud_url o) (ud_modelUrl o)
    (ud_origPos o) b.

(** The heap of scene-graph objects. *)
Abbreviation Heap := (gmap nat Object3D).

Module Obj.

(** [new THREE.X()]: a handle that names no object yet. *)
Definition alloc (o : Object3D) (h : Heap) : nat * Heap :=
  let r := fresh (dom h) in (r, <[r := o]> h).

(** Removes the first occurrence of [x] ([indexOf] then [splice]). *)
Fixpoint remove_first (x : nat) (l : list nat) : list nat :=
  match l with
  | [] => []
  | y :: l' => if bool_decide (x = y) then l' else y :: remove_first x l'
  end.

(** [parent.remove(child)]: nothing happens unless [child] is a child. *)
Definition remove (parent child : nat) (h : Heap) : Heap :=
  match h !! parent with
  | Some p =>
      if bool_decide (child ∈ o_children p)
      then alter (set_parent None) child
             (<[parent := set_children (remove_first child (o_children p)) p]> h)
      else h
  | None => h
  end.

(** [parent.add(child)]: the child leaves its previous parent first. *)
Definition add (parent child : nat) (h : Heap) : Heap :=
  if bool_decide (parent = child) then h
  else
    let h1 :=
      match h !! child ≫= o_parent with
      | Some q => remove q child h
      | None => h
      end in
    alter (set_parent (Some parent)) child
      (alter (fun p => set_children (o_children p ++ [child]) p) parent h1).

(** [root.traverse(cb)] visits [root] and then its children's subtrees, in
    order; [fuel] bounds the depth. *)
Fixpoint traverse (fuel : nat) (h : Heap) (root : nat) : list nat :=
  match fuel with
  | O => []
  | S fuel' =>
      root :: flat_map (traverse fuel' h)
                (match h !! root with Some o => o_children o | None => [] end)
  end.

(** The subtree of [root], with fuel that covers any tree in the heap. *)
Definition subtree (h : Heap) (root : nat) : list nat :=
  traverse (S (size h)) h root.

End Obj.

(** ** The scene service ([three-scene.service.ts]): state *)

(** The mutable parameters of a vehicle's paint material; the glass, rubber
    and chrome materials of a set are never modified after cloning. *)
Record CarMaterials : Type := mkCarMaterials {
  paint_color : string;
  paint_metalness : Q;
  paint_roughness : Q
}.

(** [currentCarParams]: the part classification of the active vehicle. *)
Record CarParams : Type := mkCarParams {
  wheels : list nat;
  bodyParts : list nat;
  hoodParts : list nat;
  chassisParts : list nat;
  originalPositions : gmap nat Vec3;
  originalRotations : gmap nat Euler
}.

(** A model load in flight: the variables its completion closure captured. *)
Inductive PendingLoad : Type :=
| EnvLoad (env : EnvironmentItem) (anchor : nat)
| ObjLoad (objData : SceneObject) (group : nat)
| CarLoad (carConfig : CarConfig) (group : nat).

(** What a load delivers: the root of the loaded scene, or a failure. *)
Inductive LoadResult : Type :=
| Loaded (model : nat)
| Failed.

(** [onEnded] of a sound: the default handler of [THREE.Audio], or the
    closure that [startEngine] installs on the ignition sound. *)
Inductive OnEnded : Type := DefaultOnEnded | IgnitionOnEnded.

(** A sound.  [a_onEnded] is the [onEnded] property; [a_source] is the
    handler that [play()] bound to the source it created
    ([source.onended = this.onEnded.bind(this)]), [None] when nothing is
    bound: before the first [play()], after [stop()], which clears
    [source.onended], and once the source has ended. *)
Record PositionalAudio : Type := mkPositionalAudio {
  a_buffer : bool;
  a_isPlaying : bool;
  a_onEnded : OnEnded;
  a_playbackRate : Q;
  a_source : option OnEnded
}.

(** The two positional sources; [init] creates them together. *)
Record Sounds : Type := mkSounds {
  engineSound : PositionalAudio;
  ignitionSound : PositionalAudio
}.

(** [sounds] is [None] until [init] has created the sources. *)
Record Audio : Type := mkAudio {
  sounds : option Sounds;
  isEngineRunning : bool
}.

(** A call on the character's [AnimationMixer] or on one of its actions;
    an action is named by its clip. *)
Inductive MixerCall : Type :=
| MixerUpdate (delta : Q)
| ActionFadeOut (clip : string) (duration : Q)
| ActionReset (clip : string)
| ActionFadeIn (clip : string) (duration : Q)
| ActionPlay (clip : string)
| ActionSetEffectiveTimeScale (clip : string) (timeScale : Q).

(** [charMixer]: the object it animates and the calls made on it and on
    its actions so far, oldest first. *)
Record Mixer : Type := mkMixer {
  mixerRoot : nat;
  mixerCalls : list MixerCall
}.

(** The character: [charMeshes]; [charMixer] ([None] for [null]); the clip
    names of [Object.values(this.charActions)], in that order; and
    [charGroup.userData['modelType']]. *)
Record Character : Type := mkCharacter {
  charMeshes : gmap string nat;
  charMixer : option Mixer;
  charActions : list string;
  charModelType : option string
}.

Record Sim : Type := mkSim {
  speed : Q;
  steering : Q;
  carAngle : Q;
  explodeFactor : Q;
  charRotation : Q;
  keys : gmap string bool
}.

Record Service : Type := mkService {
  store : Store.t;
  heap : Heap;
  sceneObjectMap : gmap string nat;
  envObjectMap : gmap string nat;
  carMap : gmap string nat;
  materialsMap : gmap string CarMaterials;
  currentCarParams : CarParams;
  underglowColor : string;
  pending : list PendingLoad;
  audio : Audio;
  sim : Sim;
  (** whether [this.audioListener] is set *)
  audioListener : bool;
  character : Character
}.

Definition with_store (x : Store.t) (s : Service) : Service :=
  mkService x (heap s) (sceneObjectMap s) (envObjectMap s) (carMap s)
    (materialsMap s) (currentCarParams s) (underglowColor s) (pending s)
    (audio s) (sim s) (audioListener s) (character s).

Definition with_heap (x : Heap) (s : Service) : Service :=
  mkService (store s) x (sceneObjectMap s) (envObjectMap s) (carMap s)
    (materialsMap s) (currentCarParams s) (underglowColor s) (pending s)
    (audio s) (sim s) (audioListener s) (character s).

Definition with_sceneObjectMap (x : gmap string nat) (s : Service) : Service :=
  mkService (store s) (heap s) x (envObjectMap s) (carMap s)
    (materialsMap s) (currentCarParams s) (underglowColor s) (pending s)
    (audio s) (sim s) (audioListener s) (character s).

Definition with_envObjectMap (x : gmap string nat) (s : Service) : Service :=
  mkService (store s) (heap s) (sceneObjectMap s) x (carMap s)
    (materialsMap s) (currentCarParams s) (underglowColor s) (pending s)
    (audio s) (sim s) (audioListener s) (character s).

Definition with_carMap (x : gmap string nat) (s : Service) : Service :=
  mkService (store s) (heap s) (sceneObjectMap s) (envObjectMap s) x
    (materialsMap s) (currentCarParams s) (underglowColor s) (pending s)
    (audio s) (sim s) (audioListener s) (character s).

Definition with_materialsMap (x : gmap string CarMaterials) (s : Service)
  : Service :=
  mkService (store s) (heap s) (sceneObjectMap s) (envObjectMap s) (carMap s)
    x (currentCarParams s) (underglowColor s) (pending s)
    (audio s) (sim s) (audioListener s) (character s).

Definition with_currentCarParams (x : CarParams) (s : Service) : Service :=
  mkService (store s) (heap s) (sceneObjectMap s) (envObjectMap s) (carMap s)
    (materialsMap s) x (underglowColor s) (pending s)
    (audio s) (sim s) (audioListener s) (character s).

Definition with_underglowColor (x : string) (s : Service) : Service :=
  mkService (store s) (heap s) (sceneObjectMap s) (envObjectMap s) (carMap s)
    (materialsMap s) (currentCarParams s) x (pending s)
    (audio s) (sim s) (audioListener s) (character s).

Definition with_pending (x : list PendingLoad) (s : Service) : Service :=
  mkService (store s) (heap s) (sceneObjectMap s) (envObjectMap s) (carMap s)
    (materialsMap s) (currentCarParams s) (underglowColor s) x
    (audio s) (sim s) (audioListener s) (character s).

Definition with_audio (x : Audio) (s : Service) : Service :=
  mkService (store s) (heap s) (sceneObjectMap s) (envObjectMap s) (carMap s)
    (materialsMap s) (currentCarParams s) (underglowColor s) (pending s)
    x (sim s) (audioListener s) (character s).

Definition with_sim (x : Sim) (s : Service) : Service :=
  mkService (store s) (heap s) (sceneObjectMap s) (envObjectMap s) (carMap s)
    (materialsMap s) (currentCarParams s) (underglowColor s) (pending s)
    (audio s) x (audioListener s) (character s).

Definition with_character (x : Character) (s : Service) : Service :=
  mkService (store s) (heap s) (sceneObjectMap s) (envObjectMap s) (carMap s)
    (materialsMap s) (currentCarParams s) (underglowColor s) (pending s)
    (audio s) (sim s) (audioListener s) x.

(** The objects the service creates once, when it is constructed. *)
Definition fleetGroup : nat := 0%nat.
Definition wallModelGroup : nat := 1%nat.
Definition sceneObjectsGroup : nat := 2%nat.
Definition charGroup : nat := 3%nat.
Definition underglowLight : nat := 4%nat.
Definition engineSoundObj : nat := 5%nat.
Definition ignitionSoundObj : nat := 6%nat.

Definition initialHeap : Heap :=
  <[fleetGroup := newObject KGroup]>
  (<[wallModelGroup := newObject KGroup]>
  (<[sceneObjectsGroup := newObject KGroup]>
  (<[charGroup := set_visible false (newObject KGroup)]>
  (<[underglowLight := set_position (mkVec3 0 0.1 0) (newObject KObject)]>
  (<[engineSoundObj := newObject KObject]>
  (<[ignitionSoundObj := newObject KObject]> ∅)))))).

Definition emptyCarParams : CarParams := mkCarParams [] [] [] [] ∅ ∅.

Definition newAudio : PositionalAudio :=
  mkPositionalAudio false false DefaultOnEnded 1 None.

(** The character before any model has been built or loaded. *)
Definition newCharacter : Character := mkCharacter ∅ None [] None.

(** The service once [init] has created the audio sources, before any
    collection has been synchronised. *)
Definition initialService (st : Store.t) : Service :=
  mkService st initialHeap ∅ ∅ ∅ ∅ emptyCarParams "#ffffff" []
    (mkAudio (Some (mkSounds newAudio newAudio)) false)
    (mkSim 0 0 0 0 0 ∅) true newCharacter.

(** What the host environment computes for the service. *)
Class Host : Type := mkHost {
  Math_sin : Q -> Q;
  Math_cos : Q -> Q;
  Math_PI : Q;
  (** [new THREE.Box3().setFromObject(obj)]: [(min, max)], [None] when the
      box is empty. *)
  Box3_setFromObject : Heap -> nat -> option (Vec3 * Vec3);
  getWorldPosition : Heap -> nat -> Vec3;
  (** [mixer.update(delta)], the update being the last call of the mixer:
      the position, the rotation angles and the scale it writes to a node,
      [None] for a node that no track animates. *)
  AnimationMixer_update : Mixer -> Heap -> nat -> option (Vec3 * Vec3 * Vec3);
  (** [action.isRunning()] of the action of a clip, after the calls made
      so far. *)
  AnimationAction_isRunning : Mixer -> string -> bool
}.

(** [box.getSize()] and [box.getCenter()]: zero for an empty box. *)
Definition getSize (box : option (Vec3 * Vec3)) : Vec3 :=
  match box with
  | Some (lo, hi) => mkVec3 (vx hi - vx lo) (vy hi - vy lo) (vz hi - vz lo)
  | None => mkVec3 0 0 0
  end.

Definition getCenter (box : option (Vec3 * Vec3)) : Vec3 :=
  match box with
  | Some (lo, hi) =>
      mkVec3 ((vx lo + vx hi) * 0.5) ((vy lo + vy hi) * 0.5)
        ((vz lo + vz hi) * 0.5)
  | None => mkVec3 0 0 0
  end.

(** Sequencing of methods that may throw. *)
Definition andThen (o : Js.Outcome Service)
  (f : Service -> Js.Outcome Service) : Js.Outcome Service :=
  match o with
  | Js.Done s => f s
  | Js.TypeError s => Js.TypeError s
  end.

(** [arr.forEach(f)] when [f] may throw: the loop stops at the throw. *)
Fixpoint forEach {A : Type} (f : A -> Service -> Js.Outcome Service)
  (arr : list A) (s : Service) : Js.Outcome Service :=
  match arr with
  | [] => Js.Done s
  | x :: arr' => andThen (f x s) (forEach f arr')
  end.

(** ** Entity synchronisation *)

Module Sync.

(** *** Environments *)

Definition applyEnvironmentTransform (env : EnvironmentItem) (obj : nat)
  (s : Service) : Service :=
  with_heap
    (alter (fun o =>
       set_position (env_position env)
         (set_scale (mkVec3 (env_scale env) (env_scale env) (env_scale env)) o))
       obj (heap s)) s.

Definition loadEnvironmentModel (env : EnvironmentItem) (s : Service)
  : Service :=
  if negb (Js.truthy (env_url env)) then s
  else
    let '(anchor, h) :=
      Obj.alloc (set_name (env_id env) (newObject KGroup)) (heap s) in
    let s := with_heap h s in
    let s := applyEnvironmentTransform env anchor s in
    let s := with_envObjectMap (<[env_id env := anchor]> (envObjectMap s)) s in
    let s := with_heap (Obj.add wallModelGroup anchor (heap s)) s in
    let s := with_store (Store.incrementLoading (store s)) s in
    with_pending (pending s ++ [EnvLoad env anchor]) s.

(** The body of the first loop: an id that is no longer configured. *)
Definition removeEnvironmentAnchor (newIds : list string) (s : Service)
  (id : string) : Service :=
  if bool_decide (id ∈ newIds) then s
  else
    let s :=
      match envObjectMap s !! id with
      | Some obj => with_heap (Obj.remove wallModelGroup obj (heap s)) s
      | None => s
      end in
    with_envObjectMap (delete id (envObjectMap s)) s.

(** The body of the second loop. *)
Definition syncEnvironment (s : Service) (env : EnvironmentItem) : Service :=
  match envObjectMap s !! env_id env with
  | Some anchor => applyEnvironmentTransform env anchor s
  | None => loadEnvironmentModel env s
  end.

Definition syncEnvironments (envs : list EnvironmentItem) (s : Service)
  : Service :=
  let currentIds := elements (dom (envObjectMap s)) in
  let newIds := env_id <$> envs in
  let s := foldl (removeEnvironmentAnchor newIds) s currentIds in
  foldl syncEnvironment s envs.

(** The success and error callbacks of the environment load. *)
Definition onEnvironmentLoaded (env : EnvironmentItem) (anchor model : nat)
  (s : Service) : Service :=
  let s :=
    if bool_decide (is_Some (envObjectMap s !! env_id env))
    then with_heap (Obj.add anchor model (heap s)) s
    else s in
  with_store (Store.decrementLoading (store s)) s.

Definition onEnvironmentFailed (s : Service) : Service :=
  with_store (Store.decrementLoading (store s)) s.

(** *** Scene objects *)

Definition applySceneObjectTransform (data : SceneObject) (group : nat)
  (s : Service) : Service :=
  with_heap
    (alter (fun o =>
       set_scale (so_scale data)
         (set_rotation
            (mkEuler (vx (so_rotation data)) (vy (so_rotation data))
               (vz (so_rotation data)) (e_order (o_rotation o)))
            (set_position (so_position data) o)))
       group (heap s)) s.

Definition loadSceneObject (objData : SceneObject) (s : Service) : Service :=
  let '(group, h) :=
    Obj.alloc
      (set_ud_url (Some (so_url objData))
         (set_name (so_id objData) (newObject KGroup))) (heap s) in
  let s := with_heap h s in
  let s := applySceneObjectTransform objData group s in
  let s := with_heap (Obj.add sceneObjectsGroup group (heap s)) s in
  let s := with_sceneObjectMap (<[so_id objData := group]> (sceneObjectMap s)) s in
  let s := with_store (Store.incrementLoading (store s)) s in
  with_pending (pending s ++ [ObjLoad objData group]) s.

Definition removeSceneObjectGroup (newIds : list string) (s : Service)
  (id : string) : Service :=
  if bool_decide (id ∈ newIds) then s
  else
    let s :=
      match sceneObjectMap s !! id with
      | Some obj => with_heap (Obj.remove sceneObjectsGroup obj (heap s)) s
      | None => s
      end in
    with_sceneObjectMap (delete id (sceneObjectMap s)) s.

Definition syncSceneObject (s : Service) (objData : SceneObject) : Service :=
  match sceneObjectMap s !! so_id objData with
  | Some group =>
      if bool_decide (heap s !! group ≫= ud_url ≠ Some (so_url objData))
      then
        let s := with_heap (Obj.remove sceneObjectsGroup group (heap s)) s in
        let s :=
          with_sceneObjectMap (delete (so_id objData) (sceneObjectMap s)) s in
        loadSceneObject objData s
      else applySceneObjectTransform objData group s
  | None => loadSceneObject objData s
  end.

Definition syncSceneObjects (objects : list SceneObject) (s : Service)
  : Service :=
  let currentIds := elements (dom (sceneObjectMap s)) in
  let newIds := so_id <$> objects in
  let s := foldl (removeSceneObjectGroup newIds) s currentIds in
  foldl syncSceneObject s objects.

Definition onSceneObjectLoaded (objData : SceneObject) (group model : nat)
  (s : Service) : Service :=
  let s :=
    if bool_decide (is_Some (sceneObjectMap s !! so_id objData))
    then with_heap (Obj.add group model (heap s)) s
    else s in
  with_store (Store.decrementLoading (store s)) s.

Definition onSceneObjectFailed (s : Service) : Service :=
  with_store (Store.decrementLoading (store s)) s.

End Sync.

(** ** The fleet *)

Module Fleet.

(** [String.prototype.toLowerCase] and [includes], on ASCII names. *)
Definition lower_ascii (c : ascii) : ascii :=
  let n := nat_of_ascii c in
  if ((65 <=? n) && (n <=? 90))%nat then ascii_of_nat (n + 32) else c.

Fixpoint toLowerCase (s : string) : string :=
  match s with
  | EmptyString => EmptyString
  | String c s' => String (lower_ascii c) (toLowerCase s')
  end.

Fixpoint includes (needle hay : string) : bool :=
  String.prefix needle hay
  || match hay with
     | EmptyString => false
     | String _ hay' => includes needle hay'
     end.

Definition Qgt_bool (a b : Q) : bool := if Qlt_le_dec b a then true else false.

(** [[...new Set(arr)]]: the first occurrence of each element, in order. *)
Definition dedupe (arr : list nat) : list nat :=
  foldl (fun acc x => if bool_decide (x ∈ acc) then acc else acc ++ [x]) [] arr.

(** The clones of the base materials: white paint, metalness 0.7,
    roughness 0.2. *)
Definition baseMaterials : CarMaterials := mkCarMaterials "#ffffff" 0.7 0.2.

Definition getOrCreateMaterials (carId : string) (s : Service)
  : CarMaterials * Service :=
  match materialsMap s !! carId with
  | Some mats => (mats, s)
  | None =>
      (baseMaterials,
       with_materialsMap (<[carId := baseMaterials]> (materialsMap s)) s)
  end.

(** [const o = new THREE.X(); ...; parent.add(o)] *)
Definition addNew (parent : nat) (o : Object3D) (s : Service)
  : nat * Service :=
  let '(r, h) := Obj.alloc o (heap s) in
  (r, with_heap (Obj.add parent r h) s).

Section WithHost.
Context {host : Host}.

Definition proceduralWheel (group : nat) (s : Service) (pos : Vec3)
  : Service :=
  let '(wGroup, h) :=
    Obj.alloc (set_position pos (newObject KGroup)) (heap s) in
  let '(t, h) :=
    Obj.alloc
      (set_name "procedural_wheel"
         (set_rotation (mkEuler 0 0 (Math_PI / 2) "XYZ") (newObject KMesh))) h in
  let h := Obj.add wGroup t h in
  let h := alter (set_ud_origPos (Some pos)) wGroup h in
  with_heap (Obj.add group wGroup h) s.

Definition buildProceduralCar (group : nat) (config : CarConfig)
  (s : Service) : Service :=
  let '(_, s) := getOrCreateMaterials (car_id config) s in
  let '(_, s) :=
    addNew group
      (set_ud_origPos (Some (mkVec3 0 0.5 0))
         (set_name "procedural_body"
            (set_position (mkVec3 0 0.5 0) (newObject KMesh)))) s in
  let '(_, s) :=
    addNew group
      (set_ud_origPos (Some (mkVec3 0 1.0 (-0.2)))
         (set_name "procedural_glass"
            (set_position (mkVec3 0 1.0 (-0.2))
               (set_scale (mkVec3 0.9 0.4 1.5) (newObject KMesh))))) s in
  foldl (proceduralWheel group) s
    [mkVec3 (-1.1) 0.4 1.6; mkVec3 1.1 0.4 1.6;
     mkVec3 (-1.2) 0.42 (-1.6); mkVec3 1.2 0.42 (-1.6)].

(** The callback of [group.traverse] in [analyzeCarStructure]; [thresholdY]
    is [None] when it is infinite (the bounding box is empty). *)
Definition analyzePart (group : nat) (center size : Vec3)
  (thresholdY : option Q) (frontZ : Q) (s : Service) (obj : nat) : Service :=
  match heap s !! obj with
  | None => s
  | Some o =>
      match o_kind o with
      | KObject => s
      | _ =>
          if bool_decide (obj = group) then s
          else
            let hasGeo := match o_kind o with KMesh => true | _ => false end in
            let name := toLowerCase (o_name o) in
            let isWheelGroup := includes "wheel" name || includes "rim" name in
            if negb hasGeo && negb isWheelGroup then s
            else
              let p := currentCarParams s in
              let p :=
                if bool_decide (is_Some (originalPositions p !! obj)) then p
                else
                  mkCarParams (wheels p) (bodyParts p) (hoodParts p)
                    (chassisParts p)
                    (<[obj := o_position o]> (originalPositions p))
                    (<[obj := o_rotation o]> (originalRotations p)) in
              let s := with_currentCarParams p s in
              if includes "wheel" name || includes "tire" name
                 || includes "rim" name || includes "brake" name
              then
                if bool_decide (o_parent o = Some group)
                   || bool_decide
                        (o_parent o ≫= (fun q => heap s !! q ≫= o_parent)
                         = Some group)
                then
                  let worldPos := getWorldPosition (heap s) obj in
                  let h :=
                    alter (fun o =>
                      set_ud_isFront (Some (Qgt_bool (vz worldPos) (vz center)))
                        (set_rotation
                           (mkEuler (ex (o_rotation o)) (ey (o_rotation o))
                              (ez (o_rotation o)) "YXZ") o))
                      obj (heap s) in
                  with_currentCarParams
                    (mkCarParams (wheels p ++ [obj]) (bodyParts p)
                       (hoodParts p) (chassisParts p) (originalPositions p)
                       (originalRotations p))
                    (with_heap h s)
                else s
              else
                let worldPos := getWorldPosition (heap s) obj in
                if includes "hood" name || includes "bonnet" name
                then
                  with_currentCarParams
                    (mkCarParams (wheels p) (bodyParts p)
                       (hoodParts p ++ [obj]) (chassisParts p)
                       (originalPositions p) (originalRotations p)) s
                else if match thresholdY with
                        | Some ty => Qgt_bool (vy worldPos) ty
                        | None => false
                        end
                then
                  if Qgt_bool (vz worldPos) frontZ
                     && Qgt_bool (vy worldPos) (vy center + vy size * 0.1)
                  then
                    with_currentCarParams
                      (mkCarParams (wheels p) (bodyParts p)
                         (hoodParts p ++ [obj]) (chassisParts p)
                         (originalPositions p) (originalRotations p)) s
                  else
                    with_currentCarParams
                      (mkCarParams (wheels p) (bodyParts p ++ [obj])
                         (hoodParts p) (chassisParts p)
                         (originalPositions p) (originalRotations p)) s
                else
                  with_currentCarParams
                    (mkCarParams (wheels p) (bodyParts p) (hoodParts p)
                       (chassisParts p ++ [obj])
                       (originalPositions p) (originalRotations p)) s
      end
  end.

Definition analyzeCarStructure (group : nat) (s : Service) : Service :=
  let s := with_currentCarParams emptyCarParams s in
  let box := Box3_setFromObject (heap s) group in
  let size := getSize box in
  let center := getCenter box in
  let thresholdY :=
    match box with
    | Some (lo, _) => Some (vy lo + vy size * 0.35)
    | None => None
    end in
  let frontZ := vz center + vz size * 0.25 in
  let s :=
    foldl (analyzePart group center size thresholdY frontZ) s
      (Obj.subtree (heap s) group) in
  let p := currentCarParams s in
  with_currentCarParams
    (mkCarParams (dedupe (wheels p)) (bodyParts p) (hoodParts p)
       (chassisParts p) (originalPositions p) (originalRotations p)) s.

(** [if (this.store.activeCar().id === carConfig.id)
       this.analyzeCarStructure(group)] *)
Definition analyzeIfActive (carConfig : CarConfig) (group : nat)
  (s : Service) : Js.Outcome Service :=
  match Store.activeCar (store s) with
  | None => Js.TypeError s
  | Some a =>
      if String.eqb (car_id a) (car_id carConfig)
      then Js.Done (analyzeCarStructure group s)
      else Js.Done s
  end.

Definition createCarGroup (carConfig : CarConfig) (s : Service)
  : Js.Outcome Service :=
  let '(group, h) :=
    Obj.alloc
      (set_ud_modelUrl (car_modelUrl carConfig)
         (set_name (car_id carConfig) (newObject KGroup))) (heap s) in
  let s := with_heap h s in
  let s := with_carMap (<[car_id carConfig := group]> (carMap s)) s in
  let s := with_heap (Obj.add fleetGroup group (heap s)) s in
  if Js.truthy_opt (car_modelUrl carConfig)
  then
    let s := with_store (Store.incrementLoading (store s)) s in
    Js.Done (with_pending (pending s ++ [CarLoad carConfig group]) s)
  else analyzeIfActive carConfig group (buildProceduralCar group carConfig s).

(** The success callback of the vehicle load. *)
Definition onCarLoaded (carConfig : CarConfig) (group model : nat)
  (s : Service) : Js.Outcome Service :=
  let box := Box3_setFromObject (heap s) model in
  let size := getSize box in
  let scaleFactor := 4.5 / (if Qeq_bool (vz size) 0 then 4.5 else vz size) in
  let center := getCenter box in
  let h :=
    alter (fun o =>
      set_position
        (mkVec3 (vx (o_position o) - vx center * scaleFactor)
           (vy (o_position o) - vy center * scaleFactor
            + vy size * scaleFactor * 0.5)
           (vz (o_position o) - vz center * scaleFactor))
        (set_scale (mkVec3 scaleFactor scaleFactor scaleFactor) o))
      model (heap s) in
  let s := with_heap h s in
  let '(_, s) := getOrCreateMaterials (car_id carConfig) s in
  let h :=
    foldl (fun h child =>
      alter (fun o =>
        match o_kind o with
        | KMesh => set_ud_origPos (Some (o_position o)) o
        | _ => o
        end) child h) (heap s) (Obj.subtree (heap s) model) in
  let s := with_heap (Obj.add group model h) s in
  andThen (analyzeIfActive carConfig group s)
    (fun s => Js.Done (with_store (Store.decrementLoading (store s)) s)).

Definition onCarFailed (s : Service) : Service :=
  with_store (Store.decrementLoading (store s)) s.

(** The body of the first loop of [syncFleet]. *)
Definition removeStaleCar (fleet : list CarConfig) (s : Service)
  (id : string) : Service :=
  match carMap s !! id with
  | None => s
  | Some group =>
      let shouldRemove :=
        match List.find (fun c => String.eqb (car_id c) id) fleet with
        | None => true
        | Some carConfig =>
            bool_decide (heap s !! group ≫= ud_modelUrl ≠ car_modelUrl carConfig)
        end in
      if shouldRemove
      then
        let s := with_heap (Obj.remove fleetGroup group (heap s)) s in
        let s := with_carMap (delete id (carMap s)) s in
        with_materialsMap (delete id (materialsMap s)) s
      else s
  end.

(** The body of the second loop of [syncFleet]. *)
Definition syncCar (carConfig : CarConfig) (s : Service)
  : Js.Outcome Service :=
  let '(_, s) := getOrCreateMaterials (car_id carConfig) s in
  let s :=
    with_materialsMap
      (<[car_id carConfig :=
           mkCarMaterials (car_color carConfig) (car_metalness carConfig)
             (car_roughness carConfig)]> (materialsMap s)) s in
  if bool_decide (is_Some (carMap s !! car_id carConfig)) then Js.Done s
  else createCarGroup carConfig s.

Definition bindActiveGroup (s : Service) : Js.Outcome Service :=
  match Store.activeCar (store s) with
  | None => Js.TypeError s
  | Some activeCar =>
      match carMap s !! car_id activeCar with
      | None => Js.Done s
      | Some activeGroup =>
          let s := analyzeCarStructure activeGroup s in
          let s :=
            if bool_decide
                 (heap s !! underglowLight ≫= o_parent ≠ Some activeGroup)
            then with_heap (Obj.add activeGroup underglowLight (heap s)) s
            else s in
          let s :=
            with_underglowColor
              (if Js.truthy (car_underglowColor activeCar)
               then car_underglowColor activeCar
               else car_color activeCar) s in
          match sounds (audio s) with
          | Some _ =>
              Js.Done
                (with_heap
                   (Obj.add activeGroup ignitionSoundObj
                      (Obj.add activeGroup engineSoundObj (heap s))) s)
          | None => Js.Done s
          end
      end
  end.

Definition syncFleet (fleet : list CarConfig) (s : Service)
  : Js.Outcome Service :=
  let currentIds := elements (dom (carMap s)) in
  let s := foldl (removeStaleCar fleet) s currentIds in
  andThen (forEach syncCar fleet s) bindActiveGroup.

End WithHost.

End Fleet.

(** ** The audio binder: ignition and engine loop *)

Module Engine.

(** [sound.play()]: nothing happens while the sound is playing; otherwise
    a new source is created and started, with the current [onEnded] bound
    to it. *)
Definition play (a : PositionalAudio) : PositionalAudio :=
  if a_isPlaying a then a
  else
    mkPositionalAudio (a_buffer a) true (a_onEnded a) (a_playbackRate a)
      (Some (a_onEnded a)).

(** [sound.stop()]: the source is stopped and its [onended] cleared. *)
Definition stop (a : PositionalAudio) : PositionalAudio :=
  mkPositionalAudio (a_buffer a) false (a_onEnded a) (a_playbackRate a) None.

(** [sound.onEnded = f]: the source that is playing keeps the handler that
    was bound to it. *)
Definition set_onEnded (f : OnEnded) (a : PositionalAudio) : PositionalAudio :=
  mkPositionalAudio (a_buffer a) (a_isPlaying a) f (a_playbackRate a)
    (a_source a).

Definition setPlaybackRate (r : Q) (a : PositionalAudio) : PositionalAudio :=
  mkPositionalAudio (a_buffer a) (a_isPlaying a) (a_onEnded a) r (a_source a).

Definition set_speed (v : Q) (m : Sim) : Sim :=
  mkSim v (steering m) (carAngle m) (explodeFactor m) (charRotation m) (keys m).

(** Reading a property of a sound that [init] has not created yet throws. *)
Definition startEngine (s : Service) : Js.Outcome Service :=
  if isEngineRunning (audio s) then Js.Done s
  else
    let s := with_audio (mkAudio (sounds (audio s)) true) s in
    match sounds (audio s) with
    | None => Js.TypeError s
    | Some snd =>
        let ign := ignitionSound snd in
        let eng := engineSound snd in
        if a_buffer ign
        then
          let ign := if a_isPlaying ign then stop ign else ign in
          let ign := set_onEnded IgnitionOnEnded (play ign) in
          Js.Done (with_audio (mkAudio (Some (mkSounds eng ign)) true) s)
        else if a_buffer eng
        then
          Js.Done (with_audio (mkAudio (Some (mkSounds (play eng) ign)) true) s)
        else Js.Done s
    end.

Definition stopEngine (s : Service) : Js.Outcome Service :=
  if negb (isEngineRunning (audio s)) then Js.Done s
  else
    match sounds (audio s) with
    | None => Js.TypeError s
    | Some snd =>
        let eng := engineSound snd in
        let ign := ignitionSound snd in
        let eng := if a_isPlaying eng then stop eng else eng in
        let ign := if a_isPlaying ign then stop ign else ign in
        Js.Done
          (with_sim (set_speed 0 (sim s))
             (with_audio (mkAudio (Some (mkSounds eng ign)) false) s))
    end.

(** [toggleIgnition] reads [this.audioListener.context] first, which
    throws while there is no listener.  When the context is suspended the
    rest runs after [await context.resume()]; it is taken to run before
    any other event. *)
Definition toggleIgnition (s : Service) : Js.Outcome Service :=
  if negb (audioListener s) then Js.TypeError s
  else if isEngineRunning (audio s) then stopEngine s else startEngine s.

(** The source of the ignition one-shot has played to its end: the handler
    bound to it runs, once.  Nothing happens when no handler is bound.  The
    default handler of [THREE.Audio] clears [isPlaying]; the closure of
    [startEngine] starts the engine loop under its guard and leaves
    [isPlaying] as it is. *)
Definition ignitionEnded (s : Service) : Service :=
  match sounds (audio s) with
  | None => s
  | Some snd =>
      let eng := engineSound snd in
      let ign := ignitionSound snd in
      match a_source ign with
      | None => s
      | Some DefaultOnEnded =>
          with_audio
            (mkAudio (Some (mkSounds eng (stop ign)))
               (isEngineRunning (audio s))) s
      | Some IgnitionOnEnded =>
          let ign :=
            mkPositionalAudio (a_buffer ign) (a_isPlaying ign) (a_onEnded ign)
              (a_playbackRate ign) None in
          let eng :=
            if a_buffer eng && negb (a_isPlaying eng)
               && isEngineRunning (audio s)
            then play eng else eng in
          with_audio
            (mkAudio (Some (mkSounds eng ign)) (isEngineRunning (audio s))) s
      end
  end.

(** Whether the engine loop is sounding. *)
Definition engineLoopPlaying (s : Service) : bool :=
  match sounds (audio s) with
  | Some snd => a_isPlaying (engineSound snd)
  | None => false
  end.

(** What can happen to the audio binder. *)
Inductive Event : Type := Toggle | IgnitionEnd.

Definition step (s : Service) (e : Event) : Service :=
  match e with
  | Toggle => Js.state_of (toggleIgnition s)
  | IgnitionEnd => ignitionEnded s
  end.

End Engine.

(** ** The simulation loop ([animate]) *)

Module Loop.

Definition mapBounds : Q := 190.

Definition handleKeyDown (key : string) (s : Service) : Service :=
  let m := sim s in
  with_sim
    (mkSim (speed m) (steering m) (carAngle m) (explodeFactor m)
       (charRotation m) (<[Fleet.toLowerCase key := true]> (keys m))) s.

Definition handleKeyUp (key : string) (s : Service) : Service :=
  let m := sim s in
  with_sim
    (mkSim (speed m) (steering m) (carAngle m) (explodeFactor m)
       (charRotation m) (<[Fleet.toLowerCase key := false]> (keys m))) s.

(** [this.keys[k]], as a condition: an absent key is falsy. *)
Definition held (k : string) (s : Service) : bool :=
  default false (keys (sim s) !! k).

Definition isUp (s : Service) : bool := held "w" s || held "arrowup" s.
Definition isDown (s : Service) : bool := held "s" s || held "arrowdown" s.
Definition isLeft (s : Service) : bool := held "a" s || held "arrowleft" s.
Definition isRight (s : Service) : bool := held "d" s || held "arrowright" s.
Definition isBrake (s : Service) : bool := held " " s.

(** The clamped throttle and steering inputs of a drive-mode tick. *)
Definition throttleInput (up down : bool) (joystickY : Q) : Q :=
  Js.Math_max (-1)
    (Js.Math_min 1 ((if up then 1 else if down then -1 else 0) + joystickY)).

Definition steerInput (left right : bool) (joystickX : Q) : Q :=
  Js.Math_max (-0.6)
    (Js.Math_min 0.6
       ((if left then 0.6 else if right then -0.6 else 0)
        + joystickX * -0.6)).

(** The speed after the brake or throttle update, before the bounce. *)
Definition driveSpeed (brake : bool) (throttle delta v : Q) : Q :=
  if brake then Js.lerp v 0 (delta * 2)
  else Js.Math_max (-20) (Js.Math_min 80 (v + throttle * 30 * delta)) * 0.98.

(** [Math.abs(nextX) > this.mapBounds || Math.abs(nextZ) > this.mapBounds] *)
Definition outOfBounds (nextX nextZ : Q) : bool :=
  Fleet.Qgt_bool (Js.Math_abs nextX) mapBounds
  || Fleet.Qgt_bool (Js.Math_abs nextZ) mapBounds.

(** The explode factor after a tick outside drive and walk mode. *)
Definition explodeStep (isTechMode : bool) (delta factor : Q) : Q :=
  Js.lerp factor (if isTechMode then 1 else 0) (delta * 3).

Definition addVec (a b : Vec3) : Vec3 :=
  mkVec3 (vx a + vx b) (vy a + vy b) (vz a + vz b).

(** The line-up of the fleet around the active vehicle. *)
Definition lineupCar (delta elapsed : Q) (activeIndex : Z) (s : Service)
  (entry : nat * CarConfig) : Service :=
  let '(index, car) := entry in
  match carMap s !! car_id car with
  | None => s
  | Some group =>
      let offsetIndex := (Z.of_nat index - activeIndex)%Z in
      let targetX := inject_Z offsetIndex * 12 in
      let targetY := if (offsetIndex =? 0)%Z then 0.25 else 0 in
      let targetRotY := if (offsetIndex =? 0)%Z then elapsed * 0.1 else 0 in
      with_heap
        (alter (fun o =>
           let p := o_position o in
           let r := o_rotation o in
           set_rotation
             (mkEuler 0
                (if (offsetIndex =? 0)%Z then targetRotY
                 else Js.lerp (ey r) targetRotY (delta * 4))
                0 (e_order r))
             (set_position
                (mkVec3 (Js.lerp (vx p) targetX (delta * 4))
                   (Js.lerp (vy p) targetY (delta * 4))
                   (Js.lerp (vz p) 0 (delta * 4)))
                (set_visible true o)))
           group (heap s)) s
  end.

(** The displaced positions while the factor exceeds the snap epsilon. *)
Definition explodeParts (val : Q) (s : Service) : Service :=
  let p := currentCarParams s in
  let h :=
    foldl (fun h obj =>
      match originalPositions p !! obj with
      | Some orig =>
          alter (set_position (addVec orig (mkVec3 0 (1.5 * val) 0))) obj h
      | None => h
      end) (heap s) (bodyParts p) in
  let h :=
    foldl (fun h obj =>
      match originalPositions p !! obj, originalRotations p !! obj with
      | Some orig, Some origRot =>
          alter (fun o =>
            set_rotation
              (mkEuler (ex origRot - 0.5 * val) (ey (o_rotation o))
                 (ez (o_rotation o)) (e_order (o_rotation o)))
              (set_position
                 (addVec orig (mkVec3 0 (1.2 * val) (0.5 * val))) o)) obj h
      | _, _ => h
      end) h (hoodParts p) in
  let h :=
    foldl (fun h obj =>
      match originalPositions p !! obj with
      | Some orig =>
          let sign := if Fleet.Qgt_bool (vx orig) 0 then 1 else -1 in
          alter (set_position (addVec orig (mkVec3 (sign * 0.8 * val) 0 0)))
            obj h
      | None => h
      end) h (wheels p) in
  let h :=
    foldl (fun h obj =>
      match originalPositions p !! obj with
      | Some orig => alter (set_position orig) obj h
      | None => h
      end) h (chassisParts p) in
  with_heap h s.

(** The snap back to the recorded transforms. *)
Definition snapParts (s : Service) : Service :=
  let p := currentCarParams s in
  let h :=
    foldl (fun h e => alter (set_position e.2) e.1 h) (heap s)
      (map_to_list (originalPositions p)) in
  let h :=
    foldl (fun h e => alter (set_rotation e.2) e.1 h) h
      (map_to_list (originalRotations p)) in
  with_heap h s.

Definition set_explodeFactor (v : Q) (m : Sim) : Sim :=
  mkSim (speed m) (steering m) (carAngle m) v (charRotation m) (keys m).

(** The exploded view of the active vehicle. *)
Definition explode (isTechMode : bool) (delta : Q) (s : Service) : Service :=
  let factor := explodeStep isTechMode delta (explodeFactor (sim s)) in
  let s := with_sim (set_explodeFactor factor (sim s)) s in
  if Fleet.Qgt_bool factor 0.01 then explodeParts factor s
  else if negb isTechMode then snapParts s
  else s.

Section WithHost.
Context {host : Host}.

(** The drive-mode part of a tick. *)
Definition drive (delta : Q) (activeGroup : nat) (s : Service) : Service :=
  let h :=
    foldl (fun h g =>
      if bool_decide (g = activeGroup) then h
      else alter (set_visible false) g h) (heap s)
      ((map_to_list (carMap s)).*2) in
  let h := alter (set_visible true) activeGroup h in
  let joystick := Store.joystickState (store s) in
  let throttle := throttleInput (isUp s) (isDown s) joystick.2 in
  let v := driveSpeed (isBrake s) throttle delta (speed (sim s)) in
  let steer :=
    Js.lerp (steering (sim s)) (steerInput (isLeft s) (isRight s) joystick.1)
      (delta * 5) in
  let angle :=
    if Fleet.Qgt_bool (Js.Math_abs v) 0.1
    then carAngle (sim s) + v * steer * 0.05 * delta
    else carAngle (sim s) in
  let pos := default (mkVec3 0 0 0) (o_position <$> h !! activeGroup) in
  let nextX := vx pos + Math_sin angle * v * delta in
  let nextZ := vz pos + Math_cos angle * v * delta in
  let bounce := outOfBounds nextX nextZ in
  let v := if bounce then v * -0.5 else v in
  let pos := if bounce then pos else mkVec3 nextX (vy pos) nextZ in
  let h :=
    alter (fun o =>
      set_rotation
        (mkEuler (ex (o_rotation o)) angle (ez (o_rotation o))
           (e_order (o_rotation o)))
        (set_position (mkVec3 (vx pos) 0 (vz pos)) o)) activeGroup h in
  let rotSpeed := v * delta * 2.0 in
  let h :=
    foldl (fun h w =>
      alter (fun o =>
        set_rotation
          (mkEuler (ex (o_rotation o) + rotSpeed)
             (match ud_isFront o with Some true => steer | _ => 0 end)
             (ez (o_rotation o)) (e_order (o_rotation o))) o) w h)
      h (wheels (currentCarParams s)) in
  with_heap h
    (with_sim
       (mkSim v steer angle (explodeFactor (sim s)) (charRotation (sim s))
          (keys (sim s))) s).

(** [mixer.update(delta)]: the mixer writes the transforms of the nodes
    that its tracks animate, which are nodes under its root. *)
Definition mixerUpdate (m : Mixer) (h : Heap) : Heap :=
  foldl (fun h' node =>
    match AnimationMixer_update m h node with
    | Some (p, r, sc) =>
        alter (fun o =>
          set_scale sc
            (set_rotation
               (mkEuler (vx r) (vy r) (vz r) (e_order (o_rotation o)))
               (set_position p o))) node h'
    | None => h'
    end) h (Obj.subtree h (mixerRoot m)).

(** [actions.find(a => ...)] over the clip names. *)
Definition findAction (f : string -> bool) (actions : list string)
  : option string :=
  List.find f actions.

(** The calls that [animateCharacter] makes on the actions after the
    mixer's update. *)
Definition actionCalls (m : Mixer) (actions : list string) (moveSpeed : Q)
  : list MixerCall :=
  match actions with
  | [] => []
  | _ =>
      let idleAction :=
        findAction (fun n => Fleet.includes "idle" (Fleet.toLowerCase n))
          actions in
      let runAction :=
        findAction (fun n =>
          Fleet.includes "run" (Fleet.toLowerCase n)
          || Fleet.includes "walk" (Fleet.toLowerCase n)) actions in
      let idleAction :=
        match idleAction with
        | None => Js.index actions 0
        | Some a => Some a
        end in
      let runAction :=
        match runAction with
        | None =>
            if (1 <? Z.of_nat (length actions))%Z then Js.index actions 1
            else None
        | Some a => Some a
        end in
      let runAction :=
        match runAction with
        | None => idleAction
        | Some a => Some a
        end in
      match idleAction, runAction with
      | Some idleAction, Some runAction =>
          let isMoving := Fleet.Qgt_bool moveSpeed 0.1 in
          let activeAction := if isMoving then runAction else idleAction in
          let otherAction := if isMoving then idleAction else runAction in
          let running := AnimationAction_isRunning m activeAction in
          (if negb (String.eqb activeAction otherAction)
           then
             if negb running
             then [ActionFadeOut otherAction 0.2; ActionReset activeAction;
                   ActionFadeIn activeAction 0.2; ActionPlay activeAction]
             else []
           else if negb running then [ActionPlay activeAction] else [])
          ++ [ActionSetEffectiveTimeScale activeAction
                (if isMoving
                 then
                   (if String.eqb activeAction idleAction
                       && (Z.of_nat (length actions) =? 1)%Z
                    then 2.0 else 1.0) + moveSpeed * 0.5
                 else 1.0)]
      | _, _ => []
      end
  end.

(** [obj.rotation.x = v] *)
Definition set_rotation_x (v : Q) (o : Object3D) : Object3D :=
  set_rotation
    (mkEuler v (ey (o_rotation o)) (ez (o_rotation o))
       (e_order (o_rotation o))) o.

(** [if (this.charMeshes[name]) f(this.charMeshes[name])] *)
Definition onCharMesh (name : string) (f : Object3D -> Object3D)
  (c : Character) (h : Heap) : Heap :=
  match charMeshes c !! name with
  | Some obj => alter f obj h
  | None => h
  end.

(** [animateCharacter(delta, moveSpeed)]; [time] is
    [clock.getElapsedTime()]. *)
Definition animateCharacter (delta time moveSpeed : Q) (s : Service)
  : Service :=
  let c := character s in
  match charMixer c with
  | Some m =>
      let m := mkMixer (mixerRoot m) (mixerCalls m ++ [MixerUpdate delta]) in
      let s := with_heap (mixerUpdate m (heap s)) s in
      let m :=
        mkMixer (mixerRoot m)
          (mixerCalls m ++ actionCalls m (charActions c) moveSpeed) in
      with_character
        (mkCharacter (charMeshes c) (Some m) (charActions c)
           (charModelType c)) s
  | None =>
      if bool_decide (charMeshes c = ∅)
         && negb (bool_decide (charModelType c = Some "none"))
      then
        let baseY := vy (character_position (Store.config (store s))) in
        with_heap
          (alter (fun o =>
             if Fleet.Qgt_bool moveSpeed 0.1
             then
               set_rotation_x 0.15
                 (set_position
                    (mkVec3 (vx (o_position o))
                       (baseY + Js.Math_abs (Math_sin (time * 15)) * 0.08)
                       (vz (o_position o))) o)
             else
               set_rotation_x (Js.lerp (ex (o_rotation o)) 0 (delta * 5))
                 (set_position
                    (mkVec3 (vx (o_position o))
                       (Js.lerp (vy (o_position o)) baseY (delta * 5))
                       (vz (o_position o))) o))
             charGroup (heap s)) s
      else if Fleet.Qgt_bool moveSpeed 0.1
      then
        let freq := if Fleet.Qgt_bool moveSpeed 0.6 then 15 else 8 in
        let amp := if Fleet.Qgt_bool moveSpeed 0.6 then 0.8 else 0.5 in
        let h := heap s in
        let h :=
          onCharMesh "leftLeg"
            (set_rotation_x (Math_sin (time * freq) * amp)) c h in
        let h :=
          onCharMesh "rightLeg"
            (set_rotation_x (Math_sin (time * freq + Math_PI) * amp)) c h in
        let h :=
          onCharMesh "leftArm"
            (set_rotation_x (Math_sin (time * freq + Math_PI) * amp)) c h in
        let h :=
          onCharMesh "rightArm"
            (set_rotation_x (Math_sin (time * freq) * amp)) c h in
        let h :=
          onCharMesh "body"
            (fun o =>
               set_rotation
                 (mkEuler (ex (o_rotation o)) 0 (ez (o_rotation o))
                    (e_order (o_rotation o)))
                 (set_position
                    (mkVec3 (vx (o_position o))
                       (1.0 + Js.Math_abs (Math_sin (time * freq * 2)) * 0.05)
                       (vz (o_position o))) o)) c h in
        with_heap h s
      else
        let lerp := 5 * delta in
        let relax (o : Object3D) : Object3D :=
          set_rotation_x (Js.lerp (ex (o_rotation o)) 0 lerp) o in
        let h := heap s in
        let h := onCharMesh "leftLeg" relax c h in
        let h := onCharMesh "rightLeg" relax c h in
        let h := onCharMesh "leftArm" relax c h in
        let h := onCharMesh "rightArm" relax c h in
        let h :=
          onCharMesh "body"
            (fun o =>
               set_position
                 (mkVec3 (vx (o_position o)) (1.0 + Math_sin (time * 2) * 0.02)
                    (vz (o_position o))) o) c h in
        with_heap h s
  end.

(** The walk-mode part of a tick; [elapsed] is [clock.getElapsedTime()]. *)
Definition walk (delta elapsed : Q) (activeGroup : option nat) (s : Service)
  : Service :=
  let h :=
    match activeGroup with
    | Some g => alter (set_visible true) g (heap s)
    | None => heap s
    end in
  let joystick := Store.joystickState (store s) in
  let moveFwd :=
    (if isUp s then 1 else if isDown s then -1 else 0) + joystick.2 in
  let rotate :=
    (if isLeft s then 1 else if isRight s then -1 else 0) + - joystick.1 in
  let rot := charRotation (sim s) + rotate * 3 * delta in
  let moveSpeed := 5 * delta in
  let actualSpeed := Js.Math_abs moveFwd in
  let h :=
    alter (fun o =>
      let p := o_position o in
      set_position
        (if Fleet.Qgt_bool actualSpeed 0.1
         then mkVec3 (vx p + Math_sin rot * moveFwd * moveSpeed) (vy p)
                (vz p + Math_cos rot * moveFwd * moveSpeed)
         else p)
        (set_rotation
           (mkEuler (ex (o_rotation o)) rot (ez (o_rotation o))
              (e_order (o_rotation o))) o)) charGroup h in
  animateCharacter delta elapsed actualSpeed
    (with_heap h
       (with_sim
          (mkSim (speed (sim s)) (steering (sim s)) (carAngle (sim s))
             (explodeFactor (sim s)) rot (keys (sim s))) s)).

(** [engineSound.setPlaybackRate(0.8 + |speed| / 80 * 0.8)] while the
    engine loop plays. *)
Definition modulateEngine (s : Service) : Service :=
  match sounds (audio s) with
  | Some snd =>
      if isEngineRunning (audio s) && a_isPlaying (engineSound snd)
      then
        with_audio
          (mkAudio
             (Some
                (mkSounds
                   (Engine.setPlaybackRate
                      (0.8 + Js.Math_abs (speed (sim s)) / 80 * 0.8)
                      (engineSound snd))
                   (ignitionSound snd)))
             (isEngineRunning (audio s))) s
      else s
  | None => s
  end.

(** One frame: [delta] is [clock.getDelta()], [elapsed] is
    [clock.getElapsedTime()]. *)
Definition animate (delta elapsed : Q) (s : Service) : Js.Outcome Service :=
  match Store.activeCar (store s) with
  | None => Js.TypeError s
  | Some activeCarConfig =>
      let activeGroup := carMap s !! car_id activeCarConfig in
      if Store.isMenuOpen (store s) then Js.Done s
      else
        let s := modulateEngine s in
        match Store.activeSection (store s) with
        | None => Js.TypeError s
        | Some section =>
            let id := sec_id section in
            let s :=
              if negb (String.eqb id "drive") && negb (String.eqb id "walk")
              then
                let s :=
                  foldl
                    (lineupCar delta elapsed
                       (activeCarIndex (Store.config (store s))))
                    s (imap pair (fleet (Store.config (store s)))) in
                match activeGroup with
                | Some _ => explode (String.eqb id "engineering") delta s
                | None => s
                end
              else s in
            let s :=
              match activeGroup with
              | Some g => if String.eqb id "drive" then drive delta g s else s
              | None => s
              end in
            let s :=
              if String.eqb id "walk" then walk delta elapsed activeGroup s
              else s in
            Js.Done s
        end
  end.

End WithHost.

End Loop.

(** ** The sounds of the active vehicle ([updateCarAudio]) *)

Module CarAudio.

(** A sound load in flight: the variables its completion closure
    captured. *)
Inductive SoundLoad : Type :=
| DriveSoundLoad (car : CarConfig) (wasRunning : bool)
| IgnitionSoundLoad.

(** The service with the fields that only [updateCarAudio] and its
    callbacks read: the id of the vehicle whose drive sound is in the
    engine source, and the sound loads started so far. *)
Record t : Type := mk {
  service : Service;
  currentEngineSoundId : option string;
  soundLoads : list SoundLoad
}.

(** Whether [this.audioListener] is set. *)
Definition audioListener (a : t) : bool := audioListener (service a).

Definition with_service (s : Service) (a : t) : t :=
  mk s (currentEngineSoundId a) (soundLoads a).

(** [if (x.parent) x.parent.remove(x)] *)
Definition detach (x : nat) (h : Heap) : Heap :=
  match h !! x ≫= o_parent with
  | Some q => Obj.remove q x h
  | None => h
  end.

(** [sound.setBuffer(buffer)] *)
Definition setBuffer (x : PositionalAudio) : PositionalAudio :=
  mkPositionalAudio true (a_isPlaying x) (a_onEnded x) (a_playbackRate x)
    (a_source x).

Definition updateCarAudio (car : option CarConfig) (a : t) : Js.Outcome t :=
  if negb (audioListener a) then Js.Done a
  else
    match car with
    | None => Js.TypeError a
    | Some car =>
        let s := service a in
        let activeGroup := carMap s !! car_id car in
        match sounds (audio s) with
        | None => Js.TypeError a
        | Some snd =>
            let h := detach engineSoundObj (heap s) in
            let h := detach ignitionSoundObj h in
            let h :=
              match activeGroup with
              | Some g =>
                  Obj.add g ignitionSoundObj (Obj.add g engineSoundObj h)
              | None => h
              end in
            let s := with_heap h s in
            let eng := engineSound snd in
            let isCurrent :=
              bool_decide (currentEngineSoundId a = Some (car_id car)) in
            let '(eng, s, loads) :=
              if Js.truthy_opt (car_driveSoundUrl car) && negb isCurrent
              then
                let wasRunning := isEngineRunning (audio s) in
                let eng := if a_isPlaying eng then Engine.stop eng else eng in
                (eng, with_store (Store.incrementLoading (store s)) s,
                 soundLoads a ++ [DriveSoundLoad car wasRunning])
              else if Js.truthy_opt (car_driveSoundUrl car) && isCurrent
              then
                (if isEngineRunning (audio s) && negb (a_isPlaying eng)
                    && a_buffer eng
                 then Engine.play eng else eng,
                 s, soundLoads a)
              else (eng, s, soundLoads a) in
            let s :=
              with_audio
                (mkAudio (Some (mkSounds eng (ignitionSound snd)))
                   (isEngineRunning (audio s))) s in
            let '(s, loads) :=
              if Js.truthy_opt (car_ignitionSoundUrl car)
              then (with_store (Store.incrementLoading (store s)) s,
                    loads ++ [IgnitionSoundLoad])
              else (s, loads) in
            Js.Done (mk s (currentEngineSoundId a) loads)
        end
    end.

(** The success callback of the drive-sound load. *)
Definition onDriveSoundLoaded (car : CarConfig) (wasRunning : bool) (a : t)
  : Js.Outcome t :=
  let a := mk (service a) (Some (car_id car)) (soundLoads a) in
  let s := service a in
  match sounds (audio s) with
  | None => Js.TypeError a
  | Some snd =>
      let eng := setBuffer (engineSound snd) in
      let eng :=
        if wasRunning && negb (a_isPlaying eng) then Engine.play eng
        else eng in
      let s :=
        with_audio
          (mkAudio (Some (mkSounds eng (ignitionSound snd)))
             (isEngineRunning (audio s))) s in
      Js.Done
        (with_service (with_store (Store.decrementLoading (store s)) s) a)
  end.

(** The success callback of the ignition-sound load. *)
Definition onIgnitionSoundLoaded (a : t) : Js.Outcome t :=
  let s := service a in
  match sounds (audio s) with
  | None => Js.TypeError a
  | Some snd =>
      let s :=
        with_audio
          (mkAudio
             (Some (mkSounds (engineSound snd) (setBuffer (ignitionSound snd))))
             (isEngineRunning (audio s))) s in
      Js.Done
        (with_service (with_store (Store.decrementLoading (store s)) s) a)
  end.

(** The error callback of either load. *)
Definition onSoundFailed (a : t) : t :=
  with_service
    (with_store (Store.decrementLoading (store (service a))) (service a)) a.

End CarAudio.

(** ** The fleet that the server delivers ([initializeData],
    [pollServerUpdates]) *)

Module Remote.

(** [{ ...current, fleet: cars }] *)
Definition set_fleet (cars : list CarConfig) (c : AppConfig) : AppConfig :=
  mkAppConfig (sections c) (activeCarIndex c) cars (environments c)
    (activeEnvironmentId c) (sceneObjects c) (character_position c).

(** The second half of [pollServerUpdates]:
    [if (serverCars && serverCars.length > 0)
       this.config.update(current => ({ ...current, fleet: serverCars }))];
    [None] is a falsy answer. *)
Definition pollCars (serverCars : option (list CarConfig)) (s : Store.t)
  : Store.t :=
  match serverCars with
  | Some cars =>
      if (0 <? Z.of_nat (length cars))%Z
      then Store.set_config (set_fleet cars) s
      else s
  | None => s
  end.




End Remote.

(** * Properties *)

(** ** Example data *)

(** A host used where an example needs one: a car driving straight ahead
    (heading [0]) over objects that have no geometry, and a character
    without animation tracks. *)
Definition exampleHost : Host :=
  mkHost (fun _ => 0) (fun _ => 1) (355 # 113) (fun _ _ => None)
    (fun _ _ => mkVec3 0 0 0) (fun _ _ _ => None) (fun _ _ => true).

(** The section list and the fleet of the default configuration of
    [data.types.ts] (the fields the model keeps). *)
Definition defaultSections : list SectionConfig :=
  [mkSectionConfig "showroom" "DESIGN STUDIO";
   mkSectionConfig "drive" "TRACK MODE";
   mkSectionConfig "cockpit" "INTERIOR";
   mkSectionConfig "engineering" "TECH";
   mkSectionConfig "walk" "FREE ROAM"].

Definition lfa : CarConfig :=
  mkCarConfig "lfa-next" "LFA-X CONCEPT" "#FF9900" "#FF8800" 0.1 0.6
    None None None.

Definition lfz : CarConfig :=
  mkCarConfig "lf-z" "LF-Z ELECTRIFIED" "#0055ff" "#0044cc" 0.2 0.8
    None None None.

Definition rz : CarConfig :=
  mkCarConfig "rz-450" "RZ 450e" "#d48c55" "#d48c55" 0.2 0.7 None None None.

Definition defaultFleet : list CarConfig := [lfa; lfz; rz].

Definition defaultConfig : AppConfig :=
  mkAppConfig defaultSections 0 defaultFleet [] None [] (mkVec3 (-5) 0 5).

(** The default configuration with a fleet of one vehicle. *)
Definition demoConfig : AppConfig :=
  mkAppConfig defaultSections 0 [lfa] [] None [] (mkVec3 (-5) 0 5).

(** ** The configuration store *)

Lemma applyLoadingOp_nonneg (s : Store.t) (op : Store.LoadingOp) :
  (0 <= Store.loadingCount s)%Z ->
  (0 <= Store.loadingCount (Store.applyLoadingOp s op))%Z.
Proof.
  destruct s as [c n i m j]; destruct op; simpl; lia.
Qed.

Lemma loadingOps_nonneg (ops : list Store.LoadingOp) (s : Store.t) :
  (0 <= Store.loadingCount s)%Z ->
  (0 <= Store.loadingCount (foldl Store.applyLoadingOp s ops))%Z.
Proof.
  revert s; induction ops as [|op ops IH]; intros s Hs; simpl; [exact Hs|].
  apply IH, applyLoadingOp_nonneg, Hs.
Qed.

Lemma isLoading_spec (s : Store.t) :
  Store.isLoading s = true <-> (0 < Store.loadingCount s)%Z.
Proof. unfold Store.isLoading. apply Z.ltb_lt. Qed.

(** C9: whatever calls of [incrementLoading] and [decrementLoading] follow
    the construction of the store, in whatever order, [loadingCount] is not
    negative, and [isLoading()] is true exactly when it is positive. *)
Theorem loadingCount_never_negative (c : AppConfig)
  (ops : list Store.LoadingOp) :
  let s := foldl Store.applyLoadingOp (Store.initial c) ops in
  (0 <= Store.loadingCount s)%Z
  /\ (Store.isLoading s = true <-> (0 < Store.loadingCount s)%Z)
  /\ Store.loadingCount (Store.decrementLoading s)
     = Z.max 0 (Store.loadingCount s - 1).
Proof.
  cbv zeta; split; [|split].
  - apply loadingOps_nonneg; simpl; lia.
  - apply isLoading_spec.
  - reflexivity.
Qed.

(** *** Removing an environment *)

Lemma filter_eqb_spec (id : string) (envs : list EnvironmentItem) :
  List.filter (fun e => negb (String.eqb (env_id e) id)) envs
  = filter (fun e => env_id e ≠ id) envs.
Proof.
  induction envs as [|e envs IH]; [reflexivity|].
  simpl. rewrite filter_cons, IH.
  destruct (String.eqb_spec (env_id e) id) as [E|E]; simpl;
    destruct (decide (env_id e ≠ id)); done.
Qed.

Lemma index_0_head {A : Type} (l : list A) : Js.index l 0 = head l.
Proof. destruct l; reflexivity. Qed.

Lemma filter_one_less (id : string) (envs : list EnvironmentItem) :
  NoDup (env_id <$> envs) -> id ∈ env_id <$> envs ->
  S (length (filter (fun e => env_id e ≠ id) envs)) = length envs.
Proof.
  induction envs as [|e envs IH]; intros Hnd Hin.
  - apply elem_of_nil in Hin. destruct Hin.
  - rewrite fmap_cons in Hnd, Hin. apply NoDup_cons in Hnd as [Hne Hnd].
    rewrite filter_cons. destruct (decide (env_id e ≠ id)) as [Hd|Hd].
    + cbn [length]. f_equal. apply IH; [exact Hnd|].
      apply elem_of_cons in Hin as [Hin|Hin]; [|exact Hin].
      exfalso. apply Hd. symmetry. exact Hin.
    + cbn [length]. f_equal.
      assert (E : env_id e = id) by (destruct (decide (env_id e = id)); tauto).
      subst id. clear IH Hin Hd Hnd.
      induction envs as [|e' envs IH]; [reflexivity|].
      rewrite fmap_cons in Hne. apply not_elem_of_cons in Hne as [H1 H2].
      rewrite filter_cons. destruct (decide (env_id e' ≠ env_id e));
        [|exfalso; auto].
      cbn [length]. f_equal. apply IH, H2.
Qed.

(** C10: in a store whose environments have non-empty ids, as every
    environment the application creates has (its id is a fresh UUID),
    [removeEnvironment id] keeps exactly the environments whose id differs
    from [id], unchanged and in their order, so with distinct ids it
    removes the one environment that has the id; the other fields of the
    configuration are unchanged; and [activeEnvironmentId] is rewritten
    only when it was [id], and then becomes the id of the first remaining
    environment, or [null] if none remains. *)
Theorem removeEnvironment_removes_and_reselects (id : string) (s : Store.t) :
  Forall (fun e => env_id e ≠ "") (environments (Store.config s)) ->
  let c := Store.config s in
  let c' := Store.config (Store.removeEnvironment id s) in
  environments c' = filter (fun e => env_id e ≠ id) (environments c)
  /\ (forall e, e ∈ environments c' <-> e ∈ environments c /\ env_id e ≠ id)
  /\ (NoDup (env_id <$> environments c) -> id ∈ env_id <$> environments c ->
      S (length (environments c')) = length (environments c))
  /\ (activeEnvironmentId c ≠ Some id ->
      activeEnvironmentId c' = activeEnvironmentId c)
  /\ (activeEnvironmentId c = Some id ->
      activeEnvironmentId c' = env_id <$> head (environments c'))
  /\ fleet c' = fleet c /\ activeCarIndex c' = activeCarIndex c
  /\ sceneObjects c' = sceneObjects c /\ sections c' = sections c
  /\ Store.loadingCount (Store.removeEnvironment id s) = Store.loadingCount s.
Proof.
  intros Hids. cbv zeta. destruct s as [c n i m j]; simpl in *.
  rewrite filter_eqb_spec.
  split; [reflexivity|].
  split; [intros e; rewrite list_elem_of_filter; tauto|].
  split; [apply filter_one_less|].
  split.
  { intros Hne. rewrite bool_decide_eq_false_2 by exact Hne. reflexivity. }
  split.
  { intros He. rewrite bool_decide_eq_true_2 by exact He.
    rewrite index_0_head.
    destruct (head (filter (fun e => env_id e ≠ id) (environments c)))
      as [e|] eqn:Eh; simpl; [|reflexivity].
    assert (Hin : e ∈ environments c).
    { apply head_Some_elem_of in Eh. apply list_elem_of_filter in Eh.
      tauto. }
    rewrite Forall_forall in Hids. specialize (Hids e Hin).
    unfold Js.truthy.
    destruct (String.eqb_spec (env_id e) ""); [contradiction|reflexivity]. }
  repeat split.
Qed.

(** Two environments, the first one active. *)
Definition twoHallsConfig : AppConfig :=
  mkAppConfig [] 0 []
    [mkEnvironmentItem "a" "Hall" "hall.glb" "asset-a" 1 (mkVec3 0 0 0);
     mkEnvironmentItem "b" "Yard" "yard.glb" "asset-b" 1 (mkVec3 0 0 0)]
    (Some "a") [] (mkVec3 0 0 0).

Lemma removeEnvironment_removes_and_reselects_witness :
  let c' := Store.config (Store.removeEnvironment "a" (Store.initial twoHallsConfig)) in
  env_id <$> environments c' = ["b"]
  /\ activeEnvironmentId c' = env_id <$> head (environments c').
Proof.
  cbv zeta. split; [reflexivity|].
  refine (proj1 (proj2 (proj2 (proj2 (proj2
    (removeEnvironment_removes_and_reselects "a" (Store.initial twoHallsConfig)
       _))))) _).
  - repeat constructor; discriminate.
  - reflexivity.
Defined.

(** *** The active vehicle *)

Lemma index_Some_elem {A : Type} (l : list A) (i : Z) (x : A) :
  Js.index l i = Some x -> x ∈ l.
Proof.
  unfold Js.index. destruct (i <? 0)%Z; [discriminate|].
  apply list_elem_of_lookup_2.
Qed.

(** With a vehicle in the fleet, [activeCar] is the vehicle at
    [activeCarIndex] when there is one, and the first vehicle otherwise. *)
Lemma activeCar_nonempty (s : Store.t) :
  fleet (Store.config s) ≠ [] ->
  exists car, Store.activeCar s = Some car /\ car ∈ fleet (Store.config s)
    /\ (Js.index (fleet (Store.config s)) (activeCarIndex (Store.config s))
        = Some car
        \/ (Js.index (fleet (Store.config s)) (activeCarIndex (Store.config s))
            = None
            /\ head (fleet (Store.config s)) = Some car)).
Proof.
  intros Hne. unfold Store.activeCar.
  destruct (Js.index _ (activeCarIndex _)) as [car|] eqn:E.
  - exists car. split; [reflexivity|]. split; [|left; reflexivity].
    eapply index_Some_elem, E.
  - destruct (fleet (Store.config s)) as [|car l] eqn:F; [done|].
    exists car. rewrite index_0_head. simpl.
    split; [reflexivity|]. split; [left|right; split; reflexivity].
Qed.

Lemma activeCar_empty (s : Store.t) :
  fleet (Store.config s) = [] -> Store.activeCar s = None.
Proof.
  intros E. unfold Store.activeCar, Js.index. rewrite E.
  destruct (_ <? 0)%Z; reflexivity.
Qed.




(** ** The audio binder *)

Lemma ignitionEnded_not_running (s : Service) :
  isEngineRunning (audio s) = false ->
  isEngineRunning (audio (Engine.ignitionEnded s)) = false
  /\ Engine.engineLoopPlaying (Engine.ignitionEnded s)
     = Engine.engineLoopPlaying s.
Proof.
  intros Hr. unfold Engine.ignitionEnded, Engine.engineLoopPlaying.
  destruct (sounds (audio s)) as [snd|] eqn:Es; [|rewrite Es; auto].
  destruct (a_source (ignitionSound snd)) as [[|]|]; cbn.
  - auto.
  - rewrite Hr, andb_false_r. auto.
  - rewrite Es. auto.
Qed.

Lemma ignitionEnded_iter_not_running (n : nat) (s : Service) :
  isEngineRunning (audio s) = false ->
  Engine.engineLoopPlaying (Nat.iter n Engine.ignitionEnded s)
  = Engine.engineLoopPlaying s
  /\ isEngineRunning (audio (Nat.iter n Engine.ignitionEnded s)) = false.
Proof.
  intros Hr. induction n as [|n [IH1 IH2]]; simpl; [auto|].
  destruct (ignitionEnded_not_running _ IH2) as [H1 H2].
  rewrite H2, IH1. auto.
Qed.

(** The guard of the completion handler: the engine loop goes from silent
    to playing at the end of the ignition one-shot only when the engine is
    flagged running at that moment. *)
Lemma ignitionEnded_starts_only_when_running (s : Service) :
  Engine.engineLoopPlaying s = false ->
  Engine.engineLoopPlaying (Engine.ignitionEnded s) = true ->
  isEngineRunning (audio s) = true.
Proof.
  intros Hoff Hon.
  destruct (isEngineRunning (audio s)) eqn:Hr; [reflexivity|].
  destruct (ignitionEnded_not_running s Hr) as [_ H]. congruence.
Qed.

(** C7: with the listener set, an ignition clip loaded and the engine
    stopped and silent, toggling the ignition on and then off before the
    one-shot completes leaves the engine loop silent: it does not start at
    either toggle; the second toggle stops the one-shot and unbinds its
    completion handler; and the loop does not start afterwards, however
    often a completion is signalled.  In any state, the completion handler
    starts the loop only if the engine is flagged running when it runs. *)
Theorem rapid_toggle_never_starts_engine_loop (s : Service) (snd : Sounds) :
  audioListener s = true ->
  sounds (audio s) = Some snd ->
  isEngineRunning (audio s) = false ->
  a_buffer (ignitionSound snd) = true ->
  a_isPlaying (engineSound snd) = false ->
  let s1 := Engine.step s Engine.Toggle in
  let s2 := Engine.step s1 Engine.Toggle in
  (isEngineRunning (audio s1) = true /\ Engine.engineLoopPlaying s1 = false)
  /\ (isEngineRunning (audio s2) = false /\ Engine.engineLoopPlaying s2 = false)
  /\ (forall snd2, sounds (audio s2) = Some snd2 ->
        a_isPlaying (ignitionSound snd2) = false
        /\ a_source (ignitionSound snd2) = None)
  /\ (forall n,
        Engine.engineLoopPlaying (Nat.iter n Engine.ignitionEnded s2) = false)
  /\ (forall t,
        Engine.engineLoopPlaying t = false ->
        Engine.engineLoopPlaying (Engine.ignitionEnded t) = true ->
        isEngineRunning (audio t) = true).
Proof.
  intros Hl Hs Hr Hb Hp. cbv zeta.
  assert (E1 : exists ign1,
    Engine.step s Engine.Toggle
    = with_audio (mkAudio (Some (mkSounds (engineSound snd) ign1)) true)
        (with_audio (mkAudio (sounds (audio s)) true) s)
    /\ a_isPlaying ign1 = true).
  { unfold Engine.step, Engine.toggleIgnition, Engine.startEngine.
    rewrite Hl, Hr. cbn. rewrite Hs. cbn. rewrite Hb.
    eexists. split; [reflexivity|].
    destruct (a_isPlaying (ignitionSound snd)) eqn:Ei;
      unfold Engine.play; cbn; rewrite ?Ei; reflexivity. }
  destruct E1 as (ign1 & E1 & Hi1). rewrite E1.
  assert (E2 :
    Engine.step
      (with_audio (mkAudio (Some (mkSounds (engineSound snd) ign1)) true)
         (with_audio (mkAudio (sounds (audio s)) true) s)) Engine.Toggle
    = with_sim (Engine.set_speed 0 (sim s))
        (with_audio
           (mkAudio (Some (mkSounds (engineSound snd) (Engine.stop ign1)))
              false)
           (with_audio (mkAudio (Some (mkSounds (engineSound snd) ign1)) true)
              (with_audio (mkAudio (sounds (audio s)) true) s)))).
  { unfold Engine.step, Engine.toggleIgnition, Engine.stopEngine.
    cbn. rewrite Hl. cbn. rewrite Hp, Hi1. reflexivity. }
  rewrite E2.
  split.
  { split; [reflexivity|]. unfold Engine.engineLoopPlaying. cbn. exact Hp. }
  assert (Hp2 : Engine.engineLoopPlaying
    (with_sim (Engine.set_speed 0 (sim s))
        (with_audio
           (mkAudio (Some (mkSounds (engineSound snd) (Engine.stop ign1)))
              false)
           (with_audio (mkAudio (Some (mkSounds (engineSound snd) ign1)) true)
              (with_audio (mkAudio (sounds (audio s)) true) s)))) = false).
  { unfold Engine.engineLoopPlaying. cbn. exact Hp. }
  split; [split; [reflexivity|exact Hp2]|].
  split.
  { intros snd2 E. cbn in E. injection E as <-. split; reflexivity. }
  split.
  { intros n.
    match goal with |- Engine.engineLoopPlaying (Nat.iter n _ ?t) = _ =>
      destruct (ignitionEnded_iter_not_running n t eq_refl) as [H _]
    end.
    rewrite H. exact Hp2. }
  apply ignitionEnded_starts_only_when_running.
Qed.

(** The sources with both clips loaded, the engine off. *)
Definition loadedAudio : Service :=
  with_audio
    (mkAudio
       (Some (mkSounds (mkPositionalAudio true false DefaultOnEnded 1 None)
                (mkPositionalAudio true false DefaultOnEnded 1 None))) false)
    (initialService (Store.initial defaultConfig)).

Lemma rapid_toggle_never_starts_engine_loop_witness :
  let s2 :=
    foldl Engine.step loadedAudio [Engine.Toggle; Engine.Toggle] in
  isEngineRunning (audio s2) = false
  /\ Engine.engineLoopPlaying (Engine.ignitionEnded s2) = false.
Proof.
  cbv zeta.
  destruct (rapid_toggle_never_starts_engine_loop loadedAudio
              (mkSounds (mkPositionalAudio true false DefaultOnEnded 1 None)
                 (mkPositionalAudio true false DefaultOnEnded 1 None)))
    as (_ & (H2 & _) & _ & H4 & _); try reflexivity.
  split; [exact H2|exact (H4 1%nat)].
Defined.

(** ** The simulation loop: inputs *)

Lemma Math_max_cases (a b : Q) :
  (a < b /\ Js.Math_max a b = b) \/ (b <= a /\ Js.Math_max a b = a).
Proof. unfold Js.Math_max. destruct (Qlt_le_dec a b); auto. Qed.

Lemma Math_min_cases (a b : Q) :
  (b < a /\ Js.Math_min a b = b) \/ (a <= b /\ Js.Math_min a b = a).
Proof. unfold Js.Math_min. destruct (Qlt_le_dec b a); auto. Qed.

Lemma Math_abs_cases (a : Q) :
  (a < 0 /\ Js.Math_abs a = - a) \/ (0 <= a /\ Js.Math_abs a = a).
Proof. unfold Js.Math_abs. destruct (Qlt_le_dec a 0); auto. Qed.

Lemma Qgt_bool_true (a b : Q) : Fleet.Qgt_bool a b = true <-> b < a.
Proof.
  unfold Fleet.Qgt_bool. destruct (Qlt_le_dec b a) as [H|H].
  - tauto.
  - split; [discriminate|]. intros H'. exfalso. lra.
Qed.

Lemma Qgt_bool_false (a b : Q) : Fleet.Qgt_bool a b = false <-> a <= b.
Proof.
  unfold Fleet.Qgt_bool. destruct (Qlt_le_dec b a) as [H|H].
  - split; [discriminate|]. intros H'. exfalso. lra.
  - tauto.
Qed.

(** [Math.max(lo, Math.min(hi, x))] lies between the bounds. *)
Lemma clamp_bounds (lo hi x : Q) :
  lo <= hi -> lo <= Js.Math_max lo (Js.Math_min hi x) <= hi.
Proof.
  intros Hb.
  destruct (Math_min_cases hi x) as [[H1 E1]|[H1 E1]]; rewrite E1;
    destruct (Math_max_cases lo hi) as [[H2 E2]|[H2 E2]];
    destruct (Math_max_cases lo x) as [[H3 E3]|[H3 E3]];
    rewrite ?E2, ?E3; lra.
Qed.

(** Drive mode, the joystick pushed fully to the right ([{x: 1, y: 0}]) and
    the left arrow key held. *)
Definition joystickRightKeyLeft : Service :=
  Loop.handleKeyDown "ArrowLeft"
    (initialService (Store.mk demoConfig 0 1 false (1, 0))).

(** C8, as stated, fails: with the joystick at [{x: 1, y: 0}] and the left
    key held, the keyboard term is [0.6] and the joystick term is [-0.6];
    the steering input handed to the smoother is [0], not [0.6]. *)
Lemma steering_joystick_right_key_left_counterexample :
  let s := joystickRightKeyLeft in
  Store.activeSection (store s) = Some (mkSectionConfig "drive" "TRACK MODE")
  /\ Loop.isLeft s = true
  /\ Store.joystickState (store s) = (1, 0)
  /\ Loop.steerInput (Loop.isLeft s) (Loop.isRight s)
       (Store.joystickState (store s)).1 == 0
  /\ ~ Loop.steerInput (Loop.isLeft s) (Loop.isRight s)
         (Store.joystickState (store s)).1 == 0.6.
Proof.
  cbv zeta. split; [reflexivity|]. split; [reflexivity|].
  split; [reflexivity|]. split; [reflexivity|].
  intros H. vm_compute in H. discriminate H.
Qed.

(** The steering input as the amended claim words it: the keyboard term
    is [0.6] when the left key is held, otherwise [-0.6] when the right key
    is held, otherwise [0]; the joystick's x axis counts [-0.6] times; and
    the sum is cut off at [-0.6] and at [0.6]. *)
Definition keyboardSteer (left right : bool) : Q :=
  if left then 0.6 else if right then -0.6 else 0.

Definition cutOff (lo hi x : Q) : Q :=
  if Qlt_le_dec x lo then lo else if Qlt_le_dec hi x then hi else x.

Definition steerInput_amended (left right : bool) (joystickX : Q) : Q :=
  cutOff (-0.6) 0.6 (keyboardSteer left right + -0.6 * joystickX).

(** C8 (amended): the steering input of a drive-mode tick is the keyboard
    term ([0.6] when left is held, otherwise [-0.6] when right is held,
    otherwise [0]) plus [-0.6] times the joystick's x axis, clamped to
    [[-0.6, 0.6]], and the steering is smoothed towards it.  With the
    joystick at [{x: 1, y: 0}] and the left key held the two terms cancel
    and the input is [0]; with the joystick at [{x: -1, y: 0}] and the left
    key held the input is the maximum [0.6], not the unclamped sum [1.2];
    with the joystick at rest the right key alone gives [-0.6] and no key
    gives [0]. *)
Theorem steerInput_clamped (host : Host) :
  (forall left right jx, -0.6 <= Loop.steerInput left right jx <= 0.6)
  /\ (forall right, Loop.steerInput true right 1 == 0)
  /\ (forall right,
        Loop.steerInput true right (-1) == 0.6 /\ 0.6 + -1 * -0.6 == 1.2)
  /\ (forall delta g s,
        steering (sim (Loop.drive delta g s))
        = Js.lerp (steering (sim s))
            (Loop.steerInput (Loop.isLeft s) (Loop.isRight s)
               (Store.joystickState (store s)).1) (delta * 5))
  /\ (forall left right jx,
        Loop.steerInput left right jx == steerInput_amended left right jx)
  /\ (Loop.steerInput false true 0 == -0.6
      /\ Loop.steerInput false false 0 == 0
      /\ Loop.steerInput false true 1 == -0.6
      /\ Loop.steerInput false true (-1) == 0).
Proof.
  split; [|split; [|split; [|split; [|split]]]].
  - intros left right jx. unfold Loop.steerInput. apply clamp_bounds. lra.
  - intros right. reflexivity.
  - intros right. split; reflexivity.
  - intros delta g s. reflexivity.
  - intros left right jx.
    unfold Loop.steerInput, steerInput_amended, cutOff, keyboardSteer.
    set (k := if left then 0.6 else if right then -0.6 else 0).
    destruct (Math_min_cases 0.6 (k + jx * -0.6)) as [[H1 E1]|[H1 E1]];
      rewrite E1;
      match goal with |- Js.Math_max ?a ?b == _ =>
        destruct (Math_max_cases a b) as [[H2 E2]|[H2 E2]]; rewrite E2
      end;
      destruct (Qlt_le_dec (k + -0.6 * jx) (-0.6));
      try destruct (Qlt_le_dec 0.6 (k + -0.6 * jx)); lra.
  - repeat split; reflexivity.
Qed.

(** * Further properties of the store *)

(** X1: with at least one vehicle in the fleet, [setCarIndex(i)] never
    leaves the store without an active vehicle: [activeCar()] is the
    vehicle at index [i] when [i] is an index of the fleet and the first
    vehicle for every other [i]; the stored [activeCarIndex] is [i] itself
    in both cases (it is not normalised), and the fleet is untouched. *)
Theorem setCarIndex_activeCar (i : Z) (s : Store.t) :
  fleet (Store.config s) ≠ [] ->
  let s' := Store.setCarIndex i s in
  (exists car, Store.activeCar s' = Some car /\ car ∈ fleet (Store.config s))
  /\ ((0 <= i < Z.of_nat (length (fleet (Store.config s))))%Z ->
      Store.activeCar s' = fleet (Store.config s) !! Z.to_nat i)
  /\ (~ (0 <= i < Z.of_nat (length (fleet (Store.config s))))%Z ->
      Store.activeCar s' = head (fleet (Store.config s)))
  /\ activeCarIndex (Store.config s') = i
  /\ fleet (Store.config s') = fleet (Store.config s).
Proof.
  intros Hne. cbv zeta.
  assert (Hf : fleet (Store.config (Store.setCarIndex i s))
               = fleet (Store.config s)) by reflexivity.
  assert (Hi : activeCarIndex (Store.config (Store.setCarIndex i s)) = i)
    by reflexivity.
  split.
  { destruct (activeCar_nonempty (Store.setCarIndex i s)) as (car & E & Hin & _).
    - rewrite Hf. exact Hne.
    - exists car. rewrite Hf in Hin. auto. }
  split.
  { intros Hr. unfold Store.activeCar. rewrite Hf, Hi. unfold Js.index.
    destruct (i <? 0)%Z eqn:El; [apply Z.ltb_lt in El; lia|].
    destruct (fleet (Store.config s) !! Z.to_nat i) eqn:E; [reflexivity|].
    apply lookup_ge_None in E. lia. }
  split; [|split; [exact Hi|exact Hf]].
  intros Hr. unfold Store.activeCar. rewrite Hf, Hi, index_0_head.
  unfold Js.index.
  destruct (i <? 0)%Z eqn:El; [reflexivity|].
  apply Z.ltb_ge in El.
  rewrite (proj2 (lookup_ge_None (fleet (Store.config s)) (Z.to_nat i)));
    [reflexivity|lia].
Qed.

Lemma setCarIndex_activeCar_witness :
  let s := Store.initial defaultConfig in
  Store.activeCar (Store.setCarIndex 7 s) = head defaultFleet
  /\ Store.activeCar (Store.setCarIndex 2 s) = defaultFleet !! 2%nat.
Proof.
  cbv zeta.
  assert (Hne : fleet (Store.config (Store.initial defaultConfig)) ≠ [])
    by discriminate.
  split.
  - apply (setCarIndex_activeCar 7 (Store.initial defaultConfig) Hne).
    simpl. lia.
  - apply (setCarIndex_activeCar 2 (Store.initial defaultConfig) Hne).
    simpl. lia.
Defined.

(** The pending operations that a sequence of calls leaves, when no
    [decrementLoading] arrives while none is pending ([None] otherwise). *)
Fixpoint netLoading (ops : list Store.LoadingOp) (n : Z) : option Z :=
  match ops with
  | [] => Some n
  | Store.Increment :: ops' => netLoading ops' (n + 1)
  | Store.Decrement :: ops' =>
      if (0 <? n)%Z then netLoading ops' (n - 1) else None
  end.

Definition countOp (op : Store.LoadingOp) (ops : list Store.LoadingOp) : Z :=
  Z.of_nat
    (length
       (List.filter
          (fun o =>
             match o, op with
             | Store.Increment, Store.Increment => true
             | Store.Decrement, Store.Decrement => true
             | _, _ => false
             end) ops)).

Lemma netLoading_exact (ops : list Store.LoadingOp) (s : Store.t) (k : Z) :
  netLoading ops (Store.loadingCount s) = Some k ->
  Store.loadingCount (foldl Store.applyLoadingOp s ops) = k
  /\ k = (Store.loadingCount s + countOp Store.Increment ops
          - countOp Store.Decrement ops)%Z.
Proof.
  revert s k. induction ops as [|op ops IH]; intros s k H.
  - simpl in H. injection H as <-. unfold countOp. simpl. split; lia.
  - destruct op; simpl in H.
    + destruct (IH (Store.incrementLoading s) k) as [E1 E2].
      { destruct s; exact H. }
      split; [exact E1|]. rewrite E2. destruct s. unfold countOp. simpl.
      lia.
    + destruct (0 <? Store.loadingCount s)%Z eqn:Hp; [|discriminate].
      apply Z.ltb_lt in Hp.
      destruct (IH (Store.decrementLoading s) k) as [E1 E2].
      { destruct s as [c n i m j]. simpl in *.
        replace (Z.max 0 (n - 1)) with (n - 1)%Z by lia. exact H. }
      split; [exact E1|]. rewrite E2. destruct s as [c n i m j].
      unfold countOp. simpl in *. lia.
Qed.

(** X2: as long as every [decrementLoading] answers an operation that is
    still pending, the counter is exact: after the calls it equals the
    count before plus the number of increments minus the number of
    decrements, so it is back at its old value, and [isLoading()] false
    again from zero, once every started operation has finished. *)
Theorem loadingCount_exact_when_paired (ops : list Store.LoadingOp)
  (s : Store.t) (k : Z) :
  netLoading ops (Store.loadingCount s) = Some k ->
  let s' := foldl Store.applyLoadingOp s ops in
  Store.loadingCount s'
  = (Store.loadingCount s + countOp Store.Increment ops
     - countOp Store.Decrement ops)%Z
  /\ (countOp Store.Increment ops = countOp Store.Decrement ops ->
      Store.loadingCount s' = Store.loadingCount s
      /\ Store.isLoading s' = Store.isLoading s).
Proof.
  intros H. cbv zeta. destruct (netLoading_exact ops s k H) as [E1 E2].
  split; [congruence|].
  intros Hc. assert (E : Store.loadingCount (foldl Store.applyLoadingOp s ops)
                         = Store.loadingCount s) by lia.
  split; [exact E|]. unfold Store.isLoading. rewrite E. reflexivity.
Qed.

Lemma loadingCount_exact_when_paired_witness :
  let ops := [Store.Increment; Store.Increment; Store.Decrement;
              Store.Increment; Store.Decrement; Store.Decrement] in
  Store.loadingCount (foldl Store.applyLoadingOp (Store.initial defaultConfig) ops)
  = (0 + countOp Store.Increment ops - countOp Store.Decrement ops)%Z.
Proof.
  cbv zeta.
  refine (proj1 (loadingCount_exact_when_paired
                   [Store.Increment; Store.Increment; Store.Decrement;
                    Store.Increment; Store.Decrement; Store.Decrement]
                   (Store.initial defaultConfig) 0%Z _)).
  reflexivity.
Defined.

(** *** Environments and scene objects in the store *)

Lemma filter_env_fresh (id : string) (envs : list EnvironmentItem) :
  (forall e, e ∈ envs -> env_id e ≠ id) ->
  List.filter (fun e => negb (String.eqb (env_id e) id)) envs = envs.
Proof.
  induction envs as [|e envs IH]; intros H; [reflexivity|].
  simpl. destruct (String.eqb_spec (env_id e) id) as [E|E].
  - exfalso. apply (H e); [left|exact E].
  - simpl. rewrite IH; [reflexivity|]. intros e' He'. apply H. right. exact He'.
Qed.

Lemma filter_env_app (id : string) (l1 l2 : list EnvironmentItem) :
  List.filter (fun e => negb (String.eqb (env_id e) id)) (l1 ++ l2)
  = List.filter (fun e => negb (String.eqb (env_id e) id)) l1
    ++ List.filter (fun e => negb (String.eqb (env_id e) id)) l2.
Proof. apply List.filter_app. Qed.

Lemma find_env_fresh (id : option string) (envs : list EnvironmentItem) :
  (forall e, e ∈ envs -> Some (env_id e) ≠ id) ->
  List.find (fun e => bool_decide (Some (env_id e) = id)) envs = None.
Proof.
  induction envs as [|e envs IH]; intros H; [reflexivity|].
  simpl. rewrite bool_decide_eq_false_2 by (apply H; left).
  apply IH. intros e' He'. apply H. right. exact He'.
Qed.

Lemma find_app_None {A : Type} (f : A -> bool) (l1 l2 : list A) :
  List.find f l1 = None -> List.find f (l1 ++ l2) = List.find f l2.
Proof.
  induction l1 as [|x l1 IH]; intros H; [reflexivity|].
  simpl in *. destruct (f x); [discriminate|]. apply IH, H.
Qed.

(** X3: an environment added under an id that no environment has yet
    becomes the active environment (it is what [activeEnvironment()]
    finds); removing it again restores the list of environments, but not
    the environment that was active before: the active id becomes the id
    of the first environment of the list, or [null]. *)
Theorem addEnvironment_then_remove (env : EnvironmentItem) (s : Store.t) :
  (forall e, e ∈ environments (Store.config s) -> env_id e ≠ env_id env) ->
  let s1 := Store.addEnvironment env s in
  let s2 := Store.removeEnvironment (env_id env) s1 in
  environments (Store.config s1) = environments (Store.config s) ++ [env]
  /\ Store.activeEnvironment s1 = Some env
  /\ environments (Store.config s2) = environments (Store.config s)
  /\ activeEnvironmentId (Store.config s2)
     = Js.or_null (env_id <$> head (environments (Store.config s))).
Proof.
  intros Hfresh. cbv zeta. destruct s as [c n i m j]. simpl.
  split; [reflexivity|]. split.
  { unfold Store.activeEnvironment. simpl.
    rewrite find_app_None.
    - simpl. rewrite bool_decide_eq_true_2 by reflexivity. reflexivity.
    - apply find_env_fresh.
      intros e He E. injection E as E. exact (Hfresh e He E). }
  rewrite filter_env_app, filter_env_fresh by exact Hfresh.
  simpl. rewrite String.eqb_refl. simpl. rewrite app_nil_r.
  split; [reflexivity|].
  rewrite bool_decide_eq_true_2 by reflexivity.
  rewrite index_0_head. reflexivity.
Qed.

Definition hall : EnvironmentItem :=
  mkEnvironmentItem "env-1" "Hall" "hall.glb" "asset-1" 1 (mkVec3 0 0 0).

Definition yard : EnvironmentItem :=
  mkEnvironmentItem "env-2" "Yard" "yard.glb" "asset-2" 2 (mkVec3 0 0 (-5)).

Lemma addEnvironment_then_remove_witness :
  let s := Store.addEnvironment yard
             (Store.addEnvironment hall (Store.initial defaultConfig)) in
  let fresh :=
    mkEnvironmentItem "env-3" "Dock" "dock.glb" "asset-3" 1 (mkVec3 1 0 0) in
  activeEnvironmentId (Store.config s) = Some "env-2"
  /\ activeEnvironmentId
       (Store.config
          (Store.removeEnvironment "env-3" (Store.addEnvironment fresh s)))
     = Some "env-1".
Proof.
  cbv zeta. split; [reflexivity|].
  refine (proj2 (proj2 (proj2
    (addEnvironment_then_remove
       (mkEnvironmentItem "env-3" "Dock" "dock.glb" "asset-3" 1 (mkVec3 1 0 0))
       (Store.addEnvironment yard
          (Store.addEnvironment hall (Store.initial defaultConfig))) _)))).
  intros e He. simpl in He.
  apply elem_of_cons in He as [->|He]; [discriminate|].
  apply elem_of_cons in He as [->|He]; [discriminate|].
  apply elem_of_nil in He. destruct He.
Defined.

Lemma filter_env_twice (id : string) (envs : list EnvironmentItem) :
  List.filter (fun e => negb (String.eqb (env_id e) id))
    (List.filter (fun e => negb (String.eqb (env_id e) id)) envs)
  = List.filter (fun e => negb (String.eqb (env_id e) id)) envs.
Proof.
  apply filter_env_fresh. intros e He.
  apply list_elem_of_In, List.filter_In in He as [_ He].
  destruct (String.eqb_spec (env_id e) id); [discriminate|assumption].
Qed.

(** X4: removing an environment is idempotent: a second
    [removeEnvironment(id)] changes nothing, neither the list nor the
    active id that the first removal chose. *)
Theorem removeEnvironment_idempotent (id : string) (s : Store.t) :
  Store.removeEnvironment id (Store.removeEnvironment id s)
  = Store.removeEnvironment id s.
Proof.
  destruct s as [c n i m j]. unfold Store.removeEnvironment, Store.set_config.
  simpl. f_equal. rewrite filter_env_twice. f_equal.
  destruct (bool_decide (activeEnvironmentId c = Some id)) eqn:Ha.
  - rewrite index_0_head.
    destruct (head (List.filter _ (environments c))) as [e|] eqn:Hh; simpl.
    + assert (He : env_id e ≠ id).
      { apply head_Some_elem_of, list_elem_of_In, List.filter_In in Hh
          as [_ Hh].
        destruct (String.eqb_spec (env_id e) id); [discriminate|assumption]. }
      destruct (Js.truthy (env_id e)).
      * rewrite bool_decide_eq_false_2; [reflexivity|]. congruence.
      * reflexivity.
    + reflexivity.
  - rewrite Ha. reflexivity.
Qed.

Lemma filter_obj_fresh (id : string) (objs : list SceneObject) :
  (forall o, o ∈ objs -> so_id o ≠ id) ->
  List.filter (fun o => negb (String.eqb (so_id o) id)) objs = objs.
Proof.
  induction objs as [|o objs IH]; intros H; [reflexivity|].
  simpl. destruct (String.eqb_spec (so_id o) id) as [E|E].
  - exfalso. apply (H o); [left|exact E].
  - simpl. rewrite IH; [reflexivity|]. intros o' Ho'. apply H. right. exact Ho'.
Qed.

(** X5: [removeSceneObject] undoes [addSceneObject]: adding an object
    under an id that no scene object has and removing that id again gives
    back the very same store; and removing an id that no scene object has
    changes nothing. *)
Theorem addSceneObject_then_remove (obj : SceneObject) (s : Store.t) :
  (forall o, o ∈ sceneObjects (Store.config s) -> so_id o ≠ so_id obj) ->
  Store.removeSceneObject (so_id obj) (Store.addSceneObject obj s) = s
  /\ Store.removeSceneObject (so_id obj) s = s.
Proof.
  intros Hfresh. destruct s as [[secs idx fl envs act objs] n i m j].
  unfold Store.removeSceneObject, Store.addSceneObject, Store.set_config.
  simpl in *. rewrite List.filter_app, filter_obj_fresh by exact Hfresh.
  simpl. rewrite String.eqb_refl. simpl. rewrite app_nil_r.
  split; reflexivity.
Qed.

Definition crate : SceneObject :=
  mkSceneObject "obj-1" "Crate" "crate.glb" (mkVec3 1 0 2) (mkVec3 0 0 0)
    (mkVec3 1 1 1).

Lemma addSceneObject_then_remove_witness :
  Store.removeSceneObject "obj-1"
    (Store.addSceneObject crate (Store.initial defaultConfig))
  = Store.initial defaultConfig.
Proof.
  refine (proj1 (addSceneObject_then_remove crate
                   (Store.initial defaultConfig) _)).
  intros o Ho. simpl in Ho. apply elem_of_nil in Ho. destruct Ho.
Defined.

(** * Further properties of the entity synchroniser *)

(** ** Scene objects *)

Lemma loadSceneObject_map (o : SceneObject) (s : Service) :
  sceneObjectMap (Sync.loadSceneObject o s)
  = <[so_id o := fresh (dom (heap s))]> (sceneObjectMap s).
Proof. reflexivity. Qed.

Lemma loadSceneObject_pending (o : SceneObject) (s : Service) :
  pending (Sync.loadSceneObject o s)
  = pending s ++ [ObjLoad o (fresh (dom (heap s)))].
Proof. reflexivity. Qed.

Lemma removeSceneObjectGroups_lookup (newIds ids : list string) (s : Service)
  (id : string) :
  sceneObjectMap (foldl (Sync.removeSceneObjectGroup newIds) s ids) !! id
  = if bool_decide (id ∈ ids /\ id ∉ newIds) then None
    else sceneObjectMap s !! id.
Proof.
  revert s. induction ids as [|a ids IH]; intros s.
  - cbn [foldl]. rewrite bool_decide_eq_false_2; [reflexivity|].
    intros [H _]. apply elem_of_nil in H. exact H.
  - cbn [foldl]. rewrite IH. unfold Sync.removeSceneObjectGroup.
    destruct (decide (a ∈ newIds)) as [Ha|Ha].
    + rewrite (bool_decide_eq_true_2 _ Ha).
      destruct (decide (id ∈ ids /\ id ∉ newIds)) as [H|H];
        destruct (decide (id ∈ a :: ids /\ id ∉ newIds)) as [H'|H'];
        rewrite ?(bool_decide_eq_true_2 _ H), ?(bool_decide_eq_false_2 _ H),
          ?(bool_decide_eq_true_2 _ H'), ?(bool_decide_eq_false_2 _ H');
        try reflexivity; exfalso; set_solver.
    + rewrite (bool_decide_eq_false_2 _ Ha).
      assert (E : sceneObjectMap
          (with_sceneObjectMap
             (delete a
                (sceneObjectMap
                   match sceneObjectMap s !! a with
                   | Some obj =>
                       with_heap
                         (Obj.remove sceneObjectsGroup obj (heap s)) s
                   | None => s
                   end))
             match sceneObjectMap s !! a with
             | Some obj =>
                 with_heap (Obj.remove sceneObjectsGroup obj (heap s)) s
             | None => s
             end) = delete a (sceneObjectMap s)).
      { destruct (sceneObjectMap s !! a); reflexivity. }
      rewrite E.
      destruct (decide (id ∈ ids /\ id ∉ newIds)) as [H|H];
        destruct (decide (id ∈ a :: ids /\ id ∉ newIds)) as [H'|H'];
        rewrite ?(bool_decide_eq_true_2 _ H), ?(bool_decide_eq_false_2 _ H),
          ?(bool_decide_eq_true_2 _ H'), ?(bool_decide_eq_false_2 _ H');
        try reflexivity.
      * exfalso; set_solver.
      * destruct (decide (id = a)) as [->|Hne].
        -- apply lookup_delete_eq.
        -- exfalso. set_solver.
      * destruct (decide (id = a)) as [->|Hne].
        -- exfalso. apply H'. split; [left|exact Ha].
        -- apply lookup_delete_ne. congruence.
Qed.

Lemma syncSceneObject_dom (s : Service) (o : SceneObject) :
  dom (sceneObjectMap (Sync.syncSceneObject s o))
  = dom (sceneObjectMap s) ∪ {[so_id o]}.
Proof.
  unfold Sync.syncSceneObject.
  destruct (sceneObjectMap s !! so_id o) as [g|] eqn:Eg.
  - assert (Hin : so_id o ∈ dom (sceneObjectMap s))
      by (apply elem_of_dom; eauto).
    case_bool_decide.
    + rewrite loadSceneObject_map. simpl.
      rewrite dom_insert_L, dom_delete_L.
      apply set_eq. intros x. destruct (decide (x = so_id o)); set_solver.
    + simpl. set_solver.
  - rewrite loadSceneObject_map, dom_insert_L. set_solver.
Qed.

Lemma syncSceneObject_fold_dom (objects : list SceneObject) (s : Service) :
  dom (sceneObjectMap (foldl Sync.syncSceneObject s objects))
  = dom (sceneObjectMap s) ∪ list_to_set (so_id <$> objects).
Proof.
  revert s. induction objects as [|o objects IH]; intros s.
  - simpl. set_solver.
  - cbn [foldl]. rewrite IH, syncSceneObject_dom. simpl. set_solver.
Qed.

Lemma syncSceneObjects_live_ids_holds (objects : list SceneObject) (s : Service) :
  dom (sceneObjectMap (Sync.syncSceneObjects objects s))
  = list_to_set (so_id <$> objects).
Proof.
  unfold Sync.syncSceneObjects. rewrite syncSceneObject_fold_dom.
  apply set_eq. intros id. rewrite elem_of_union, elem_of_dom.
  rewrite removeSceneObjectGroups_lookup.
  rewrite elem_of_list_to_set.
  split; [|auto]. intros [[g Hg]|H]; [|exact H].
  case_bool_decide as Hc; [discriminate|].
  destruct (decide (id ∈ so_id <$> objects)) as [Hi|Hi]; [exact Hi|].
  exfalso. apply Hc. split; [|exact Hi].
  apply elem_of_elements, elem_of_dom. eauto.
Qed.

(** X6: after [syncSceneObjects], whatever the service held before, the
    ids of [sceneObjectMap] are exactly the ids of the configured scene
    objects (an object without a URL gets its group like any other). *)
Theorem syncSceneObjects_live_ids (objects : list SceneObject) (s : Service) :
  dom (sceneObjectMap (Sync.syncSceneObjects objects s))
  = list_to_set (so_id <$> objects).
Proof.
  exact (syncSceneObjects_live_ids_holds objects s).
Qed.

(** *** What synchronisation never touches: the URL recorded on a group *)

(** Every object of [h] is still an object of [h'], with the same recorded
    URLs in its [userData]. *)
Definition keepsUserData (h h' : Heap) : Prop :=
  forall g o, h !! g = Some o ->
    exists o', h' !! g = Some o' /\ ud_url o' = ud_url o
               /\ ud_modelUrl o' = ud_modelUrl o.

Lemma keepsUserData_refl (h : Heap) : keepsUserData h h.
Proof. intros g o H. eauto. Qed.

Lemma keepsUserData_trans (h1 h2 h3 : Heap) :
  keepsUserData h1 h2 -> keepsUserData h2 h3 -> keepsUserData h1 h3.
Proof.
  intros H12 H23 g o H.
  destruct (H12 g o H) as (o2 & E2 & U2 & M2).
  destruct (H23 g o2 E2) as (o3 & E3 & U3 & M3).
  exists o3. split; [exact E3|]. split; congruence.
Qed.

Lemma keepsUserData_alter (f : Object3D -> Object3D) (g : nat) (h : Heap) :
  (forall o, ud_url (f o) = ud_url o /\ ud_modelUrl (f o) = ud_modelUrl o) ->
  keepsUserData h (alter f g h).
Proof.
  intros Hf g' o H. destruct (decide (g = g')) as [->|Hne].
  - exists (f o). rewrite lookup_alter_eq, H. split; [reflexivity|apply Hf].
  - exists o. rewrite lookup_alter_ne by exact Hne. auto.
Qed.

Lemma keepsUserData_insert (r : nat) (x : Object3D) (h : Heap) :
  (forall o, h !! r = Some o ->
     ud_url x = ud_url o /\ ud_modelUrl x = ud_modelUrl o) ->
  keepsUserData h (<[r := x]> h).
Proof.
  intros Hx g o H. destruct (decide (r = g)) as [->|Hne].
  - exists x. rewrite lookup_insert_eq. split; [reflexivity|apply Hx, H].
  - exists o. rewrite lookup_insert_ne by exact Hne. auto.
Qed.

Lemma keepsUserData_alloc (x : Object3D) (h : Heap) :
  keepsUserData h (Obj.alloc x h).2.
Proof.
  apply keepsUserData_insert. intros o H. exfalso.
  apply (is_fresh (dom h)), elem_of_dom. eauto.
Qed.

Lemma keepsUserData_remove (p c : nat) (h : Heap) :
  keepsUserData h (Obj.remove p c h).
Proof.
  unfold Obj.remove. destruct (h !! p) as [op|] eqn:Ep;
    [|apply keepsUserData_refl].
  case_bool_decide; [|apply keepsUserData_refl].
  apply (keepsUserData_trans h
           (<[p := set_children (Obj.remove_first c (o_children op)) op]> h)).
  - apply keepsUserData_insert. intros o Ho.
    assert (o = op) as -> by congruence. split; reflexivity.
  - apply keepsUserData_alter. intros o. split; reflexivity.
Qed.

Lemma keepsUserData_add (p c : nat) (h : Heap) :
  keepsUserData h (Obj.add p c h).
Proof.
  unfold Obj.add. case_bool_decide; [apply keepsUserData_refl|].
  set (h1 := match h !! c ≫= o_parent with
             | Some q => Obj.remove q c h
             | None => h
             end).
  apply (keepsUserData_trans h h1).
  { unfold h1. destruct (h !! c ≫= o_parent);
      [apply keepsUserData_remove|apply keepsUserData_refl]. }
  apply (keepsUserData_trans h1
           (alter (fun q => set_children (o_children q ++ [c]) q) p h1)).
  - apply keepsUserData_alter. intros o. split; reflexivity.
  - apply keepsUserData_alter. intros o. split; reflexivity.
Qed.

Lemma keepsUserData_fresh (h h' : Heap) (g : nat) :
  keepsUserData h h' -> is_Some (h !! g) -> g ≠ fresh (dom h').
Proof.
  intros Hk [o Ho] E. destruct (Hk g o Ho) as (o' & Ho' & _).
  apply (is_fresh (dom h')). rewrite <- E. apply elem_of_dom. eauto.
Qed.

Lemma keepsUserData_url (h h' : Heap) (g : nat) :
  keepsUserData h h' -> is_Some (h !! g) ->
  is_Some (h' !! g)
  /\ h' !! g ≫= ud_url = h !! g ≫= ud_url
  /\ h' !! g ≫= ud_modelUrl = h !! g ≫= ud_modelUrl.
Proof.
  intros Hk [o Ho]. destruct (Hk g o Ho) as (o' & Ho' & U & M).
  rewrite Ho, Ho'. simpl. eauto.
Qed.

Lemma applySceneObjectTransform_keeps (o : SceneObject) (g : nat)
  (s : Service) :
  keepsUserData (heap s) (heap (Sync.applySceneObjectTransform o g s)).
Proof. apply keepsUserData_alter. intros x. split; reflexivity. Qed.

Lemma loadSceneObject_keeps (o : SceneObject) (s : Service) :
  keepsUserData (heap s) (heap (Sync.loadSceneObject o s)).
Proof.
  unfold Sync.loadSceneObject. simpl.
  set (h1 := (Obj.alloc
                (set_ud_url (Some (so_url o))
                   (set_name (so_id o) (newObject KGroup))) (heap s)).2).
  apply (keepsUserData_trans (heap s) h1); [apply keepsUserData_alloc|].
  eapply keepsUserData_trans; [|apply keepsUserData_add].
  apply keepsUserData_alter. intros x. split; reflexivity.
Qed.

Lemma syncSceneObject_keeps (s : Service) (o : SceneObject) :
  keepsUserData (heap s) (heap (Sync.syncSceneObject s o)).
Proof.
  unfold Sync.syncSceneObject.
  destruct (sceneObjectMap s !! so_id o) as [g|].
  - case_bool_decide.
    + eapply keepsUserData_trans; [|apply loadSceneObject_keeps].
      apply keepsUserData_remove.
    + apply applySceneObjectTransform_keeps.
  - apply loadSceneObject_keeps.
Qed.

Lemma removeSceneObjectGroup_keeps (newIds : list string) (s : Service)
  (id : string) :
  keepsUserData (heap s) (heap (Sync.removeSceneObjectGroup newIds s id))
  /\ pending (Sync.removeSceneObjectGroup newIds s id) = pending s
  /\ store (Sync.removeSceneObjectGroup newIds s id) = store s.
Proof.
  unfold Sync.removeSceneObjectGroup. case_bool_decide.
  - split; [apply keepsUserData_refl|auto].
  - destruct (sceneObjectMap s !! id); simpl.
    + split; [apply keepsUserData_remove|auto].
    + split; [apply keepsUserData_refl|auto].
Qed.

Lemma removeSceneObjectGroups_keeps (newIds ids : list string) (s : Service) :
  keepsUserData (heap s)
    (heap (foldl (Sync.removeSceneObjectGroup newIds) s ids))
  /\ pending (foldl (Sync.removeSceneObjectGroup newIds) s ids) = pending s
  /\ store (foldl (Sync.removeSceneObjectGroup newIds) s ids) = store s.
Proof.
  revert s. induction ids as [|a ids IH]; intros s.
  - split; [apply keepsUserData_refl|auto].
  - cbn [foldl].
    destruct (IH (Sync.removeSceneObjectGroup newIds s a)) as (K & P & S).
    destruct (removeSceneObjectGroup_keeps newIds s a) as (K' & P' & S').
    split; [eapply keepsUserData_trans; eassumption|].
    split; congruence.
Qed.

Lemma syncSceneObject_fold_keeps (objects : list SceneObject) (s : Service) :
  keepsUserData (heap s) (heap (foldl Sync.syncSceneObject s objects)).
Proof.
  revert s. induction objects as [|o objects IH]; intros s;
    [apply keepsUserData_refl|].
  cbn [foldl]. eapply keepsUserData_trans; [apply syncSceneObject_keeps|].
  apply IH.
Qed.

(** One entry of the second loop leaves a live group [g] in place unless the
    entry names its id with another URL; a load is never started on [g]. *)
Lemma syncSceneObject_retains (s : Service) (o : SceneObject) (id : string)
  (g : nat) (u : string) :
  sceneObjectMap s !! id = Some g ->
  heap s !! g ≫= ud_url = Some u ->
  (so_id o = id -> so_url o = u) ->
  let s' := Sync.syncSceneObject s o in
  sceneObjectMap s' !! id = Some g
  /\ (forall d, ObjLoad d g ∈ pending s' -> ObjLoad d g ∈ pending s).
Proof.
  intros Hg Hu Ho. cbv zeta.
  assert (Hsome : is_Some (heap s !! g)).
  { destruct (heap s !! g); [eauto|discriminate]. }
  unfold Sync.syncSceneObject.
  destruct (decide (so_id o = id)) as [E|Hne].
  - subst id. rewrite Hg, (Ho eq_refl).
    rewrite bool_decide_eq_false_2 by (intros H; exact (H Hu)).
    split; [exact Hg|]. intros d H. exact H.
  - assert (Hload : forall t,
      sceneObjectMap t !! id = Some g -> is_Some (heap t !! g) ->
      sceneObjectMap (Sync.loadSceneObject o t) !! id = Some g
      /\ (forall d, ObjLoad d g ∈ pending (Sync.loadSceneObject o t) ->
                    ObjLoad d g ∈ pending t)).
    { intros t Ht Hs. rewrite loadSceneObject_map, loadSceneObject_pending.
      rewrite lookup_insert_ne by exact Hne. split; [exact Ht|].
      intros d Hd. apply elem_of_app in Hd as [Hd|Hd]; [exact Hd|].
      apply list_elem_of_singleton in Hd. injection Hd as _ Hd.
      exfalso. apply (is_fresh (dom (heap t))). rewrite <- Hd.
      apply elem_of_dom, Hs. }
    destruct (sceneObjectMap s !! so_id o) as [g2|] eqn:E2.
    + case_bool_decide.
      * set (t := with_sceneObjectMap _ _).
        destruct (Hload t) as [A B]; [| |split; [exact A|exact B]].
        -- simpl. rewrite lookup_delete_ne by exact Hne. exact Hg.
        -- simpl.
           apply (keepsUserData_url _ _ g
                    (keepsUserData_remove sceneObjectsGroup g2 (heap s))
                    Hsome).
      * split; [exact Hg|]. intros d H'. exact H'.
    + apply Hload; assumption.
Qed.

Lemma syncSceneObjects_unchanged_url_keeps_group_holds
  (objects : list SceneObject) (s : Service) (id : string) (g : nat)
  (u : string) :
  sceneObjectMap s !! id = Some g ->
  heap s !! g ≫= ud_url = Some u ->
  id ∈ so_id <$> objects ->
  (forall o, o ∈ objects -> so_id o = id -> so_url o = u) ->
  let s' := Sync.syncSceneObjects objects s in
  sceneObjectMap s' !! id = Some g
  /\ heap s' !! g ≫= ud_url = Some u
  /\ (forall d, ObjLoad d g ∈ pending s' -> ObjLoad d g ∈ pending s).
Proof.
  intros Hg Hu Hid Hurl. cbv zeta. unfold Sync.syncSceneObjects.
  set (s1 := foldl (Sync.removeSceneObjectGroup (so_id <$> objects)) s
               (elements (dom (sceneObjectMap s)))).
  assert (Hsome : is_Some (heap s !! g)).
  { destruct (heap s !! g); [eauto|discriminate]. }
  destruct (removeSceneObjectGroups_keeps (so_id <$> objects)
              (elements (dom (sceneObjectMap s))) s) as (K1 & P1 & _).
  fold s1 in K1, P1.
  assert (Hg1 : sceneObjectMap s1 !! id = Some g).
  { unfold s1. rewrite removeSceneObjectGroups_lookup.
    rewrite bool_decide_eq_false_2; [exact Hg|]. intros [_ H]. exact (H Hid). }
  destruct (keepsUserData_url _ _ g K1 Hsome) as (_ & Hu1 & _).
  rewrite Hu in Hu1. rewrite <- P1. clear K1 P1 Hg Hu Hsome Hid.
  revert Hg1 Hu1 Hurl. generalize s1. clear s1 s.
  induction objects as [|o objects IH]; intros s Hg Hu Hurl.
  - simpl. auto.
  - cbn [foldl].
    destruct (syncSceneObject_retains s o id g u Hg Hu) as [Hg' Hp'].
    { apply Hurl. left. }
    assert (Hsome : is_Some (heap s !! g)).
    { destruct (heap s !! g); [eauto|discriminate]. }
    destruct (keepsUserData_url _ _ g (syncSceneObject_keeps s o) Hsome)
      as (_ & Hu' & _).
    rewrite Hu in Hu'.
    destruct (IH (Sync.syncSceneObject s o) Hg' Hu') as (R1 & R2 & R3).
    { intros o' Ho'. apply Hurl. right. exact Ho'. }
    split; [exact R1|]. split; [exact R2|]. intros d Hd. apply Hp', R3, Hd.
Qed.

(** X7: a scene object that is live, and that the configuration names
    again with the URL recorded on its group, keeps that group through
    [syncSceneObjects]: the same object stays registered under its id, the
    URL recorded on it is unchanged, and no load is started on it. *)
Theorem syncSceneObjects_unchanged_url_keeps_group
  (objects : list SceneObject) (s : Service) (id : string) (g : nat)
  (u : string) :
  sceneObjectMap s !! id = Some g ->
  heap s !! g ≫= ud_url = Some u ->
  id ∈ so_id <$> objects ->
  (forall o, o ∈ objects -> so_id o = id -> so_url o = u) ->
  let s' := Sync.syncSceneObjects objects s in
  sceneObjectMap s' !! id = Some g
  /\ heap s' !! g ≫= ud_url = Some u
  /\ (forall d, ObjLoad d g ∈ pending s' -> ObjLoad d g ∈ pending s).
Proof.
  exact (syncSceneObjects_unchanged_url_keeps_group_holds objects s id g u).
Qed.

Lemma loadSceneObject_records_url (o : SceneObject) (s : Service) :
  heap (Sync.loadSceneObject o s) !! fresh (dom (heap s)) ≫= ud_url
  = Some (so_url o).
Proof.
  set (r := fresh (dom (heap s))).
  set (h2 := heap (Sync.applySceneObjectTransform o r
                     (with_heap
                        (<[r := set_ud_url (Some (so_url o))
                                 (set_name (so_id o) (newObject KGroup))]>
                           (heap s)) s))).
  change (heap (Sync.loadSceneObject o s))
    with (Obj.add sceneObjectsGroup r h2).
  assert (E2 : h2 !! r ≫= ud_url = Some (so_url o)).
  { unfold h2, Sync.applySceneObjectTransform. simpl.
    rewrite lookup_alter_eq, lookup_insert_eq. reflexivity. }
  assert (S2 : is_Some (h2 !! r)).
  { destruct (h2 !! r); [eauto|discriminate]. }
  destruct (keepsUserData_url _ _ r
              (keepsUserData_add sceneObjectsGroup r h2) S2) as (_ & U & _).
  rewrite U. exact E2.
Qed.

Lemma syncSceneObject_changed_url_reloads_holds (s : Service) (o : SceneObject)
  (g : nat) :
  sceneObjectMap s !! so_id o = Some g ->
  is_Some (heap s !! g) ->
  heap s !! g ≫= ud_url ≠ Some (so_url o) ->
  let s' := Sync.syncSceneObject s o in
  exists r,
    sceneObjectMap s' !! so_id o = Some r
    /\ heap s !! r = None /\ r ≠ g
    /\ heap s' !! r ≫= ud_url = Some (so_url o)
    /\ pending s' = pending s ++ [ObjLoad o r]
    /\ Store.loadingCount (store s')
       = (Store.loadingCount (store s) + 1)%Z.
Proof.
  intros Hg Hsome Hu. cbv zeta. unfold Sync.syncSceneObject. rewrite Hg.
  rewrite bool_decide_eq_true_2 by exact Hu.
  set (s1 := with_sceneObjectMap _ _).
  set (r := fresh (dom (heap s1))).
  exists r.
  assert (K : keepsUserData (heap s) (heap s1))
    by apply keepsUserData_remove.
  assert (Hr : heap s !! r = None).
  { destruct (heap s !! r) as [x|] eqn:E; [|reflexivity].
    destruct (K _ _ E) as (x' & E' & _). exfalso.
    apply (is_fresh (dom (heap s1))), elem_of_dom. fold r. eauto. }
  split; [rewrite loadSceneObject_map; apply lookup_insert_eq|].
  split; [exact Hr|].
  split.
  { intros E. rewrite E in Hr. rewrite Hr in Hsome.
    destruct Hsome; discriminate. }
  split.
  { apply loadSceneObject_records_url. }
  split; [reflexivity|].
  destruct s as [[c n i m j] hp som eom cm mm ccp ugc pd au sm]. reflexivity.
Qed.

(** X8: a live scene object whose configured URL differs from the URL
    recorded on its group is reloaded by its entry of the second loop: a
    new group, which is none of the objects that existed, is registered
    under the id with the new URL recorded on it, one load for it is
    appended to the loads in flight, and the counter of pending operations
    goes up by one. *)
Theorem syncSceneObject_changed_url_reloads (s : Service) (o : SceneObject)
  (g : nat) :
  sceneObjectMap s !! so_id o = Some g ->
  is_Some (heap s !! g) ->
  heap s !! g ≫= ud_url ≠ Some (so_url o) ->
  let s' := Sync.syncSceneObject s o in
  exists r,
    sceneObjectMap s' !! so_id o = Some r
    /\ heap s !! r = None /\ r ≠ g
    /\ heap s' !! r ≫= ud_url = Some (so_url o)
    /\ pending s' = pending s ++ [ObjLoad o r]
    /\ Store.loadingCount (store s')
       = (Store.loadingCount (store s) + 1)%Z.
Proof.
  exact (syncSceneObject_changed_url_reloads_holds s o g).
Qed.

Definition crateV2 : SceneObject :=
  mkSceneObject "obj-1" "Crate" "crate-v2.glb" (mkVec3 1 0 2) (mkVec3 0 0 0)
    (mkVec3 1 1 1).

(** The service after the first synchronisation of one scene object. *)
Definition crateShown : Service :=
  Sync.syncSceneObjects [crate]
    (initialService (Store.initial defaultConfig)).

Lemma syncSceneObjects_unchanged_url_keeps_group_witness :
  sceneObjectMap crateShown !! "obj-1" = Some 7%nat
  /\ sceneObjectMap
       (Sync.syncSceneObjects
          [mkSceneObject "obj-1" "Crate" "crate.glb" (mkVec3 4 0 4)
             (mkVec3 0 1 0) (mkVec3 2 2 2)] crateShown) !! "obj-1"
     = Some 7%nat.
Proof.
  split; [reflexivity|].
  refine (proj1 (syncSceneObjects_unchanged_url_keeps_group
    [mkSceneObject "obj-1" "Crate" "crate.glb" (mkVec3 4 0 4)
       (mkVec3 0 1 0) (mkVec3 2 2 2)] crateShown "obj-1" 7%nat "crate.glb"
    _ _ _ _)).
  - reflexivity.
  - reflexivity.
  - apply list_elem_of_singleton. reflexivity.
  - intros o Ho _. apply list_elem_of_singleton in Ho. subst o. reflexivity.
Defined.

Lemma syncSceneObject_changed_url_reloads_witness :
  exists r,
    sceneObjectMap (Sync.syncSceneObject crateShown crateV2) !! "obj-1"
    = Some r
    /\ r ≠ 7%nat.
Proof.
  destruct (syncSceneObject_changed_url_reloads crateShown crateV2 7%nat)
    as (r & H1 & _ & H3 & _).
  - reflexivity.
  - vm_compute. eauto.
  - vm_compute. discriminate.
  - exists r. split; assumption.
Defined.

(** ** Environments *)

Lemma removeEnvironmentAnchors_lookup (newIds ids : list string) (s : Service)
  (id : string) :
  envObjectMap (foldl (Sync.removeEnvironmentAnchor newIds) s ids) !! id
  = if bool_decide (id ∈ ids /\ id ∉ newIds) then None
    else envObjectMap s !! id.
Proof.
  revert s. induction ids as [|a ids IH]; intros s.
  - cbn [foldl]. rewrite bool_decide_eq_false_2; [reflexivity|].
    intros [H _]. apply elem_of_nil in H. exact H.
  - cbn [foldl]. rewrite IH. unfold Sync.removeEnvironmentAnchor.
    destruct (decide (a ∈ newIds)) as [Ha|Ha].
    + rewrite (bool_decide_eq_true_2 _ Ha).
      destruct (decide (id ∈ ids /\ id ∉ newIds)) as [H|H];
        destruct (decide (id ∈ a :: ids /\ id ∉ newIds)) as [H'|H'];
        rewrite ?(bool_decide_eq_true_2 _ H), ?(bool_decide_eq_false_2 _ H),
          ?(bool_decide_eq_true_2 _ H'), ?(bool_decide_eq_false_2 _ H');
        try reflexivity; exfalso; set_solver.
    + rewrite (bool_decide_eq_false_2 _ Ha).
      assert (E : envObjectMap
          (with_envObjectMap
             (delete a
                (envObjectMap
                   match envObjectMap s !! a with
                   | Some obj =>
                       with_heap (Obj.remove wallModelGroup obj (heap s)) s
                   | None => s
                   end))
             match envObjectMap s !! a with
             | Some obj =>
                 with_heap (Obj.remove wallModelGroup obj (heap s)) s
             | None => s
             end) = delete a (envObjectMap s)).
      { destruct (envObjectMap s !! a); reflexivity. }
      rewrite E.
      destruct (decide (id ∈ ids /\ id ∉ newIds)) as [H|H];
        destruct (decide (id ∈ a :: ids /\ id ∉ newIds)) as [H'|H'];
        rewrite ?(bool_decide_eq_true_2 _ H), ?(bool_decide_eq_false_2 _ H),
          ?(bool_decide_eq_true_2 _ H'), ?(bool_decide_eq_false_2 _ H');
        try reflexivity.
      * exfalso; set_solver.
      * destruct (decide (id = a)) as [->|Hne].
        -- apply lookup_delete_eq.
        -- exfalso. set_solver.
      * destruct (decide (id = a)) as [->|Hne].
        -- exfalso. apply H'. split; [left|exact Ha].
        -- apply lookup_delete_ne. congruence.
Qed.

Lemma removeEnvironmentAnchors_pending (newIds ids : list string)
  (s : Service) :
  pending (foldl (Sync.removeEnvironmentAnchor newIds) s ids) = pending s
  /\ store (foldl (Sync.removeEnvironmentAnchor newIds) s ids) = store s.
Proof.
  revert s. induction ids as [|a ids IH]; intros s; [auto|].
  cbn [foldl]. destruct (IH (Sync.removeEnvironmentAnchor newIds s a))
    as [P S].
  rewrite P, S. unfold Sync.removeEnvironmentAnchor.
  case_bool_decide; [auto|]. destruct (envObjectMap s !! a); auto.
Qed.

Lemma loadEnvironmentModel_map (env : EnvironmentItem) (s : Service) :
  envObjectMap (Sync.loadEnvironmentModel env s)
  = if Js.truthy (env_url env)
    then <[env_id env := fresh (dom (heap s))]> (envObjectMap s)
    else envObjectMap s.
Proof.
  unfold Sync.loadEnvironmentModel. destruct (Js.truthy (env_url env));
    reflexivity.
Qed.

Lemma loadEnvironmentModel_pending (env : EnvironmentItem) (s : Service) :
  pending (Sync.loadEnvironmentModel env s)
  = if Js.truthy (env_url env)
    then pending s ++ [EnvLoad env (fresh (dom (heap s)))]
    else pending s.
Proof.
  unfold Sync.loadEnvironmentModel. destruct (Js.truthy (env_url env));
    reflexivity.
Qed.

(** The ids of the entries that have a URL. *)
Definition loadableIds (envs : list EnvironmentItem) : list string :=
  env_id <$> List.filter (fun e => Js.truthy (env_url e)) envs.

Lemma syncEnvironment_dom (s : Service) (env : EnvironmentItem) :
  dom (envObjectMap (Sync.syncEnvironment s env))
  = dom (envObjectMap s) ∪ list_to_set (loadableIds [env]).
Proof.
  unfold Sync.syncEnvironment, loadableIds.
  destruct (envObjectMap s !! env_id env) as [g|] eqn:Eg.
  - assert (Hin : env_id env ∈ dom (envObjectMap s))
      by (apply elem_of_dom; eauto).
    simpl. destruct (Js.truthy (env_url env)); simpl; set_solver.
  - rewrite loadEnvironmentModel_map. simpl.
    destruct (Js.truthy (env_url env)); simpl.
    + rewrite dom_insert_L. set_solver.
    + set_solver.
Qed.

Lemma loadableIds_cons (env : EnvironmentItem) (envs : list EnvironmentItem) :
  loadableIds (env :: envs) = loadableIds [env] ++ loadableIds envs.
Proof.
  unfold loadableIds. simpl. destruct (Js.truthy (env_url env)); reflexivity.
Qed.

Lemma syncEnvironment_fold_dom (envs : list EnvironmentItem) (s : Service) :
  dom (envObjectMap (foldl Sync.syncEnvironment s envs))
  = dom (envObjectMap s) ∪ list_to_set (loadableIds envs).
Proof.
  revert s. induction envs as [|e envs IH]; intros s.
  - simpl. set_solver.
  - cbn [foldl]. rewrite IH, syncEnvironment_dom, (loadableIds_cons e envs).
    rewrite list_to_set_app_L. set_solver.
Qed.

Lemma elem_of_loadableIds (id : string) (envs : list EnvironmentItem) :
  id ∈ loadableIds envs
  <-> exists e, e ∈ envs /\ env_id e = id /\ env_url e ≠ "".
Proof.
  unfold loadableIds. rewrite list_elem_of_fmap. split.
  - intros (e & -> & He). apply list_elem_of_In, List.filter_In in He
      as [He Ht]. exists e. split; [apply list_elem_of_In, He|].
    split; [reflexivity|]. unfold Js.truthy in Ht.
    destruct (String.eqb_spec (env_url e) ""); [discriminate|assumption].
  - intros (e & He & <- & Hu). exists e. split; [reflexivity|].
    apply list_elem_of_In, List.filter_In. split; [apply list_elem_of_In, He|].
    unfold Js.truthy. destruct (String.eqb_spec (env_url e) "");
      [contradiction|reflexivity].
Qed.

Lemma syncEnvironments_live_ids_holds (envs : list EnvironmentItem) (s : Service)
  (id : string) :
  id ∈ dom (envObjectMap (Sync.syncEnvironments envs s))
  <-> id ∈ env_id <$> envs
      /\ (id ∈ dom (envObjectMap s)
          \/ exists e, e ∈ envs /\ env_id e = id /\ env_url e ≠ "").
Proof.
  unfold Sync.syncEnvironments. rewrite syncEnvironment_fold_dom.
  rewrite elem_of_union, elem_of_list_to_set, elem_of_loadableIds.
  rewrite !elem_of_dom, removeEnvironmentAnchors_lookup.
  split.
  - intros [[g Hg]|(e & He & Hid & Hu)].
    + case_bool_decide as Hc; [discriminate|].
      destruct (decide (id ∈ env_id <$> envs)) as [Hi|Hi].
      * split; [exact Hi|]. left. eauto.
      * exfalso. apply Hc. split; [|exact Hi].
        apply elem_of_elements, elem_of_dom. eauto.
    + split; [|right; eauto]. subst id. apply list_elem_of_fmap. eauto.
  - intros [Hi [[g Hg]|H]]; [|right; exact H].
    left. exists g. rewrite bool_decide_eq_false_2; [exact Hg|].
    intros [_ Hn]. exact (Hn Hi).
Qed.

(** X9: after [syncEnvironments], an id is live exactly when it is
    configured and either was live before or belongs to an entry with a
    non-empty URL: an environment without a URL never gets an anchor, an
    anchor that is live stays live as long as its id is configured, and
    every id that is no longer configured is dropped. *)
Theorem syncEnvironments_live_ids (envs : list EnvironmentItem) (s : Service)
  (id : string) :
  id ∈ dom (envObjectMap (Sync.syncEnvironments envs s))
  <-> id ∈ env_id <$> envs
      /\ (id ∈ dom (envObjectMap s)
          \/ exists e, e ∈ envs /\ env_id e = id /\ env_url e ≠ "").
Proof.
  exact (syncEnvironments_live_ids_holds envs s id).
Qed.

Lemma syncEnvironment_retains (s : Service) (env : EnvironmentItem)
  (id : string) (g : nat) :
  envObjectMap s !! id = Some g ->
  is_Some (heap s !! g) ->
  let s' := Sync.syncEnvironment s env in
  envObjectMap s' !! id = Some g
  /\ is_Some (heap s' !! g)
  /\ (forall d, EnvLoad d g ∈ pending s' -> EnvLoad d g ∈ pending s)
  /\ (forall d a, EnvLoad d a ∈ pending s' -> env_id d = id ->
                  EnvLoad d a ∈ pending s).
Proof.
  intros Hg Hsome. cbv zeta. unfold Sync.syncEnvironment.
  destruct (decide (env_id env = id)) as [E|Hne].
  - subst id. rewrite Hg. split; [exact Hg|]. split; [|auto].
    unfold Sync.applyEnvironmentTransform. simpl.
    destruct Hsome as [x Hx]. rewrite lookup_alter_eq, Hx. simpl. eauto.
  - destruct (envObjectMap s !! env_id env) as [g2|] eqn:E2.
    + split; [exact Hg|]. split; [|auto].
      unfold Sync.applyEnvironmentTransform. simpl.
      destruct Hsome as [x Hx]. destruct (decide (g2 = g)) as [->|Hgg].
      * rewrite lookup_alter_eq, Hx. simpl. eauto.
      * rewrite lookup_alter_ne by exact Hgg. eauto.
    + rewrite loadEnvironmentModel_map, loadEnvironmentModel_pending.
      unfold Sync.loadEnvironmentModel.
      destruct (Js.truthy (env_url env)); [|auto].
      rewrite lookup_insert_ne by exact Hne.
      split; [exact Hg|].
      assert (Hfg : fresh (dom (heap s)) ≠ g).
      { intros E. apply (is_fresh (dom (heap s))). rewrite E.
        apply elem_of_dom, Hsome. }
      split.
      { simpl.
        set (h1 := alter _ _ _).
        destruct (keepsUserData_url _ _ g
                    (keepsUserData_add wallModelGroup (fresh (dom (heap s))) h1))
          as (R & _); [|exact R].
        unfold h1. rewrite lookup_alter_ne, lookup_insert_ne by exact Hfg.
        exact Hsome. }
      split.
      * intros d Hd. apply elem_of_app in Hd as [Hd|Hd]; [exact Hd|].
        apply list_elem_of_singleton in Hd. injection Hd as _ Hd.
        exfalso. apply Hfg. symmetry. exact Hd.
      * intros d a Hd Hid. apply elem_of_app in Hd as [Hd|Hd]; [exact Hd|].
        apply list_elem_of_singleton in Hd. injection Hd as Hd _.
        subst d. contradiction.
Qed.

Lemma removeEnvironmentAnchors_heap (newIds ids : list string) (s : Service)
  (g : nat) :
  is_Some (heap s !! g) ->
  is_Some (heap (foldl (Sync.removeEnvironmentAnchor newIds) s ids) !! g).
Proof.
  revert s. induction ids as [|a ids IH]; intros s Hs; [exact Hs|].
  cbn [foldl]. apply IH. unfold Sync.removeEnvironmentAnchor.
  case_bool_decide; [exact Hs|].
  destruct (envObjectMap s !! a) as [n|]; simpl; [|exact Hs].
  apply (keepsUserData_url _ _ g
           (keepsUserData_remove wallModelGroup n (heap s)) Hs).
Qed.

Lemma syncEnvironments_never_reloads_live_holds (envs : list EnvironmentItem)
  (s : Service) (id : string) (g : nat) :
  envObjectMap s !! id = Some g ->
  is_Some (heap s !! g) ->
  id ∈ env_id <$> envs ->
  let s' := Sync.syncEnvironments envs s in
  envObjectMap s' !! id = Some g
  /\ (forall d a, EnvLoad d a ∈ pending s' -> env_id d = id ->
                  EnvLoad d a ∈ pending s).
Proof.
  intros Hg Hsome Hid. cbv zeta. unfold Sync.syncEnvironments.
  set (s1 := foldl (Sync.removeEnvironmentAnchor (env_id <$> envs)) s
               (elements (dom (envObjectMap s)))).
  assert (Hg1 : envObjectMap s1 !! id = Some g).
  { unfold s1. rewrite removeEnvironmentAnchors_lookup.
    rewrite bool_decide_eq_false_2; [exact Hg|]. intros [_ H]. exact (H Hid). }
  assert (Hs1 : is_Some (heap s1 !! g))
    by apply removeEnvironmentAnchors_heap, Hsome.
  destruct (removeEnvironmentAnchors_pending (env_id <$> envs)
              (elements (dom (envObjectMap s))) s) as [P1 _].
  fold s1 in P1. rewrite <- P1. clear P1 Hg Hsome Hid.
  revert Hg1 Hs1. generalize s1. clear s1 s.
  induction envs as [|e envs IH]; intros s Hg Hs.
  - simpl. auto.
  - cbn [foldl].
    destruct (syncEnvironment_retains s e id g Hg Hs) as (Hg' & Hs' & _ & Hp').
    destruct (IH (Sync.syncEnvironment s e) Hg' Hs') as [R1 R2].
    split; [exact R1|]. intros d a Hd Hi. apply Hp'; [|exact Hi].
    apply R2; assumption.
Qed.

(** X10: [syncEnvironments] never replaces the anchor of an environment
    that is live and still configured, whatever URL the configuration now
    gives it: the same anchor stays registered under the id, and no load is
    started for the id (there is no comparison with the previous URL, as
    the scene objects and the vehicles have). *)
Theorem syncEnvironments_never_reloads_live (envs : list EnvironmentItem)
  (s : Service) (id : string) (g : nat) :
  envObjectMap s !! id = Some g ->
  is_Some (heap s !! g) ->
  id ∈ env_id <$> envs ->
  let s' := Sync.syncEnvironments envs s in
  envObjectMap s' !! id = Some g
  /\ (forall d a, EnvLoad d a ∈ pending s' -> env_id d = id ->
                  EnvLoad d a ∈ pending s).
Proof.
  exact (syncEnvironments_never_reloads_live_holds envs s id g).
Qed.

Definition hallV2 : EnvironmentItem :=
  mkEnvironmentItem "env-1" "Hall" "hall-v2.glb" "asset-9" 3 (mkVec3 0 1 0).

(** The service after the first synchronisation of one environment. *)
Definition hallShown : Service :=
  Sync.syncEnvironments [hall] (initialService (Store.initial defaultConfig)).

Lemma syncEnvironments_never_reloads_live_witness :
  envObjectMap hallShown !! "env-1" = Some 7%nat
  /\ envObjectMap (Sync.syncEnvironments [hallV2] hallShown) !! "env-1"
     = Some 7%nat.
Proof.
  split; [reflexivity|].
  refine (proj1 (syncEnvironments_never_reloads_live [hallV2] hallShown
                   "env-1" 7%nat _ _ _)).
  - reflexivity.
  - vm_compute. eauto.
  - apply list_elem_of_singleton. reflexivity.
Defined.

(** ** Completions that arrive late *)

Lemma late_completion_is_discarded_holds (s : Service) :
  (forall envs env anchor model,
     env_id env ∉ env_id <$> envs ->
     let s1 := Sync.syncEnvironments envs s in
     Sync.onEnvironmentLoaded env anchor model s1
     = with_store (Store.decrementLoading (store s1)) s1)
  /\ (forall objects objData group model,
        so_id objData ∉ so_id <$> objects ->
        let s1 := Sync.syncSceneObjects objects s in
        Sync.onSceneObjectLoaded objData group model s1
        = with_store (Store.decrementLoading (store s1)) s1).
Proof.
  split.
  - intros envs env anchor model Hid. cbv zeta.
    unfold Sync.onEnvironmentLoaded.
    rewrite bool_decide_eq_false_2; [reflexivity|].
    intros Hs. apply elem_of_dom, syncEnvironments_live_ids_holds in Hs as [Hs _].
    exact (Hid Hs).
  - intros objects objData group model Hid. cbv zeta.
    unfold Sync.onSceneObjectLoaded.
    rewrite bool_decide_eq_false_2; [reflexivity|].
    intros Hs. apply elem_of_dom in Hs.
    rewrite syncSceneObjects_live_ids_holds, elem_of_list_to_set in Hs.
    exact (Hid Hs).
Qed.

(** X11: when the load of an environment or of a scene object completes
    after a synchronisation that dropped its id, the completion only
    settles the counter of pending operations: the heap of scene objects,
    the three live maps, the loads in flight and the part classification
    are what they were. *)
Theorem late_completion_is_discarded (s : Service) :
  (forall envs env anchor model,
     env_id env ∉ env_id <$> envs ->
     let s1 := Sync.syncEnvironments envs s in
     Sync.onEnvironmentLoaded env anchor model s1
     = with_store (Store.decrementLoading (store s1)) s1)
  /\ (forall objects objData group model,
        so_id objData ∉ so_id <$> objects ->
        let s1 := Sync.syncSceneObjects objects s in
        Sync.onSceneObjectLoaded objData group model s1
        = with_store (Store.decrementLoading (store s1)) s1).
Proof.
  exact (late_completion_is_discarded_holds s).
Qed.

(** ** Loads in flight and the loading counter *)

(** [s'] has started [n] loads more than [s], each counted once. *)
Definition startedLoads (s s' : Service) (n : nat) : Prop :=
  length (pending s') = (length (pending s) + n)%nat
  /\ Store.loadingCount (store s')
     = (Store.loadingCount (store s) + Z.of_nat n)%Z
  /\ Store.config (store s') = Store.config (store s).

Lemma startedLoads_refl (s : Service) : startedLoads s s 0.
Proof. unfold startedLoads. split; [lia|]. split; [lia|reflexivity]. Qed.

Lemma startedLoads_trans (s1 s2 s3 : Service) (n m : nat) :
  startedLoads s1 s2 n -> startedLoads s2 s3 m -> startedLoads s1 s3 (n + m).
Proof.
  unfold startedLoads. intros (A1 & A2 & A3) (B1 & B2 & B3).
  split; [lia|]. split; [lia|congruence].
Qed.

Lemma incrementLoading_count (st : Store.t) :
  Store.loadingCount (Store.incrementLoading st)
  = (Store.loadingCount st + 1)%Z
  /\ Store.config (Store.incrementLoading st) = Store.config st.
Proof. destruct st. split; reflexivity. Qed.

Lemma loadSceneObject_started (o : SceneObject) (s : Service) :
  startedLoads s (Sync.loadSceneObject o s) 1.
Proof.
  unfold startedLoads. rewrite loadSceneObject_pending, length_app.
  simpl. split; [lia|]. apply incrementLoading_count.
Qed.

Lemma syncSceneObject_started (s : Service) (o : SceneObject) :
  exists n, startedLoads s (Sync.syncSceneObject s o) n.
Proof.
  unfold Sync.syncSceneObject.
  destruct (sceneObjectMap s !! so_id o).
  - destruct (bool_decide _).
    + exists 1%nat. apply (loadSceneObject_started o
        (with_sceneObjectMap _ (with_heap _ s))).
    + exists 0%nat. unfold startedLoads. simpl.
      split; [lia|]. split; [lia|reflexivity].
  - exists 1%nat. apply loadSceneObject_started.
Qed.

Lemma syncEnvironment_started (s : Service) (e : EnvironmentItem) :
  exists n, startedLoads s (Sync.syncEnvironment s e) n.
Proof.
  unfold Sync.syncEnvironment.
  destruct (envObjectMap s !! env_id e).
  - exists 0%nat. unfold startedLoads. simpl.
    split; [lia|]. split; [lia|reflexivity].
  - unfold Sync.loadEnvironmentModel. destruct (Js.truthy (env_url e)); simpl.
    + exists 1%nat. unfold startedLoads. simpl. rewrite length_app. simpl.
      split; [lia|]. apply incrementLoading_count.
    + exists 0%nat. apply startedLoads_refl.
Qed.

(** X12: a synchronisation of the scene objects or of the environments
    counts every load it starts exactly once: the counter of pending
    operations grows by the number of loads added to the loads in flight,
    and the configuration is not touched; each completion, successful or
    not, live or late, takes one off again. *)
Theorem sync_counts_each_load_once (s : Service) :
  (forall objects, exists n,
     startedLoads s (Sync.syncSceneObjects objects s) n)
  /\ (forall envs, exists n, startedLoads s (Sync.syncEnvironments envs s) n)
  /\ (forall env anchor model,
        Store.loadingCount (store (Sync.onEnvironmentLoaded env anchor model s))
        = Z.max 0 (Store.loadingCount (store s) - 1)
        /\ Store.loadingCount (store (Sync.onEnvironmentFailed s))
           = Z.max 0 (Store.loadingCount (store s) - 1))
  /\ (forall objData group model,
        Store.loadingCount
          (store (Sync.onSceneObjectLoaded objData group model s))
        = Z.max 0 (Store.loadingCount (store s) - 1)
        /\ Store.loadingCount (store (Sync.onSceneObjectFailed s))
           = Z.max 0 (Store.loadingCount (store s) - 1)).
Proof.
  split; [|split; [|split]].
  - intros objects. unfold Sync.syncSceneObjects.
    destruct (removeSceneObjectGroups_keeps (so_id <$> objects)
                (elements (dom (sceneObjectMap s))) s) as (_ & P & S).
    set (s1 := foldl (Sync.removeSceneObjectGroup _) s _) in *.
    assert (H0 : startedLoads s s1 0).
    { unfold startedLoads. rewrite P, S. split; [lia|]. split; [lia|auto]. }
    clearbody s1. clear P S. revert s1 H0. generalize 0%nat.
    induction objects as [|o objects IH]; intros n s1 H0.
    + exists n. exact H0.
    + cbn [foldl]. destruct (syncSceneObject_started s1 o) as [m Hm].
      apply (IH (n + m)%nat). eapply startedLoads_trans; eassumption.
  - intros envs. unfold Sync.syncEnvironments.
    destruct (removeEnvironmentAnchors_pending (env_id <$> envs)
                (elements (dom (envObjectMap s))) s) as (P & S).
    set (s1 := foldl (Sync.removeEnvironmentAnchor _) s _) in *.
    assert (H0 : startedLoads s s1 0).
    { unfold startedLoads. rewrite P, S. split; [lia|]. split; [lia|auto]. }
    clearbody s1. clear P S. revert s1 H0. generalize 0%nat.
    induction envs as [|e envs IH]; intros n s1 H0.
    + exists n. exact H0.
    + cbn [foldl]. destruct (syncEnvironment_started s1 e) as [m Hm].
      apply (IH (n + m)%nat). eapply startedLoads_trans; eassumption.
  - intros env anchor model. unfold Sync.onEnvironmentLoaded,
      Sync.onEnvironmentFailed. case_bool_decide; split; reflexivity.
  - intros objData group model. unfold Sync.onSceneObjectLoaded,
      Sync.onSceneObjectFailed. case_bool_decide; split; reflexivity.
Qed.

(** * Further properties of the fleet *)

(** What the part analysis and the construction of a procedural car leave
    alone: the store, the live maps and the loads in flight. *)
Definition sameRegistry (s s' : Service) : Prop :=
  store s' = store s /\ carMap s' = carMap s
  /\ envObjectMap s' = envObjectMap s
  /\ sceneObjectMap s' = sceneObjectMap s
  /\ pending s' = pending s /\ audio s' = audio s /\ sim s' = sim s.

Lemma sameRegistry_refl (s : Service) : sameRegistry s s.
Proof. repeat split. Qed.

Lemma sameRegistry_trans (s1 s2 s3 : Service) :
  sameRegistry s1 s2 -> sameRegistry s2 s3 -> sameRegistry s1 s3.
Proof.
  unfold sameRegistry. intros (A1 & A2 & A3 & A4 & A5 & A6 & A7)
    (B1 & B2 & B3 & B4 & B5 & B6 & B7).
  repeat split; congruence.
Qed.

Lemma sameRegistry_fold {A : Type} (f : Service -> A -> Service)
  (l : list A) (s : Service) :
  (forall t x, sameRegistry t (f t x)) -> sameRegistry s (foldl f s l).
Proof.
  intros Hf. revert s. induction l as [|x l IH]; intros s;
    [apply sameRegistry_refl|].
  cbn [foldl]. eapply sameRegistry_trans; [apply Hf|apply IH].
Qed.

Section FleetFacts.
Context {host : Host}.

Lemma analyzePart_registry (group : nat) (center size : Vec3)
  (thresholdY : option Q) (frontZ : Q) (s : Service) (obj : nat) :
  sameRegistry s (Fleet.analyzePart group center size thresholdY frontZ s obj)
  /\ materialsMap (Fleet.analyzePart group center size thresholdY frontZ s obj)
     = materialsMap s.
Proof.
  unfold Fleet.analyzePart.
  repeat match goal with
         | |- context [match ?x with _ => _ end] => destruct x
         end; split; repeat split.
Qed.

Lemma analyzeCarStructure_registry (group : nat) (s : Service) :
  sameRegistry s (Fleet.analyzeCarStructure group s)
  /\ materialsMap (Fleet.analyzeCarStructure group s) = materialsMap s.
Proof.
  unfold Fleet.analyzeCarStructure.
  set (s0 := with_currentCarParams emptyCarParams s).
  set (f := Fleet.analyzePart _ _ _ _ _).
  assert (H : forall l t, sameRegistry t (foldl f t l)
                          /\ materialsMap (foldl f t l) = materialsMap t).
  { induction l as [|x l IH]; intros t; [split; [repeat split|reflexivity]|].
    cbn [foldl]. destruct (IH (f t x)) as [A B].
    destruct (analyzePart_registry group (getCenter (Box3_setFromObject (heap s0) group))
                (getSize (Box3_setFromObject (heap s0) group))
                match Box3_setFromObject (heap s0) group with
                | Some (lo, _) =>
                    Some (vy lo + vy (getSize (Box3_setFromObject (heap s0) group)) * 0.35)
                | None => None
                end
                (vz (getCenter (Box3_setFromObject (heap s0) group))
                 + vz (getSize (Box3_setFromObject (heap s0) group)) * 0.25)
                t x) as [C D].
    split; [eapply sameRegistry_trans; [exact C|exact A]|].
    rewrite B. exact D. }
  destruct (H (Obj.subtree (heap s0) group) s0) as [A B].
  split.
  - destruct A as (A1 & A2 & A3 & A4 & A5 & A6 & A7). repeat split; assumption.
  - exact B.
Qed.

End FleetFacts.

Section FleetSync.
Context {host : Host}.

Lemma analyzePart_keeps (group : nat) (center size : Vec3)
  (thresholdY : option Q) (frontZ : Q) (s : Service) (obj : nat) :
  keepsUserData (heap s)
    (heap (Fleet.analyzePart group center size thresholdY frontZ s obj)).
Proof.
  unfold Fleet.analyzePart.
  repeat match goal with
         | |- context [match ?x with _ => _ end] => destruct x
         end;
    first [apply keepsUserData_refl
          |apply keepsUserData_alter; intros x; split; reflexivity].
Qed.

Lemma analyzeParts_keeps (group : nat) (center size : Vec3)
  (thresholdY : option Q) (frontZ : Q) (l : list nat) (t : Service) :
  keepsUserData (heap t)
    (heap (foldl (Fleet.analyzePart group center size thresholdY frontZ) t l)).
Proof.
  revert t. induction l as [|x l IH]; intros t; [apply keepsUserData_refl|].
  cbn [foldl]. eapply keepsUserData_trans; [apply analyzePart_keeps|apply IH].
Qed.

Lemma analyzeCarStructure_keeps (group : nat) (s : Service) :
  keepsUserData (heap s) (heap (Fleet.analyzeCarStructure group s)).
Proof.
  unfold Fleet.analyzeCarStructure.
  exact (analyzeParts_keeps _ _ _ _ _ _
           (with_currentCarParams emptyCarParams s)).
Qed.

Definition paintOf (c : CarConfig) : CarMaterials :=
  mkCarMaterials (car_color c) (car_metalness c) (car_roughness c).

Lemma getOrCreateMaterials_registry (id : string) (s : Service) :
  sameRegistry s (Fleet.getOrCreateMaterials id s).2
  /\ heap (Fleet.getOrCreateMaterials id s).2 = heap s
  /\ is_Some (materialsMap (Fleet.getOrCreateMaterials id s).2 !! id)
  /\ (is_Some (materialsMap s !! id) ->
      (Fleet.getOrCreateMaterials id s).2 = s).
Proof.
  unfold Fleet.getOrCreateMaterials.
  destruct (materialsMap s !! id) as [m|] eqn:E; simpl.
  - rewrite E. repeat split; eauto.
  - rewrite lookup_insert_eq. repeat split; eauto.
    intros [x Hx]. discriminate.
Qed.

Lemma addNew_registry (parent : nat) (o : Object3D) (s : Service) :
  sameRegistry s (Fleet.addNew parent o s).2
  /\ materialsMap (Fleet.addNew parent o s).2 = materialsMap s
  /\ keepsUserData (heap s) (heap (Fleet.addNew parent o s).2).
Proof.
  unfold Fleet.addNew. simpl. repeat split.
  eapply keepsUserData_trans; [|apply keepsUserData_add].
  apply (keepsUserData_alloc o).
Qed.

Lemma proceduralWheel_registry (group : nat) (s : Service) (pos : Vec3) :
  sameRegistry s (Fleet.proceduralWheel group s pos)
  /\ materialsMap (Fleet.proceduralWheel group s pos) = materialsMap s
  /\ keepsUserData (heap s) (heap (Fleet.proceduralWheel group s pos)).
Proof.
  unfold Fleet.proceduralWheel. simpl. repeat split.
  set (x1 := set_position pos (newObject KGroup)).
  set (h1 := (Obj.alloc x1 (heap s)).2).
  set (x2 := set_name "procedural_wheel" _).
  set (h2 := (Obj.alloc x2 h1).2).
  apply (keepsUserData_trans (heap s) h1); [apply keepsUserData_alloc|].
  apply (keepsUserData_trans h1 h2); [apply keepsUserData_alloc|].
  eapply keepsUserData_trans; [apply keepsUserData_add|].
  eapply keepsUserData_trans; [|apply keepsUserData_add].
  apply keepsUserData_alter. intros x. split; reflexivity.
Qed.

Lemma proceduralWheels_registry (group : nat) (l : list Vec3) (t : Service) :
  sameRegistry t (foldl (Fleet.proceduralWheel group) t l)
  /\ materialsMap (foldl (Fleet.proceduralWheel group) t l) = materialsMap t
  /\ keepsUserData (heap t) (heap (foldl (Fleet.proceduralWheel group) t l)).
Proof.
  revert t. induction l as [|x l IH]; intros t.
  - split; [apply sameRegistry_refl|]. split; [reflexivity|].
    apply keepsUserData_refl.
  - cbn [foldl].
    destruct (IH (Fleet.proceduralWheel group t x)) as (A & B & C).
    destruct (proceduralWheel_registry group t x) as (A' & B' & C').
    split; [eapply sameRegistry_trans; eassumption|].
    split; [congruence|]. eapply keepsUserData_trans; eassumption.
Qed.

Lemma buildProceduralCar_registry (group : nat) (c : CarConfig)
  (s : Service) :
  sameRegistry s (Fleet.buildProceduralCar group c s)
  /\ keepsUserData (heap s) (heap (Fleet.buildProceduralCar group c s))
  /\ (is_Some (materialsMap s !! car_id c) ->
      materialsMap (Fleet.buildProceduralCar group c s) = materialsMap s).
Proof.
  unfold Fleet.buildProceduralCar.
  destruct (getOrCreateMaterials_registry (car_id c) s) as (R0 & H0 & _ & M0).
  destruct (Fleet.getOrCreateMaterials (car_id c) s) as [m0 s0].
  cbn [snd] in R0, H0, M0. cbv beta iota zeta.
  set (o1 := set_ud_origPos _ _).
  destruct (addNew_registry group o1 s0) as (R1 & M1 & K1).
  destruct (Fleet.addNew group o1 s0) as [r1 s1].
  cbn [snd] in R1, M1, K1. cbv beta iota zeta.
  set (o2 := set_ud_origPos _ _).
  destruct (addNew_registry group o2 s1) as (R2 & M2 & K2).
  destruct (Fleet.addNew group o2 s1) as [r2 s2].
  cbn [snd] in R2, M2, K2. cbv beta iota zeta.
  match goal with |- context [foldl _ s2 ?l] =>
    destruct (proceduralWheels_registry group l s2) as (R3 & M3 & K3) end.
  split.
  { eapply sameRegistry_trans; [exact R0|].
    eapply sameRegistry_trans; [exact R1|].
    eapply sameRegistry_trans; [exact R2|exact R3]. }
  split.
  { rewrite <- H0. eapply keepsUserData_trans; [exact K1|].
    eapply keepsUserData_trans; [exact K2|exact K3]. }
  intros Hm. rewrite M3, M2, M1, (M0 Hm). reflexivity.
Qed.

Lemma analyzeIfActive_spec (c : CarConfig) (g : nat) (s : Service)
  (a : CarConfig) :
  Store.activeCar (store s) = Some a ->
  exists s', Fleet.analyzeIfActive c g s = Js.Done s'
    /\ sameRegistry s s' /\ materialsMap s' = materialsMap s
    /\ keepsUserData (heap s) (heap s').
Proof.
  intros Ha. unfold Fleet.analyzeIfActive. rewrite Ha.
  destruct (String.eqb (car_id a) (car_id c)).
  - eexists. split; [reflexivity|].
    destruct (analyzeCarStructure_registry g s) as [R M].
    split; [exact R|]. split; [exact M|]. apply analyzeCarStructure_keeps.
  - exists s. split; [reflexivity|]. split; [apply sameRegistry_refl|].
    split; [reflexivity|apply keepsUserData_refl].
Qed.

Lemma createCarGroup_spec (c : CarConfig) (s : Service) (a : CarConfig) :
  Store.activeCar (store s) = Some a ->
  exists s', Fleet.createCarGroup c s = Js.Done s'
    /\ carMap s' = <[car_id c := fresh (dom (heap s))]> (carMap s)
    /\ Store.config (store s') = Store.config (store s)
    /\ keepsUserData (heap s) (heap s')
    /\ (is_Some (heap s' !! fresh (dom (heap s)))
        /\ heap s' !! fresh (dom (heap s)) ≫= ud_modelUrl = car_modelUrl c)
    /\ (is_Some (materialsMap s !! car_id c) ->
        materialsMap s' = materialsMap s)
    /\ pending s'
       = pending s
         ++ (if Js.truthy_opt (car_modelUrl c)
             then [CarLoad c (fresh (dom (heap s)))] else [])
    /\ Store.loadingCount (store s')
       = (Store.loadingCount (store s)
          + (if Js.truthy_opt (car_modelUrl c) then 1 else 0))%Z.
Proof.
  intros Ha. unfold Fleet.createCarGroup, Obj.alloc. cbv beta iota zeta.
  set (r := fresh (dom (heap s))).
  set (x := set_ud_modelUrl (car_modelUrl c)
              (set_name (car_id c) (newObject KGroup))).
  set (s1 := with_heap (Obj.add fleetGroup r _) _).
  assert (K1 : keepsUserData (heap s) (heap s1)).
  { apply (keepsUserData_trans (heap s) (<[r := x]> (heap s))).
    - apply (keepsUserData_alloc x).
    - apply keepsUserData_add. }
  assert (U1 : is_Some (heap s1 !! r)
               /\ heap s1 !! r ≫= ud_modelUrl = car_modelUrl c).
  { assert (S : is_Some ((<[r := x]> (heap s)) !! r))
      by (rewrite lookup_insert_eq; eauto).
    destruct (keepsUserData_url _ _ r
                (keepsUserData_add fleetGroup r (<[r := x]> (heap s))) S)
      as (S' & _ & M).
    split; [exact S'|].
    unfold s1. simpl. rewrite M, lookup_insert_eq. reflexivity. }
  destruct U1 as [S1 U1].
  destruct (Js.truthy_opt (car_modelUrl c)).
  - eexists. split; [reflexivity|]. simpl.
    split; [reflexivity|].
    split; [apply incrementLoading_count|].
    split; [exact K1|]. split; [split; [exact S1|exact U1]|].
    split; [reflexivity|].
    split; [reflexivity|apply incrementLoading_count].
  - destruct (buildProceduralCar_registry r c s1) as (Rb & Kb & Mb).
    set (sb := Fleet.buildProceduralCar r c s1) in *.
    assert (Hab : Store.activeCar (store sb) = Some a).
    { destruct Rb as (Rb & _). rewrite Rb. exact Ha. }
    destruct (analyzeIfActive_spec c r sb a Hab) as (s' & E & R & M & K).
    exists s'. split; [exact E|].
    destruct Rb as (B1 & B2 & B3 & B4 & B5 & B6 & B7).
    destruct R as (R1 & R2 & R3 & R4 & R5 & R6 & R7).
    split; [rewrite R2, B2; reflexivity|].
    split; [rewrite R1, B1; reflexivity|].
    assert (Ks : keepsUserData (heap s) (heap s')).
    { eapply keepsUserData_trans; [exact K1|].
      eapply keepsUserData_trans; [exact Kb|exact K]. }
    split; [exact Ks|].
    split.
    { destruct (keepsUserData_url _ _ r
                  (keepsUserData_trans _ _ _ Kb K) S1) as (S' & _ & U).
      split; [exact S'|]. rewrite U. exact U1. }
    split; [intros Hm; rewrite M; apply Mb; exact Hm|].
    split; [rewrite R5, B5, app_nil_r; reflexivity|].
    rewrite R1, B1. simpl. lia.
Qed.

Lemma syncCar_spec (c : CarConfig) (s : Service) (a : CarConfig) :
  Store.activeCar (store s) = Some a ->
  exists s', Fleet.syncCar c s = Js.Done s'
    /\ carMap s'
       = match carMap s !! car_id c with
         | Some _ => carMap s
         | None => <[car_id c := fresh (dom (heap s))]> (carMap s)
         end
    /\ materialsMap s' = <[car_id c := paintOf c]> (materialsMap s)
    /\ Store.config (store s') = Store.config (store s)
    /\ keepsUserData (heap s) (heap s')
    /\ (carMap s !! car_id c = None ->
        is_Some (heap s' !! fresh (dom (heap s)))
        /\ heap s' !! fresh (dom (heap s)) ≫= ud_modelUrl = car_modelUrl c
        /\ (Js.truthy_opt (car_modelUrl c) = true ->
            CarLoad c (fresh (dom (heap s))) ∈ pending s'))
    /\ (forall p, p ∈ pending s -> p ∈ pending s')
    /\ (forall d g, CarLoad d g ∈ pending s' ->
          CarLoad d g ∈ pending s
          \/ (carMap s !! car_id c = None /\ g = fresh (dom (heap s)))).
Proof.
  intros Ha. unfold Fleet.syncCar.
  destruct (getOrCreateMaterials_registry (car_id c) s) as (R0 & H0 & _ & _).
  destruct (Fleet.getOrCreateMaterials (car_id c) s) as [m0 s0] eqn:E0.
  cbn [snd] in R0, H0. cbv beta iota zeta.
  set (s1 := with_materialsMap _ s0).
  assert (M1 : materialsMap s1 = <[car_id c := paintOf c]> (materialsMap s)).
  { unfold s1. simpl. unfold Fleet.getOrCreateMaterials in E0.
    destruct (materialsMap s !! car_id c); injection E0 as _ <-;
      [reflexivity|]. simpl. apply insert_insert_eq. }
  destruct R0 as (B1 & B2 & B3 & B4 & B5 & B6 & B7).
  assert (C1 : carMap s1 = carMap s) by exact B2.
  assert (Hh : heap s1 = heap s) by exact H0.
  rewrite C1.
  destruct (carMap s !! car_id c) as [g|] eqn:Eg.
  - rewrite bool_decide_eq_true_2 by eauto.
    exists s1. split; [reflexivity|]. split; [exact C1|].
    split; [exact M1|]. split; [unfold s1; simpl; rewrite B1; reflexivity|].
    split; [rewrite Hh; apply keepsUserData_refl|].
    split; [discriminate|].
    split; [intros q Hq; unfold s1; simpl; rewrite B5; exact Hq|].
    intros d g' Hd. left. unfold s1 in Hd. simpl in Hd. rewrite B5 in Hd.
    exact Hd.
  - rewrite bool_decide_eq_false_2 by (intros [x Hx]; discriminate).
    assert (Ha1 : Store.activeCar (store s1) = Some a).
    { unfold s1. simpl. rewrite B1. exact Ha. }
    destruct (createCarGroup_spec c s1 a Ha1)
      as (s' & E & Cm & Cf & K & U & M & P & _).
    exists s'. split; [exact E|]. rewrite Hh in *.
    split; [rewrite Cm, C1; reflexivity|].
    split.
    { rewrite M; [exact M1|]. rewrite M1, lookup_insert_eq. eauto. }
    split; [rewrite Cf; unfold s1; simpl; rewrite B1; reflexivity|].
    split; [exact K|].
    assert (P1 : pending s1 = pending s) by exact B5.
    split.
    { intros _. destruct U as [U1 U2]. split; [exact U1|].
      split; [exact U2|]. intros Ht. rewrite P, Ht.
      apply elem_of_app. right. apply list_elem_of_singleton. reflexivity. }
    split.
    { intros q Hq. rewrite P, P1. apply elem_of_app. left. exact Hq. }
    intros d g' Hd. rewrite P in Hd. apply elem_of_app in Hd as [Hd|Hd].
    + left. unfold s1 in Hd. simpl in Hd. rewrite B5 in Hd. exact Hd.
    + right. split; [reflexivity|].
      destruct (Js.truthy_opt (car_modelUrl c)).
      * apply list_elem_of_singleton in Hd. injection Hd as _ Hd. exact Hd.
      * apply elem_of_nil in Hd. destruct Hd.
Qed.

Lemma activeCar_config (st st' : Store.t) :
  Store.config st' = Store.config st ->
  Store.activeCar st' = Store.activeCar st.
Proof. intros E. unfold Store.activeCar. rewrite E. reflexivity. Qed.

(** The paint parameters after the second loop, as a function of the
    fleet. *)
Definition paintAll (fleet : list CarConfig) (m : gmap string CarMaterials)
  : gmap string CarMaterials :=
  foldl (fun m c => <[car_id c := paintOf c]> m) m fleet.

Lemma forEach_syncCar_spec (fleet : list CarConfig) (s : Service)
  (a : CarConfig) :
  Store.activeCar (store s) = Some a ->
  exists s', forEach Fleet.syncCar fleet s = Js.Done s'
    /\ dom (carMap s') = dom (carMap s) ∪ list_to_set (car_id <$> fleet)
    /\ materialsMap s' = paintAll fleet (materialsMap s)
    /\ Store.config (store s') = Store.config (store s)
    /\ keepsUserData (heap s) (heap s')
    /\ (forall id g, carMap s !! id = Some g -> carMap s' !! id = Some g)
    /\ (forall p, p ∈ pending s -> p ∈ pending s')
    /\ (forall d g, CarLoad d g ∈ pending s' ->
          CarLoad d g ∈ pending s \/ heap s !! g = None).
Proof.
  revert s. induction fleet as [|c fleet IH]; intros s Ha.
  - exists s. split; [reflexivity|]. split; [simpl; set_solver|].
    split; [reflexivity|]. split; [reflexivity|].
    split; [apply keepsUserData_refl|]. split; [auto|]. split; auto.
  - cbn [forEach].
    destruct (syncCar_spec c s a Ha)
      as (s1 & E1 & C1 & M1 & F1 & K1 & _ & Q1 & P1).
    rewrite E1. cbn [andThen].
    assert (Ha1 : Store.activeCar (store s1) = Some a)
      by (rewrite (activeCar_config _ _ F1); exact Ha).
    destruct (IH s1 Ha1) as (s' & E & D & M & F & K & R & Q & P).
    exists s'. split; [exact E|].
    assert (Hfresh : heap s !! fresh (dom (heap s)) = None)
      by apply not_elem_of_dom, is_fresh.
    split.
    { rewrite D, C1. destruct (carMap s !! car_id c) as [g|] eqn:Eg.
      - assert (car_id c ∈ dom (carMap s)) by (apply elem_of_dom; eauto).
        simpl. set_solver.
      - rewrite dom_insert_L. simpl. set_solver. }
    split; [rewrite M, M1; reflexivity|].
    split; [congruence|].
    split; [eapply keepsUserData_trans; eassumption|].
    split.
    { intros id g Hg. apply R. rewrite C1.
      destruct (carMap s !! car_id c) as [g'|] eqn:Eg; [exact Hg|].
      rewrite lookup_insert_ne; [exact Hg|]. congruence. }
    split; [intros q Hq; apply Q, Q1, Hq|].
    intros d g Hd. destruct (P d g Hd) as [Hd1|Hn].
    + destruct (P1 d g Hd1) as [Hd0|[_ ->]]; [left; exact Hd0|right].
      exact Hfresh.
    + right. destruct (heap s !! g) as [x|] eqn:Ex; [|reflexivity].
      destruct (K1 g x Ex) as (x' & Ex' & _). congruence.
Qed.

Lemma removeStaleCar_frame (fleet : list CarConfig) (s : Service)
  (id : string) :
  store (Fleet.removeStaleCar fleet s id) = store s
  /\ pending (Fleet.removeStaleCar fleet s id) = pending s
  /\ keepsUserData (heap s) (heap (Fleet.removeStaleCar fleet s id)).
Proof.
  unfold Fleet.removeStaleCar.
  destruct (carMap s !! id) as [g|];
    [|split; [|split]; auto using keepsUserData_refl].
  match goal with |- context [if ?b then _ else _] => destruct b end.
  - simpl. split; [|split]; auto using keepsUserData_remove.
  - split; [|split]; auto using keepsUserData_refl.
Qed.

Lemma removeStaleCars_frame (fleet : list CarConfig) (ids : list string)
  (s : Service) :
  store (foldl (Fleet.removeStaleCar fleet) s ids) = store s
  /\ pending (foldl (Fleet.removeStaleCar fleet) s ids) = pending s
  /\ keepsUserData (heap s) (heap (foldl (Fleet.removeStaleCar fleet) s ids)).
Proof.
  revert s. induction ids as [|a ids IH]; intros s.
  - split; [|split]; auto using keepsUserData_refl.
  - cbn [foldl]. destruct (IH (Fleet.removeStaleCar fleet s a)) as (A & B & C).
    destruct (removeStaleCar_frame fleet s a) as (A' & B' & C').
    split; [congruence|]. split; [congruence|].
    eapply keepsUserData_trans; eassumption.
Qed.

Lemma find_car_Some (id : string) (fleet : list CarConfig) (c : CarConfig) :
  List.find (fun c => String.eqb (car_id c) id) fleet = Some c ->
  c ∈ fleet /\ car_id c = id.
Proof.
  intros H. apply List.find_some in H as [H1 H2].
  split; [apply list_elem_of_In, H1|]. apply String.eqb_eq, H2.
Qed.

Lemma removeStaleCar_lookup (fleet : list CarConfig) (s : Service)
  (a id : string) :
  carMap (Fleet.removeStaleCar fleet s a) !! id
  = if bool_decide (a = id)
    then match carMap s !! a with
         | Some g =>
             match List.find (fun c => String.eqb (car_id c) a) fleet with
             | Some c =>
                 if bool_decide (heap s !! g ≫= ud_modelUrl ≠ car_modelUrl c)
                 then None else Some g
             | None => None
             end
         | None => None
         end
    else carMap s !! id.
Proof.
  unfold Fleet.removeStaleCar. case_bool_decide as Hai.
  - subst id. destruct (carMap s !! a) as [g|] eqn:Eg; [|exact Eg].
    destruct (List.find _ fleet) as [c|].
    + destruct (bool_decide _); simpl; [apply lookup_delete_eq|exact Eg].
    + simpl. apply lookup_delete_eq.
  - destruct (carMap s !! a) as [g|] eqn:Eg; [|reflexivity].
    match goal with |- context [if ?b then _ else _] => destruct b end;
      [|reflexivity].
    simpl. apply lookup_delete_ne. exact Hai.
Qed.

Lemma removeStaleCars_survivor (fleet : list CarConfig) (ids : list string)
  (s : Service) (id : string) :
  is_Some (carMap (foldl (Fleet.removeStaleCar fleet) s ids) !! id) ->
  is_Some (carMap s !! id) /\ (id ∈ ids -> id ∈ car_id <$> fleet).
Proof.
  revert s. induction ids as [|a ids IH]; intros s H.
  - split; [exact H|]. intros Hin. apply elem_of_nil in Hin. destruct Hin.
  - cbn [foldl] in H. destruct (IH _ H) as [H1 H2].
    rewrite removeStaleCar_lookup in H1.
    case_bool_decide as Hai.
    + subst id. destruct (carMap s !! a) as [g|] eqn:Eg;
        [|destruct H1; discriminate].
      split; [eauto|]. intros _.
      destruct (List.find _ fleet) as [c|] eqn:Ef;
        [|destruct H1; discriminate].
      apply find_car_Some in Ef as [Hc <-].
      apply list_elem_of_fmap. eauto.
    + split; [exact H1|]. intros Hin.
      apply elem_of_cons in Hin as [->|Hin]; [contradiction|auto].
Qed.

Lemma bindActiveGroup_spec (s : Service) (a : CarConfig) :
  Store.activeCar (store s) = Some a ->
  exists s', Fleet.bindActiveGroup s = Js.Done s'
    /\ carMap s' = carMap s /\ materialsMap s' = materialsMap s
    /\ pending s' = pending s /\ store s' = store s
    /\ keepsUserData (heap s) (heap s').
Proof.
  intros Ha. unfold Fleet.bindActiveGroup. rewrite Ha.
  destruct (carMap s !! car_id a) as [g|].
  - destruct (analyzeCarStructure_registry g s)
      as ((R1 & R2 & R3 & R4 & R5 & R6 & R7) & M).
    pose proof (analyzeCarStructure_keeps g s) as K.
    set (s1 := Fleet.analyzeCarStructure g s) in *.
    cbv zeta.
    set (s2 := if bool_decide _ then _ else s1).
    assert (H2 : carMap s2 = carMap s1 /\ materialsMap s2 = materialsMap s1
                 /\ pending s2 = pending s1 /\ store s2 = store s1
                 /\ audio s2 = audio s1
                 /\ keepsUserData (heap s1) (heap s2)).
    { unfold s2. destruct (bool_decide _); simpl;
        repeat split; auto using keepsUserData_refl, keepsUserData_add. }
    destruct H2 as (A1 & A2 & A3 & A4 & A5 & A6).
    set (s3 := with_underglowColor _ s2).
    change (sounds (audio s3)) with (sounds (audio s2)).
    destruct (sounds (audio s2)).
    + eexists. split; [reflexivity|]. simpl.
      split; [congruence|]. split; [congruence|]. split; [congruence|].
      split; [congruence|].
      eapply keepsUserData_trans; [exact K|].
      eapply keepsUserData_trans; [exact A6|].
      eapply keepsUserData_trans; apply keepsUserData_add.
    + eexists. split; [reflexivity|]. simpl.
      split; [congruence|]. split; [congruence|]. split; [congruence|].
      split; [congruence|].
      eapply keepsUserData_trans; [exact K|exact A6].
  - exists s. split; [reflexivity|]. repeat split; auto using keepsUserData_refl.
Qed.

Lemma syncFleet_live_ids_holds (s : Service) :
  let fl := fleet (Store.config (store s)) in
  let o := Fleet.syncFleet fl s in
  dom (carMap (Js.state_of o)) = list_to_set (car_id <$> fl)
  /\ (Js.threw o = true <-> fl = []).
Proof.
  cbv zeta. unfold Fleet.syncFleet.
  set (fl := fleet (Store.config (store s))).
  set (s1 := foldl (Fleet.removeStaleCar fl) s (elements (dom (carMap s)))).
  destruct (removeStaleCars_frame fl (elements (dom (carMap s))) s)
    as (S1 & _ & _). fold s1 in S1.
  assert (Hsub : forall id, id ∈ dom (carMap s1) -> id ∈ car_id <$> fl).
  { intros id Hid. apply elem_of_dom in Hid.
    destruct (removeStaleCars_survivor fl _ s id Hid) as [H1 H2].
    apply H2, elem_of_elements, elem_of_dom, H1. }
  destruct fl as [|c0 fl0] eqn:Efl.
  - cbn [forEach andThen]. unfold Fleet.bindActiveGroup.
    rewrite S1, (activeCar_empty (store s) Efl). simpl.
    split; [|split; auto].
    apply set_eq. intros id. split; [intros Hid|set_solver].
    specialize (Hsub id Hid). simpl in Hsub. set_solver.
  - destruct (activeCar_nonempty (store s)) as (a & Ha & _).
    { fold fl. rewrite Efl. discriminate. }
    assert (Ha1 : Store.activeCar (store s1) = Some a)
      by (rewrite S1; exact Ha).
    destruct (forEach_syncCar_spec (c0 :: fl0) s1 a Ha1)
      as (s2 & E2 & D2 & _ & F2 & _).
    rewrite E2. cbn [andThen].
    assert (Ha2 : Store.activeCar (store s2) = Some a)
      by (rewrite (activeCar_config _ _ F2); exact Ha1).
    destruct (bindActiveGroup_spec s2 a Ha2) as (s3 & E3 & C3 & _).
    rewrite E3. simpl Js.state_of. simpl Js.threw.
    split; [|split; discriminate].
    rewrite C3, D2. apply set_eq. intros id.
    rewrite elem_of_union, elem_of_list_to_set. split; [|auto].
    intros [H|H]; [apply Hsub, H|exact H].
Qed.

(** X13: [syncFleet], called as the service calls it (with the fleet of
    the store), leaves in [carMap] exactly the ids of the fleet, whatever
    the service held before; and it throws (at the read of the active
    vehicle's id, after the map has been brought up to date) exactly when
    the fleet is empty. *)
Theorem syncFleet_live_ids (s : Service) :
  let fl := fleet (Store.config (store s)) in
  let o := Fleet.syncFleet fl s in
  dom (carMap (Js.state_of o)) = list_to_set (car_id <$> fl)
  /\ (Js.threw o = true <-> fl = []).
Proof.
  exact (syncFleet_live_ids_holds s).
Qed.

Lemma paintAll_other (fleet : list CarConfig) (m : gmap string CarMaterials)
  (id : string) :
  id ∉ car_id <$> fleet -> paintAll fleet m !! id = m !! id.
Proof.
  unfold paintAll. revert m. induction fleet as [|c fleet IH]; intros m Hn;
    [reflexivity|].
  cbn [foldl]. rewrite IH by set_solver.
  apply lookup_insert_ne. set_solver.
Qed.

Lemma paintAll_lookup (fleet : list CarConfig) (m : gmap string CarMaterials)
  (c : CarConfig) :
  NoDup (car_id <$> fleet) -> c ∈ fleet ->
  paintAll fleet m !! car_id c = Some (paintOf c).
Proof.
  revert m. induction fleet as [|c' fleet IH]; intros m Hnd Hc.
  - apply elem_of_nil in Hc. destruct Hc.
  - simpl in Hnd. apply NoDup_cons in Hnd as [Hn Hnd].
    apply elem_of_cons in Hc as [->|Hc].
    + change (paintAll (c' :: fleet) m)
        with (paintAll fleet (<[car_id c' := paintOf c']> m)).
      rewrite paintAll_other by exact Hn. apply lookup_insert_eq.
    + apply (IH _ Hnd Hc).
Qed.

Lemma removeStaleCars_materials (fleet : list CarConfig) (ids : list string)
  (s : Service) (id : string) :
  id ∉ car_id <$> fleet ->
  materialsMap s !! id = None \/ (id ∈ ids /\ is_Some (carMap s !! id)) ->
  materialsMap (foldl (Fleet.removeStaleCar fleet) s ids) !! id = None.
Proof.
  intros Hn. revert s. induction ids as [|a ids IH]; intros s H.
  - destruct H as [H|[H _]]; [exact H|]. apply elem_of_nil in H. destruct H.
  - cbn [foldl]. apply IH.
    pose proof (removeStaleCar_lookup fleet s a id) as L.
    unfold Fleet.removeStaleCar in *.
    destruct (decide (a = id)) as [->|Hai].
    + destruct (carMap s !! id) as [g|] eqn:Eg.
      * destruct (List.find _ fleet) as [c|] eqn:Ef.
        -- apply find_car_Some in Ef as [Hc Hid]. exfalso. apply Hn.
           rewrite <- Hid. apply list_elem_of_fmap. eauto.
        -- left. simpl. apply lookup_delete_eq.
      * destruct H as [H|[_ [x Hx]]]; [left; exact H|discriminate].
    + rewrite bool_decide_eq_false_2 in L by exact Hai.
      destruct H as [H|[Hin Hs]].
      * left. destruct (carMap s !! a) as [g|]; [|exact H].
        match goal with |- context [if ?b then _ else _] => destruct b end;
          [|exact H].
        simpl. rewrite lookup_delete_ne by exact Hai. exact H.
      * right. split.
        -- apply elem_of_cons in Hin as [->|Hin]; [contradiction|exact Hin].
        -- rewrite L. exact Hs.
Qed.

Lemma syncFleet_paints_fleet_holds (s : Service) :
  NoDup (car_id <$> fleet (Store.config (store s))) ->
  fleet (Store.config (store s)) ≠ [] ->
  let s' := Js.state_of (Fleet.syncFleet (fleet (Store.config (store s))) s) in
  (forall c, c ∈ fleet (Store.config (store s)) ->
     materialsMap s' !! car_id c = Some (paintOf c))
  /\ (forall id, id ∈ dom (carMap s) ->
        id ∉ car_id <$> fleet (Store.config (store s)) ->
        materialsMap s' !! id = None).
Proof.
  intros Hnd Hne. cbv zeta. unfold Fleet.syncFleet.
  set (fl := fleet (Store.config (store s))) in *.
  set (s1 := foldl (Fleet.removeStaleCar fl) s (elements (dom (carMap s)))).
  destruct (removeStaleCars_frame fl (elements (dom (carMap s))) s)
    as (S1 & _ & _). fold s1 in S1.
  destruct (activeCar_nonempty (store s) Hne) as (a & Ha & _).
  assert (Ha1 : Store.activeCar (store s1) = Some a)
    by (rewrite S1; exact Ha).
  destruct (forEach_syncCar_spec fl s1 a Ha1) as (s2 & E2 & _ & M2 & F2 & _).
  rewrite E2. cbn [andThen].
  assert (Ha2 : Store.activeCar (store s2) = Some a)
    by (rewrite (activeCar_config _ _ F2); exact Ha1).
  destruct (bindActiveGroup_spec s2 a Ha2) as (s3 & E3 & _ & M3 & _).
  rewrite E3. simpl Js.state_of. rewrite M3, M2.
  split.
  - intros c Hc. apply paintAll_lookup; assumption.
  - intros id Hid Hn. rewrite paintAll_other by exact Hn.
    apply removeStaleCars_materials; [exact Hn|]. right.
    split; [apply elem_of_elements, Hid|apply elem_of_dom, Hid].
Qed.

(** X14: after [syncFleet] with the fleet of the store, when the vehicles
    of the fleet have distinct ids, the paint material of every vehicle of
    the fleet carries that vehicle's configured colour, metalness and
    roughness, and a vehicle that had a group but is no longer in the fleet
    has lost its material set. *)
Theorem syncFleet_paints_fleet (s : Service) :
  NoDup (car_id <$> fleet (Store.config (store s))) ->
  fleet (Store.config (store s)) ≠ [] ->
  let s' := Js.state_of (Fleet.syncFleet (fleet (Store.config (store s))) s) in
  (forall c, c ∈ fleet (Store.config (store s)) ->
     materialsMap s' !! car_id c = Some (paintOf c))
  /\ (forall id, id ∈ dom (carMap s) ->
        id ∉ car_id <$> fleet (Store.config (store s)) ->
        materialsMap s' !! id = None).
Proof.
  exact (syncFleet_paints_fleet_holds s).
Qed.

End FleetSync.

Lemma syncFleet_paints_fleet_witness :
  let s := initialService (Store.initial defaultConfig) in
  materialsMap
    (Js.state_of (@Fleet.syncFleet exampleHost defaultFleet s)) !! "lf-z"
  = Some (mkCarMaterials "#0055ff" 0.8 0.2).
Proof.
  cbv zeta.
  refine (proj1 (@syncFleet_paints_fleet exampleHost
                   (initialService (Store.initial defaultConfig)) _ _)
            (mkCarConfig "lf-z" "LF-Z ELECTRIFIED" "#0055ff" "#0044cc" 0.2 0.8
               None None None) _).
  - simpl. repeat (apply NoDup_cons; split; [set_solver|]). apply NoDup_nil.
    exact I.
  - discriminate.
  - simpl. set_solver.
Defined.

Section FleetReload.
Context {host : Host}.

(** The first loop of [syncFleet] keeps the group of a vehicle whose
    recorded model URL is the configured one, and drops the group of a
    vehicle that left the fleet or whose model URL changed. *)
Lemma removeStaleCars_keep (fl : list CarConfig) (ids : list string)
  (s : Service) (id : string) (g : nat) (c : CarConfig) :
  carMap s !! id = Some g ->
  is_Some (heap s !! g) ->
  List.find (fun c => String.eqb (car_id c) id) fl = Some c ->
  heap s !! g ≫= ud_modelUrl = car_modelUrl c ->
  carMap (foldl (Fleet.removeStaleCar fl) s ids) !! id = Some g.
Proof.
  intros Hg Hs Hf Hu. revert s Hg Hs Hu.
  induction ids as [|a ids IH]; intros s Hg Hs Hu; [exact Hg|].
  cbn [foldl].
  destruct (removeStaleCar_frame fl s a) as (_ & _ & K).
  destruct (keepsUserData_url _ _ g K Hs) as (Hs' & _ & Hu').
  apply IH; [|exact Hs'|congruence].
  rewrite removeStaleCar_lookup. case_bool_decide as Hai; [|exact Hg].
  subst a. rewrite Hg, Hf.
  rewrite bool_decide_eq_false_2; [reflexivity|]. intros H. exact (H Hu).
Qed.

Lemma removeStaleCars_drop (fl : list CarConfig) (ids : list string)
  (s : Service) (id : string) (g : nat) :
  (forall c, List.find (fun c => String.eqb (car_id c) id) fl = Some c ->
             heap s !! g ≫= ud_modelUrl ≠ car_modelUrl c) ->
  carMap s !! id = None
  \/ (id ∈ ids /\ carMap s !! id = Some g /\ is_Some (heap s !! g)) ->
  carMap (foldl (Fleet.removeStaleCar fl) s ids) !! id = None.
Proof.
  revert s. induction ids as [|a ids IH]; intros s Hst H.
  - destruct H as [H|[H _]]; [exact H|]. apply elem_of_nil in H. destruct H.
  - cbn [foldl].
    destruct (removeStaleCar_frame fl s a) as (_ & _ & K).
    apply IH.
    + intros c Hc. specialize (Hst c Hc). destruct H as [H|(_ & _ & Hs)].
      * destruct (heap s !! g) as [x|] eqn:Ex.
        -- destruct (keepsUserData_url _ _ g K) as (_ & _ & U);
             [rewrite Ex; eauto|].
           rewrite U, Ex. exact Hst.
        -- destruct (heap (Fleet.removeStaleCar fl s a) !! g) as [y|] eqn:Ey.
           ++ (* an object cannot appear: the loop only alters objects *)
              exfalso. unfold Fleet.removeStaleCar in Ey.
              destruct (carMap s !! a) as [ga|]; [|congruence].
              match type of Ey with context [if ?b then _ else _] =>
                destruct b end; [|congruence].
              simpl in Ey. unfold Obj.remove in Ey.
              destruct (heap s !! fleetGroup) as [p|] eqn:Ep; [|congruence].
              destruct (bool_decide _); [|congruence].
              destruct (decide (ga = g)) as [->|Hga].
              ** rewrite lookup_alter_eq in Ey.
                 destruct (decide (fleetGroup = g)) as [Efg|Efg].
                 --- rewrite <- Efg, Ep in Ex. discriminate.
                 --- rewrite lookup_insert_ne, Ex in Ey by exact Efg.
                     discriminate.
              ** rewrite lookup_alter_ne in Ey by exact Hga.
                 destruct (decide (fleetGroup = g)) as [Efg|Efg].
                 --- rewrite <- Efg, Ep in Ex. discriminate.
                 --- rewrite lookup_insert_ne, Ex in Ey by exact Efg.
                     discriminate.
           ++ exact Hst.
      * destruct (keepsUserData_url _ _ g K Hs) as (_ & _ & U).
        rewrite U. exact Hst.
    + rewrite removeStaleCar_lookup.
      destruct H as [H|(Hin & Hg & Hs)].
      * left. case_bool_decide as Hai; [|exact H]. subst a. rewrite H.
        reflexivity.
      * case_bool_decide as Hai.
        -- left. subst a. rewrite Hg.
           destruct (List.find _ fl) as [c|] eqn:Ef; [|reflexivity].
           rewrite bool_decide_eq_true_2; [reflexivity|].
           apply Hst. reflexivity.
        -- right. split; [|split; [exact Hg|]].
           ++ apply elem_of_cons in Hin as [->|Hin]; [contradiction|exact Hin].
           ++ apply (keepsUserData_url _ _ g K Hs).
Qed.

Lemma forEach_syncCar_new (fl : list CarConfig) (s : Service)
  (a c : CarConfig) (id : string) :
  Store.activeCar (store s) = Some a ->
  carMap s !! id = None ->
  List.find (fun c => String.eqb (car_id c) id) fl = Some c ->
  exists s' r, forEach Fleet.syncCar fl s = Js.Done s'
    /\ carMap s' !! id = Some r
    /\ heap s !! r = None
    /\ is_Some (heap s' !! r)
    /\ heap s' !! r ≫= ud_modelUrl = car_modelUrl c
    /\ (Js.truthy_opt (car_modelUrl c) = true -> CarLoad c r ∈ pending s').
Proof.
  revert s. induction fl as [|c' fl IH]; intros s Ha Hn Hf; [discriminate|].
  cbn [forEach].
  destruct (syncCar_spec c' s a Ha)
    as (s1 & E1 & C1 & _ & F1 & K1 & N1 & Q1 & _).
  rewrite E1. cbn [andThen].
  assert (Ha1 : Store.activeCar (store s1) = Some a)
    by (rewrite (activeCar_config _ _ F1); exact Ha).
  simpl in Hf. destruct (String.eqb_spec (car_id c') id) as [Eid|Eid].
  - injection Hf as <-. subst id. rewrite Hn in C1.
    destruct (N1 Hn) as (S1 & U1 & L1).
    destruct (forEach_syncCar_spec fl s1 a Ha1)
      as (s' & E & _ & _ & _ & K & R & Q & _).
    exists s', (fresh (dom (heap s))). split; [exact E|].
    split; [apply R; rewrite C1; apply lookup_insert_eq|].
    split; [apply not_elem_of_dom, is_fresh|].
    destruct (keepsUserData_url _ _ _ K S1) as (S' & _ & U).
    split; [exact S'|].
    split; [rewrite U; exact U1|]. intros Ht. apply Q, L1, Ht.
  - assert (Hn1 : carMap s1 !! id = None).
    { rewrite C1. destruct (carMap s !! car_id c'); [exact Hn|].
      rewrite lookup_insert_ne by exact Eid. exact Hn. }
    destruct (IH s1 Ha1 Hn1 Hf) as (s' & r & E & R & Hr & S' & U & L).
    exists s', r. split; [exact E|]. split; [exact R|].
    split; [|split; [exact S'|split; [exact U|exact L]]].
    destruct (heap s !! r) as [x|] eqn:Ex; [|reflexivity].
    destruct (K1 r x Ex) as (x' & Ex' & _). congruence.
Qed.

Lemma syncFleet_changed_modelUrl_reloads_holds (s : Service) (id : string)
  (g : nat) (c : CarConfig) :
  carMap s !! id = Some g ->
  is_Some (heap s !! g) ->
  List.find (fun c => String.eqb (car_id c) id)
    (fleet (Store.config (store s))) = Some c ->
  heap s !! g ≫= ud_modelUrl ≠ car_modelUrl c ->
  let s' := Js.state_of (Fleet.syncFleet (fleet (Store.config (store s))) s) in
  exists r,
    carMap s' !! id = Some r /\ r ≠ g /\ heap s !! r = None
    /\ heap s' !! r ≫= ud_modelUrl = car_modelUrl c
    /\ (Js.truthy_opt (car_modelUrl c) = true -> CarLoad c r ∈ pending s').
Proof.
  intros Hg Hs Hf Hu. cbv zeta. unfold Fleet.syncFleet.
  set (fl := fleet (Store.config (store s))) in *.
  set (s1 := foldl (Fleet.removeStaleCar fl) s (elements (dom (carMap s)))).
  destruct (removeStaleCars_frame fl (elements (dom (carMap s))) s)
    as (S1 & P1 & K1). fold s1 in S1, P1, K1.
  assert (Hne : fl ≠ []) by (intros E; rewrite E in Hf; discriminate).
  destruct (activeCar_nonempty (store s) Hne) as (a & Ha & _).
  assert (Ha1 : Store.activeCar (store s1) = Some a)
    by (rewrite S1; exact Ha).
  assert (Hn1 : carMap s1 !! id = None).
  { unfold s1. apply (removeStaleCars_drop fl _ s id g).
    - intros c' Hc'. rewrite Hf in Hc'. injection Hc' as <-. exact Hu.
    - right. split; [|split; assumption].
      apply elem_of_elements, elem_of_dom. eauto. }
  destruct (forEach_syncCar_new fl s1 a c id Ha1 Hn1 Hf)
    as (s2 & r & E2 & R2 & Hr & S2 & U2 & L2).
  rewrite E2. cbn [andThen].
  assert (F2 : Store.activeCar (store s2) = Some a).
  { destruct (forEach_syncCar_spec fl s1 a Ha1) as (s2' & E2' & _ & _ & F & _).
    rewrite E2 in E2'. injection E2' as <-.
    rewrite (activeCar_config _ _ F). exact Ha1. }
  destruct (bindActiveGroup_spec s2 a F2) as (s3 & E3 & C3 & _ & P3 & _ & K3).
  rewrite E3. simpl Js.state_of. exists r.
  split; [rewrite C3; exact R2|].
  assert (Hr0 : heap s !! r = None).
  { destruct (heap s !! r) as [x|] eqn:Ex; [|reflexivity].
    destruct (K1 r x Ex) as (x' & Ex' & _). congruence. }
  split.
  { intros E. rewrite E in Hr0. rewrite Hr0 in Hs. destruct Hs; discriminate. }
  split; [exact Hr0|].
  split.
  - destruct (keepsUserData_url _ _ _ K3 S2) as (_ & _ & U3).
    rewrite U3. exact U2.
  - intros Ht. rewrite P3. apply L2, Ht.
Qed.

(** X15: when [syncFleet] runs with the fleet of the store and a vehicle
    that has a group is configured with a model URL other than the one
    recorded on that group, the group is replaced: the id is registered to
    an object that did not exist before (so not to the old group), the
    configured URL is recorded on it, and, when that URL is non-empty, a
    load of it for the new group is in flight. *)
Theorem syncFleet_changed_modelUrl_reloads (s : Service) (id : string)
  (g : nat) (c : CarConfig) :
  carMap s !! id = Some g ->
  is_Some (heap s !! g) ->
  List.find (fun c => String.eqb (car_id c) id)
    (fleet (Store.config (store s))) = Some c ->
  heap s !! g ≫= ud_modelUrl ≠ car_modelUrl c ->
  let s' := Js.state_of (Fleet.syncFleet (fleet (Store.config (store s))) s) in
  exists r,
    carMap s' !! id = Some r /\ r ≠ g /\ heap s !! r = None
    /\ heap s' !! r ≫= ud_modelUrl = car_modelUrl c
    /\ (Js.truthy_opt (car_modelUrl c) = true -> CarLoad c r ∈ pending s').
Proof.
  exact (syncFleet_changed_modelUrl_reloads_holds s id g c).
Qed.

Lemma syncFleet_unchanged_modelUrl_keeps_group_holds (s : Service) (id : string)
  (g : nat) (c : CarConfig) :
  carMap s !! id = Some g ->
  is_Some (heap s !! g) ->
  List.find (fun c => String.eqb (car_id c) id)
    (fleet (Store.config (store s))) = Some c ->
  heap s !! g ≫= ud_modelUrl = car_modelUrl c ->
  let s' := Js.state_of (Fleet.syncFleet (fleet (Store.config (store s))) s) in
  carMap s' !! id = Some g
  /\ heap s' !! g ≫= ud_modelUrl = car_modelUrl c
  /\ (forall d, CarLoad d g ∈ pending s' -> CarLoad d g ∈ pending s).
Proof.
  intros Hg Hs Hf Hu. cbv zeta. unfold Fleet.syncFleet.
  set (fl := fleet (Store.config (store s))) in *.
  set (s1 := foldl (Fleet.removeStaleCar fl) s (elements (dom (carMap s)))).
  destruct (removeStaleCars_frame fl (elements (dom (carMap s))) s)
    as (S1 & P1 & K1). fold s1 in S1, P1, K1.
  assert (Hne : fl ≠ []) by (intros E; rewrite E in Hf; discriminate).
  destruct (activeCar_nonempty (store s) Hne) as (a & Ha & _).
  assert (Ha1 : Store.activeCar (store s1) = Some a)
    by (rewrite S1; exact Ha).
  assert (Hg1 : carMap s1 !! id = Some g)
    by (apply (removeStaleCars_keep fl _ s id g c); assumption).
  destruct (forEach_syncCar_spec fl s1 a Ha1)
    as (s2 & E2 & _ & _ & F2 & K2 & R2 & _ & L2).
  rewrite E2. cbn [andThen].
  assert (Ha2 : Store.activeCar (store s2) = Some a)
    by (rewrite (activeCar_config _ _ F2); exact Ha1).
  destruct (bindActiveGroup_spec s2 a Ha2) as (s3 & E3 & C3 & _ & P3 & _ & K3).
  rewrite E3. simpl Js.state_of.
  split; [rewrite C3; apply R2, Hg1|].
  destruct (keepsUserData_url _ _ g K1 Hs) as (Hs1 & _ & U1).
  destruct (keepsUserData_url _ _ g K2 Hs1) as (Hs2 & _ & U2).
  destruct (keepsUserData_url _ _ g K3 Hs2) as (_ & _ & U3).
  split; [congruence|].
  intros d Hd. rewrite P3 in Hd. destruct (L2 d g Hd) as [H|H].
  - rewrite <- P1. exact H.
  - rewrite H in Hs1. destruct Hs1; discriminate.
Qed.

(** X16: when [syncFleet] runs with the fleet of the store and a vehicle
    that has a group is configured with the model URL recorded on that
    group, the group is kept: the same object stays registered under the
    id and no load is started on it (only the paint parameters are
    refreshed). *)
Theorem syncFleet_unchanged_modelUrl_keeps_group (s : Service) (id : string)
  (g : nat) (c : CarConfig) :
  carMap s !! id = Some g ->
  is_Some (heap s !! g) ->
  List.find (fun c => String.eqb (car_id c) id)
    (fleet (Store.config (store s))) = Some c ->
  heap s !! g ≫= ud_modelUrl = car_modelUrl c ->
  let s' := Js.state_of (Fleet.syncFleet (fleet (Store.config (store s))) s) in
  carMap s' !! id = Some g
  /\ heap s' !! g ≫= ud_modelUrl = car_modelUrl c
  /\ (forall d, CarLoad d g ∈ pending s' -> CarLoad d g ∈ pending s).
Proof.
  exact (syncFleet_unchanged_modelUrl_keeps_group_holds s id g c).
Qed.

End FleetReload.

(** The service after the first synchronisation of the default fleet. *)
Definition fleetShown : Service :=
  Js.state_of
    (@Fleet.syncFleet exampleHost defaultFleet
       (initialService (Store.initial defaultConfig))).

Definition lfzWithModel : CarConfig :=
  mkCarConfig "lf-z" "LF-Z ELECTRIFIED" "#0055ff" "#0044cc" 0.2 0.8
    (Some "lf-z.glb") None None.

(** [fleetShown] after the editor gave the second vehicle a model file. *)
Definition fleetEdited : Service :=
  with_store
    (Store.updateConfig
       (mkPartialConfig None None (Some [lfa; lfzWithModel]) None None None
          None)
       (store fleetShown))
    fleetShown.

Lemma syncFleet_changed_modelUrl_reloads_witness :
  exists r,
    carMap
      (Js.state_of
         (@Fleet.syncFleet exampleHost [lfa; lfzWithModel] fleetEdited))
      !! "lf-z" = Some r
    /\ r ≠ 18%nat
    /\ CarLoad lfzWithModel r
       ∈ pending
           (Js.state_of
              (@Fleet.syncFleet exampleHost [lfa; lfzWithModel] fleetEdited)).
Proof.
  destruct (@syncFleet_changed_modelUrl_reloads exampleHost fleetEdited
              "lf-z" 18%nat lfzWithModel)
    as (r & H1 & H2 & _ & _ & H5).
  - reflexivity.
  - vm_compute. eauto.
  - reflexivity.
  - vm_compute. discriminate.
  - exists r. split; [exact H1|]. split; [exact H2|]. apply H5. reflexivity.
Defined.

Lemma syncFleet_unchanged_modelUrl_keeps_group_witness :
  carMap
    (Js.state_of (@Fleet.syncFleet exampleHost [lfa; lfzWithModel] fleetEdited))
    !! "lfa-next" = Some 7%nat.
Proof.
  refine (proj1 (@syncFleet_unchanged_modelUrl_keeps_group exampleHost
                   fleetEdited "lfa-next" 7%nat lfa _ _ _ _)).
  - reflexivity.
  - vm_compute. eauto.
  - reflexivity.
  - reflexivity.
Defined.

(** * Further properties of the audio binder *)

(** While the engine is off, neither sound of the vehicle is playing. *)
Definition silentWhenOff (s : Service) : Prop :=
  isEngineRunning (audio s) = false ->
  forall snd, sounds (audio s) = Some snd ->
    a_isPlaying (engineSound snd) = false
    /\ a_isPlaying (ignitionSound snd) = false.

Lemma toggleIgnition_silentWhenOff (s : Service) :
  silentWhenOff s -> silentWhenOff (Js.state_of (Engine.toggleIgnition s)).
Proof.
  intros H. unfold Engine.toggleIgnition.
  destruct (audioListener s); cbn [negb]; [|exact H].
  destruct (isEngineRunning (audio s)) eqn:Hr.
  - unfold Engine.stopEngine. rewrite Hr. cbn [negb].
    destruct (sounds (audio s)) as [snd|] eqn:Hs.
    + intros _ snd' E. cbn in E. injection E as <-. cbn.
      split.
      * destruct (a_isPlaying (engineSound snd)) eqn:E; [reflexivity|exact E].
      * destruct (a_isPlaying (ignitionSound snd)) eqn:E; [reflexivity|exact E].
    + intros E. cbn in E. congruence.
  - unfold Engine.startEngine. rewrite Hr. cbn.
    destruct (sounds (audio s)) as [snd|]; [|intros E; discriminate E].
    destruct (a_buffer (ignitionSound snd)); [intros E; discriminate E|].
    destruct (a_buffer (engineSound snd)); intros E; discriminate E.
Qed.

Lemma ignitionEnded_silentWhenOff (s : Service) :
  silentWhenOff s -> silentWhenOff (Engine.ignitionEnded s).
Proof.
  intros H. unfold Engine.ignitionEnded.
  destruct (sounds (audio s)) as [snd|] eqn:Hs; [|exact H].
  destruct (a_source (ignitionSound snd)) as [[|]|]; [| |exact H].
  - intros Hr snd' E. cbn in Hr, E. injection E as <-. cbn.
    destruct (H Hr snd Hs) as [He _]. split; [exact He|reflexivity].
  - intros Hr snd' E. cbn in Hr, E. injection E as <-. cbn.
    rewrite Hr, andb_false_r. exact (H Hr snd Hs).
Qed.

(** X17: under ignition toggles and ignition-clip completions, in any
    order and any number, the vehicle is silent whenever its engine is off:
    if no sound was playing with the engine off at the start, then after
    the events, if [isEngineRunning] is false, neither the engine loop nor
    the ignition clip is playing. *)
Theorem engine_off_is_silent (evs : list Engine.Event) (s : Service) :
  silentWhenOff s -> silentWhenOff (foldl Engine.step s evs).
Proof.
  revert s. induction evs as [|e evs IH]; intros s H; [exact H|].
  cbn [foldl]. apply IH. destruct e; cbn [Engine.step].
  - apply toggleIgnition_silentWhenOff, H.
  - apply ignitionEnded_silentWhenOff, H.
Qed.

(** The sources with both clips loaded, as an earlier start of the engine
    leaves them once the engine is off again: the ignition sound carries
    the completion closure. *)
Definition startedBefore : Service :=
  with_audio
    (mkAudio
       (Some (mkSounds (mkPositionalAudio true false DefaultOnEnded 1 None)
                (mkPositionalAudio true false IgnitionOnEnded 1 None))) false)
    (initialService (Store.initial defaultConfig)).

Lemma engine_off_is_silent_witness :
  Engine.engineLoopPlaying
    (foldl Engine.step startedBefore [Engine.Toggle; Engine.IgnitionEnd])
  = true
  /\ let s' :=
       foldl Engine.step startedBefore
         [Engine.Toggle; Engine.IgnitionEnd; Engine.Toggle] in
     isEngineRunning (audio s') = false
     /\ Engine.engineLoopPlaying s' = false.
Proof.
  split; [reflexivity|]. cbv zeta. split; [reflexivity|].
  pose proof (engine_off_is_silent
                [Engine.Toggle; Engine.IgnitionEnd; Engine.Toggle]
                startedBefore) as H.
  unfold Engine.engineLoopPlaying.
  destruct (sounds (audio (foldl Engine.step startedBefore
              [Engine.Toggle; Engine.IgnitionEnd; Engine.Toggle])))
    as [snd|] eqn:E; [|reflexivity].
  refine (proj1 (H _ _ snd E)).
  - intros _ snd' E'. injection E' as <-. split; reflexivity.
  - reflexivity.
Defined.

(** * Further properties of the simulation loop *)

(** A heap update that changes no object's [pr] keeps [pr] at every
    handle. *)
Lemma alter_preserves {B : Type} (pr : Object3D -> B)
  (f : Object3D -> Object3D) (k g : nat) (h : Heap) :
  (forall o, pr (f o) = pr o) ->
  pr <$> alter f k h !! g = pr <$> h !! g.
Proof.
  intros Hf. destruct (decide (k = g)) as [->|Hk].
  - rewrite lookup_alter_eq. destruct (h !! g) as [o|]; simpl; [|reflexivity].
    rewrite Hf. reflexivity.
  - rewrite lookup_alter_ne by exact Hk. reflexivity.
Qed.

Lemma foldl_heap_preserves {A B : Type} (pr : Object3D -> B)
  (st : Heap -> A -> Heap) :
  (forall h a g, pr <$> st h a !! g = pr <$> h !! g) ->
  forall l h g, pr <$> foldl st h l !! g = pr <$> h !! g.
Proof.
  intros Hst l. induction l as [|a l IH]; intros h g; [reflexivity|].
  cbn [foldl]. rewrite IH. apply Hst.
Qed.

Lemma driveSpeed_range (throttle delta v : Q) :
  -19.6 <= Loop.driveSpeed false throttle delta v <= 78.4.
Proof.
  unfold Loop.driveSpeed.
  pose proof (clamp_bounds (-20) 80 (v + throttle * 30 * delta)) as H.
  assert (Hb : -20 <= 80) by lra. specialize (H Hb).
  set (c := Js.Math_max (-20) (Js.Math_min 80 (v + throttle * 30 * delta)))
    in *.
  lra.
Qed.

Section DriveFacts.
Context {host : Host}.

(** X18: a drive-mode frame without the brake leaves the speed between
    [-39.2] and [78.4], whatever the speed, the inputs and the frame time
    were: the clamp to [[-20, 80]] and the drag give [[-19.6, 78.4]], and
    the bounce off the edge of the map, which multiplies the speed by
    [-0.5] after the clamp, can take it down to [-39.2], below the reverse
    limit. *)
Theorem drive_speed_range (delta : Q) (g : nat) (s : Service) :
  Loop.isBrake s = false ->
  -39.2 <= speed (sim (Loop.drive delta g s)) <= 78.4.
Proof.
  intros Hb. unfold Loop.drive. cbv zeta. cbn [sim with_heap with_sim speed].
  rewrite Hb.
  match goal with |- context [Loop.driveSpeed false ?t ?d ?v] =>
    pose proof (driveSpeed_range t d v) as Hv;
    set (v0 := Loop.driveSpeed false t d v) in *
  end.
  match goal with |- context [if ?b then _ else _] => destruct b end; lra.
Qed.

(** X19: a drive-mode frame keeps the active vehicle on the map: if its
    group is within the bounds ([|x| <= 190] and [|z| <= 190]) before the
    frame, it is within the bounds after it, at height [0], whatever the
    speed, the heading and the frame time. *)
Theorem drive_stays_on_map (delta : Q) (g : nat) (s : Service)
  (o : Object3D) :
  heap s !! g = Some o ->
  Js.Math_abs (vx (o_position o)) <= Loop.mapBounds ->
  Js.Math_abs (vz (o_position o)) <= Loop.mapBounds ->
  exists o', heap (Loop.drive delta g s) !! g = Some o'
    /\ Js.Math_abs (vx (o_position o')) <= Loop.mapBounds
    /\ Js.Math_abs (vz (o_position o')) <= Loop.mapBounds
    /\ vy (o_position o') = 0.
Proof.
  intros Hg Hx Hz.
  assert (Hp : o_position <$> heap (Loop.drive delta g s) !! g
               = o_position <$> heap (Loop.drive delta g s) !! g)
    by reflexivity.
  unfold Loop.drive in Hp at 2. cbv zeta in Hp. cbn [heap with_heap] in Hp.
  rewrite (foldl_heap_preserves o_position) in Hp
    by (intros h a k; apply alter_preserves; reflexivity).
  rewrite lookup_alter_eq in Hp.
  set (h0 := foldl _ (heap s) _) in Hp.
  assert (H0 : o_position <$> alter (set_visible true) g h0 !! g
               = Some (o_position o)).
  { rewrite alter_preserves by reflexivity. unfold h0.
    rewrite (foldl_heap_preserves o_position).
    - rewrite Hg. reflexivity.
    - intros h a k. destruct (bool_decide (a = g)); [reflexivity|].
      apply alter_preserves. reflexivity. }
  rewrite H0 in Hp. cbn [default] in Hp.
  destruct (alter (set_visible true) g h0 !! g) as [o1|] eqn:E1;
    [|discriminate H0].
  cbn [fmap option_fmap option_map] in Hp.
  destruct (heap (Loop.drive delta g s) !! g) as [o'|]; [|discriminate Hp].
  exists o'. split; [reflexivity|].
  cbn [fmap option_fmap option_map] in Hp. injection Hp as Hp.
  rewrite Hp. clear Hp.
  match goal with |- context [Loop.outOfBounds ?a ?b] =>
    destruct (Loop.outOfBounds a b) eqn:Eo
  end; cbn.
  - split; [exact Hx|]. split; [exact Hz|reflexivity].
  - unfold Loop.outOfBounds in Eo. apply orb_false_iff in Eo as [E2 E3].
    apply Qgt_bool_false in E2, E3. split; [exact E2|].
    split; [exact E3|reflexivity].
Qed.

End DriveFacts.

(** The first vehicle at the northern edge of the map, at full speed. *)
Definition edgeOfMap : Service :=
  with_sim (mkSim 80 0 0 0 0 ∅)
    (with_heap
       (alter (set_position (mkVec3 0 0 190)) 7%nat (heap fleetShown))
       fleetShown).

Lemma drive_speed_range_witness :
  speed (sim (@Loop.drive exampleHost 1 7%nat edgeOfMap)) == -39.2
  /\ -39.2 <= speed (sim (@Loop.drive exampleHost 1 7%nat edgeOfMap)) <= 78.4.
Proof.
  split; [reflexivity|].
  apply (@drive_speed_range exampleHost 1 7%nat edgeOfMap). reflexivity.
Defined.

Lemma drive_stays_on_map_witness :
  exists o',
    heap (@Loop.drive exampleHost 1 7%nat edgeOfMap) !! 7%nat = Some o'
    /\ Js.Math_abs (vz (o_position o')) <= Loop.mapBounds.
Proof.
  destruct (heap edgeOfMap !! 7%nat) as [o|] eqn:E;
    [|vm_compute in E; discriminate E].
  destruct (@drive_stays_on_map exampleHost 1 7%nat edgeOfMap o E)
    as (o' & H1 & _ & H3 & _).
  - vm_compute in E. injection E as <-. vm_compute. discriminate.
  - vm_compute in E. injection E as <-. vm_compute. discriminate.
  - exists o'. split; assumption.
Defined.

Section BrakeFacts.
Context {host : Host}.

(** X20: a drive-mode frame of at most one second with the brake held
    never speeds the vehicle up: the speed after the frame, bounce off the
    edge of the map included, is at most as large in magnitude as the speed
    before it.  It is the speed before the frame scaled by [1 - 2 * delta],
    or, when the frame bounces, by that and [-0.5].  On a frame of at most
    half a second the speed therefore keeps its direction unless the frame
    bounces, and in that case the vehicle stays where it was (at height
    [0]). *)
Theorem brake_slows_down (delta : Q) (g : nat) (s : Service) :
  Loop.isBrake s = true -> 0 <= delta -> delta <= 1 ->
  let v := speed (sim s) in
  let s' := Loop.drive delta g s in
  let v' := speed (sim s') in
  Js.Math_abs v' <= Js.Math_abs v
  /\ (v' == (1 - delta * 2) * v \/ v' == (1 - delta * 2) * v * -0.5)
  /\ (delta <= 0.5 ->
      0 <= v' * v
      \/ (v' * v <= 0
          /\ o_position <$> heap s' !! g
             = (fun o => mkVec3 (vx (o_position o)) 0 (vz (o_position o)))
                 <$> heap s !! g)).
Proof.
  intros Hb H0 H1. cbv zeta.
  assert (Hp : o_position <$> heap (Loop.drive delta g s) !! g
               = o_position <$> heap (Loop.drive delta g s) !! g)
    by reflexivity.
  revert Hp.
  unfold Loop.drive at 2 3 4 5 6 7. cbv zeta.
  cbn [sim heap with_heap with_sim speed].
  rewrite Hb. unfold Loop.driveSpeed, Js.lerp.
  set (v := speed (sim s)).
  rewrite (foldl_heap_preserves o_position)
    by (intros h a k; apply alter_preserves; reflexivity).
  rewrite lookup_alter_eq.
  set (h0 := foldl _ (heap s) _).
  assert (E0 : o_position <$> alter (set_visible true) g h0 !! g
               = o_position <$> heap s !! g).
  { rewrite alter_preserves by reflexivity. unfold h0.
    apply (foldl_heap_preserves o_position).
    intros h a k. destruct (bool_decide (a = g)); [reflexivity|].
    apply alter_preserves. reflexivity. }
  rewrite E0.
  match goal with |- context [Loop.outOfBounds ?a ?b] =>
    destruct (Loop.outOfBounds a b)
  end; intros Hp.
  - split.
    + destruct (Math_abs_cases (((1 - delta * 2) * v + delta * 2 * 0) * -0.5))
        as [[A1 ->]|[A1 ->]];
        destruct (Math_abs_cases v) as [[A2 ->]|[A2 ->]]; nra.
    + split; [right; ring|]. intros H2. right.
      assert (Hvv : 0 <= v * v) by nra.
      assert (Hd : 0 <= 1 - delta * 2) by lra.
      pose proof (Qmult_le_0_compat _ _ Hd Hvv) as Hm.
      split.
      { assert (E : ((1 - delta * 2) * v + delta * 2 * 0) * -0.5 * v
                    == -0.5 * ((1 - delta * 2) * (v * v))) by ring.
        apply (Qle_trans _ (-0.5 * ((1 - delta * 2) * (v * v))));
          [apply Qle_lteq; right; exact E|lra]. }
      rewrite Hp.
      destruct (alter (set_visible true) g h0 !! g) as [o1|] eqn:E1;
        destruct (heap s !! g) as [o|]; try discriminate E0;
        [|reflexivity].
      reflexivity.
  - split.
    + destruct (Math_abs_cases ((1 - delta * 2) * v + delta * 2 * 0))
        as [[A1 ->]|[A1 ->]];
        destruct (Math_abs_cases v) as [[A2 ->]|[A2 ->]]; nra.
    + split; [left; ring|]. intros H2. left. nra.
Qed.

End BrakeFacts.

(** [edgeOfMap] with the brake held. *)
Definition brakingAtEdge : Service := Loop.handleKeyDown " " edgeOfMap.

Lemma brake_slows_down_witness :
  speed (sim (@Loop.drive exampleHost 0.02 7%nat brakingAtEdge)) == -38.4
  /\ Js.Math_abs (speed (sim (@Loop.drive exampleHost 0.02 7%nat brakingAtEdge)))
     <= Js.Math_abs (speed (sim brakingAtEdge)).
Proof.
  split; [reflexivity|].
  refine (proj1 (@brake_slows_down exampleHost 0.02 7%nat brakingAtEdge _ _ _)).
  - reflexivity.
  - vm_compute. discriminate.
  - vm_compute. discriminate.
Defined.

(** ** What a frame can change *)

(** Everything of an object but its position, rotation, scale and
    visibility. *)
Definition structure (o : Object3D) :=
  (o_kind o, o_name o, o_parent o, o_children o,
   ud_url o, ud_modelUrl o, ud_origPos o, ud_isFront o).

(** Everything of an object but its position, rotation and visibility. *)
Definition shape (o : Object3D) := (structure o, o_scale o).

(** [s'] differs from [s] at most in where objects are, whether they are
    shown, the motion state and the playback rate of the engine loop. *)
Definition movesOnly (s s' : Service) : Prop :=
  store s' = store s
  /\ sceneObjectMap s' = sceneObjectMap s
  /\ envObjectMap s' = envObjectMap s
  /\ carMap s' = carMap s
  /\ materialsMap s' = materialsMap s
  /\ currentCarParams s' = currentCarParams s
  /\ underglowColor s' = underglowColor s
  /\ pending s' = pending s
  /\ (forall g, shape <$> heap s' !! g = shape <$> heap s !! g)
  /\ isEngineRunning (audio s') = isEngineRunning (audio s)
  /\ Engine.engineLoopPlaying s' = Engine.engineLoopPlaying s
  /\ keys (sim s') = keys (sim s)
  /\ character s' = character s.

(** What the character's mixer may undergo: it stays the mixer of the same
    root and receives further calls. *)
Definition mixerAdvances (m m' : option Mixer) : Prop :=
  match m, m' with
  | Some m, Some m' =>
      mixerRoot m' = mixerRoot m /\ mixerCalls m `prefix_of` mixerCalls m'
  | None, None => True
  | _, _ => False
  end.

(** [s'] differs from [s] at most as [movesOnly] allows, in the scale of
    objects and in the calls that the character's mixer has received. *)
Definition animatesOnly (s s' : Service) : Prop :=
  store s' = store s
  /\ sceneObjectMap s' = sceneObjectMap s
  /\ envObjectMap s' = envObjectMap s
  /\ carMap s' = carMap s
  /\ materialsMap s' = materialsMap s
  /\ currentCarParams s' = currentCarParams s
  /\ underglowColor s' = underglowColor s
  /\ pending s' = pending s
  /\ (forall g, structure <$> heap s' !! g = structure <$> heap s !! g)
  /\ isEngineRunning (audio s') = isEngineRunning (audio s)
  /\ Engine.engineLoopPlaying s' = Engine.engineLoopPlaying s
  /\ keys (sim s') = keys (sim s)
  /\ charMeshes (character s') = charMeshes (character s)
  /\ charActions (character s') = charActions (character s)
  /\ charModelType (character s') = charModelType (character s)
  /\ mixerAdvances (charMixer (character s)) (charMixer (character s')).

Lemma movesOnly_refl (s : Service) : movesOnly s s.
Proof. repeat split. Qed.

Lemma movesOnly_trans (s1 s2 s3 : Service) :
  movesOnly s1 s2 -> movesOnly s2 s3 -> movesOnly s1 s3.
Proof.
  unfold movesOnly.
  intros (A1 & A2 & A3 & A4 & A5 & A6 & A7 & A8 & A9 & A10 & A11 & A12 & A13)
    (B1 & B2 & B3 & B4 & B5 & B6 & B7 & B8 & B9 & B10 & B11 & B12 & B13).
  repeat split; congruence.
Qed.

Lemma movesOnly_fold {A : Type} (f : Service -> A -> Service) (l : list A) :
  (forall s a, movesOnly s (f s a)) -> forall s, movesOnly s (foldl f s l).
Proof.
  intros Hf. induction l as [|a l IH]; intros s; [apply movesOnly_refl|].
  cbn [foldl]. apply (movesOnly_trans s (f s a)); [apply Hf|apply IH].
Qed.

Lemma mixerAdvances_refl (m : option Mixer) : mixerAdvances m m.
Proof. destruct m as [m|]; [split; reflexivity|exact I]. Qed.

Lemma mixerAdvances_trans (m1 m2 m3 : option Mixer) :
  mixerAdvances m1 m2 -> mixerAdvances m2 m3 -> mixerAdvances m1 m3.
Proof.
  destruct m1 as [m1|], m2 as [m2|], m3 as [m3|]; cbn; try tauto.
  intros [R1 P1] [R2 P2]. split; [congruence|].
  exact (transitivity P1 P2).
Qed.

Lemma shape_structure (h h' : Heap) (g : nat) :
  shape <$> h' !! g = shape <$> h !! g ->
  structure <$> h' !! g = structure <$> h !! g.
Proof.
  intros E. apply (f_equal (fmap fst)) in E.
  rewrite <- !option_fmap_compose in E. exact E.
Qed.

Lemma movesOnly_animatesOnly (s s' : Service) :
  movesOnly s s' -> animatesOnly s s'.
Proof.
  intros (A1 & A2 & A3 & A4 & A5 & A6 & A7 & A8 & A9 & A10 & A11 & A12 & A13).
  unfold animatesOnly. rewrite A13.
  repeat split; try assumption; [|apply mixerAdvances_refl].
  intros g. apply shape_structure, A9.
Qed.

Lemma animatesOnly_trans (s1 s2 s3 : Service) :
  animatesOnly s1 s2 -> animatesOnly s2 s3 -> animatesOnly s1 s3.
Proof.
  unfold animatesOnly.
  intros (A1 & A2 & A3 & A4 & A5 & A6 & A7 & A8 & A9 & A10 & A11 & A12 & A13
          & A14 & A15 & A16)
    (B1 & B2 & B3 & B4 & B5 & B6 & B7 & B8 & B9 & B10 & B11 & B12 & B13
     & B14 & B15 & B16).
  repeat split; try congruence.
  exact (mixerAdvances_trans _ _ _ A16 B16).
Qed.

(** Moving the objects of the heap and updating the motion state. *)
Lemma movesOnly_heap_sim (s : Service) (h : Heap) (m : Sim) :
  (forall g, shape <$> h !! g = shape <$> heap s !! g) ->
  keys m = keys (sim s) ->
  movesOnly s (with_heap h (with_sim m s)).
Proof. intros Hh Hk. repeat split; assumption. Qed.

Lemma movesOnly_heap (s : Service) (h : Heap) :
  (forall g, shape <$> h !! g = shape <$> heap s !! g) ->
  movesOnly s (with_heap h s).
Proof. intros Hh. repeat split; assumption. Qed.

Lemma lineupCar_movesOnly (delta elapsed : Q) (i : Z) (s : Service)
  (e : nat * CarConfig) :
  movesOnly s (Loop.lineupCar delta elapsed i s e).
Proof.
  destruct e as [index car]. unfold Loop.lineupCar.
  destruct (carMap s !! car_id car) as [g|]; [|apply movesOnly_refl].
  apply movesOnly_heap. intros k. apply alter_preserves. reflexivity.
Qed.

Lemma explodeParts_movesOnly (val : Q) (s : Service) :
  movesOnly s (Loop.explodeParts val s).
Proof.
  unfold Loop.explodeParts. cbv zeta. apply movesOnly_heap. intros g.
  rewrite (foldl_heap_preserves shape).
  2:{ intros h a k. destruct (originalPositions _ !! a); [|reflexivity].
      apply alter_preserves. reflexivity. }
  rewrite (foldl_heap_preserves shape).
  2:{ intros h a k. destruct (originalPositions _ !! a); [|reflexivity].
      apply alter_preserves. reflexivity. }
  rewrite (foldl_heap_preserves shape).
  2:{ intros h a k. destruct (originalPositions _ !! a); [|reflexivity].
      destruct (originalRotations _ !! a); [|reflexivity].
      apply alter_preserves. reflexivity. }
  rewrite (foldl_heap_preserves shape).
  2:{ intros h a k. destruct (originalPositions _ !! a); [|reflexivity].
      apply alter_preserves. reflexivity. }
  reflexivity.
Qed.

Lemma snapParts_movesOnly (s : Service) : movesOnly s (Loop.snapParts s).
Proof.
  unfold Loop.snapParts. cbv zeta. apply movesOnly_heap. intros g.
  rewrite (foldl_heap_preserves shape)
    by (intros h a k; apply alter_preserves; reflexivity).
  rewrite (foldl_heap_preserves shape)
    by (intros h a k; apply alter_preserves; reflexivity).
  reflexivity.
Qed.

Lemma explode_movesOnly (isTechMode : bool) (delta : Q) (s : Service) :
  movesOnly s (Loop.explode isTechMode delta s).
Proof.
  unfold Loop.explode. cbv zeta.
  set (s1 := with_sim _ s).
  assert (H1 : movesOnly s s1) by (repeat split).
  apply (movesOnly_trans s s1); [exact H1|].
  destruct (Fleet.Qgt_bool _ _); [apply explodeParts_movesOnly|].
  destruct isTechMode; cbn [negb];
    [apply movesOnly_refl|apply snapParts_movesOnly].
Qed.

(** The limbs of the procedural character: a registered part is turned or
    moved, nothing else. *)
Lemma onCharMesh_preserves {B : Type} (pr : Object3D -> B) (name : string)
  (f : Object3D -> Object3D) (c : Character) (h : Heap) (g : nat) :
  (forall o, pr (f o) = pr o) ->
  pr <$> Loop.onCharMesh name f c h !! g = pr <$> h !! g.
Proof.
  intros Hf. unfold Loop.onCharMesh.
  destruct (charMeshes c !! name); [|reflexivity].
  apply alter_preserves, Hf.
Qed.

Section FrameFacts.
Context {host : Host}.

Lemma drive_movesOnly (delta : Q) (g : nat) (s : Service) :
  movesOnly s (Loop.drive delta g s).
Proof.
  unfold Loop.drive. cbv zeta. apply movesOnly_heap_sim; [|reflexivity].
  intros k.
  rewrite (foldl_heap_preserves shape)
    by (intros h a j; apply alter_preserves; reflexivity).
  rewrite alter_preserves by reflexivity.
  rewrite alter_preserves by reflexivity.
  apply (foldl_heap_preserves shape).
  intros h a j. destruct (bool_decide (a = g)); [reflexivity|].
  apply alter_preserves. reflexivity.
Qed.

Lemma mixerUpdate_structure (m : Mixer) (h : Heap) (g : nat) :
  structure <$> Loop.mixerUpdate m h !! g = structure <$> h !! g.
Proof.
  unfold Loop.mixerUpdate.
  apply (foldl_heap_preserves structure
           (fun h' node =>
              match AnimationMixer_update m h node with
              | Some (p, r, sc) =>
                  alter (fun o =>
                    set_scale sc
                      (set_rotation
                         (mkEuler (vx r) (vy r) (vz r) (e_order (o_rotation o)))
                         (set_position p o))) node h'
              | None => h'
              end)).
  intros h' a k. destruct (AnimationMixer_update m h a) as [[[p r] sc]|];
    [|reflexivity].
  apply alter_preserves. reflexivity.
Qed.

(** Without a mixer the animation of the character turns and moves
    objects; with one it may also scale the nodes that the mixer animates
    and adds to the mixer's calls. *)
Lemma animateCharacter_movesOnly (delta time moveSpeed : Q) (s : Service) :
  charMixer (character s) = None ->
  movesOnly s (Loop.animateCharacter delta time moveSpeed s).
Proof.
  intros Hm. unfold Loop.animateCharacter. cbv zeta. rewrite Hm.
  destruct (_ && _).
  - apply movesOnly_heap. intros g. apply alter_preserves.
    intros o. destruct (Fleet.Qgt_bool moveSpeed 0.1); reflexivity.
  - destruct (Fleet.Qgt_bool moveSpeed 0.1); apply movesOnly_heap; intros g;
      rewrite !onCharMesh_preserves; reflexivity.
Qed.

Lemma animateCharacter_animatesOnly (delta time moveSpeed : Q) (s : Service) :
  animatesOnly s (Loop.animateCharacter delta time moveSpeed s).
Proof.
  destruct (charMixer (character s)) as [m|] eqn:Hm;
    [|apply movesOnly_animatesOnly, animateCharacter_movesOnly, Hm].
  unfold Loop.animateCharacter. cbv zeta. rewrite Hm.
  unfold animatesOnly.
  cbn [store sceneObjectMap envObjectMap carMap materialsMap
       currentCarParams underglowColor pending heap audio sim character
       with_heap with_character charMeshes charActions charModelType
       charMixer mixerRoot mixerCalls Engine.engineLoopPlaying].
  rewrite Hm.
  repeat split; try reflexivity.
  - intros g. apply mixerUpdate_structure.
  - cbn [mixerCalls]. rewrite <- app_assoc. apply prefix_app_r. reflexivity.
Qed.

Lemma walk_split (delta elapsed : Q) (g : option nat) (s : Service) :
  exists s1 moveSpeed,
    Loop.walk delta elapsed g s
    = Loop.animateCharacter delta elapsed moveSpeed s1
    /\ movesOnly s s1.
Proof.
  unfold Loop.walk. cbv zeta. eexists _, _. split; [reflexivity|].
  apply movesOnly_heap_sim; [|reflexivity].
  intros k. rewrite alter_preserves by reflexivity.
  destruct g as [g|]; [|reflexivity].
  apply alter_preserves. reflexivity.
Qed.

Lemma walk_animatesOnly (delta elapsed : Q) (g : option nat) (s : Service) :
  animatesOnly s (Loop.walk delta elapsed g s).
Proof.
  destruct (walk_split delta elapsed g s) as (s1 & v & -> & H1).
  apply (animatesOnly_trans s s1);
    [apply movesOnly_animatesOnly, H1|apply animateCharacter_animatesOnly].
Qed.

Lemma walk_movesOnly (delta elapsed : Q) (g : option nat) (s : Service) :
  charMixer (character s) = None ->
  movesOnly s (Loop.walk delta elapsed g s).
Proof.
  intros Hm. destruct (walk_split delta elapsed g s) as (s1 & v & -> & H1).
  apply (movesOnly_trans s s1); [exact H1|].
  apply animateCharacter_movesOnly.
  destruct H1 as (_ & _ & _ & _ & _ & _ & _ & _ & _ & _ & _ & _ & ->).
  exact Hm.
Qed.

Lemma modulateEngine_movesOnly (s : Service) :
  movesOnly s (Loop.modulateEngine s).
Proof.
  unfold Loop.modulateEngine.
  destruct (sounds (audio s)) as [snd|] eqn:Hs; [|apply movesOnly_refl].
  destruct (isEngineRunning (audio s) && a_isPlaying (engineSound snd));
    [|apply movesOnly_refl].
  repeat split. unfold Engine.engineLoopPlaying. cbn. rewrite Hs. reflexivity.
Qed.

(** A frame whose walk-mode part, if it has one, meets [P]. *)
Lemma animate_frame (P : Service -> Service -> Prop) (delta elapsed : Q)
  (s : Service) :
  (forall a b, movesOnly a b -> P a b) ->
  (forall a b c, P a b -> P b c -> P a c) ->
  (forall sec g a,
     Store.activeSection (store s) = Some sec -> sec_id sec = "walk" ->
     movesOnly s a -> P a (Loop.walk delta elapsed g a)) ->
  P s (Js.state_of (Loop.animate delta elapsed s)).
Proof.
  intros Hmv Htr Hwalk. unfold Loop.animate.
  destruct (Store.activeCar (store s)) as [c|];
    [|apply Hmv, movesOnly_refl].
  destruct (Store.isMenuOpen (store s)); [apply Hmv, movesOnly_refl|].
  pose proof (modulateEngine_movesOnly s) as Hm.
  assert (Est : store (Loop.modulateEngine s) = store s) by apply Hm.
  set (s1 := Loop.modulateEngine s) in *.
  rewrite Est.
  destruct (Store.activeSection (store s)) as [sec|] eqn:Hsec;
    [|apply Hmv, Hm].
  cbv zeta. cbn [Js.state_of].
  destruct (String.eqb_spec (sec_id sec) "walk") as [Hw|Hw].
  - rewrite Hw. cbn [String.eqb Ascii.eqb Bool.eqb negb andb].
    destruct (carMap s !! car_id c) as [g|];
      (apply (Htr s s1); [apply Hmv, Hm|]);
      apply (Hwalk sec _ s1 eq_refl Hw Hm).
  - apply Hmv. apply (movesOnly_trans s s1); [exact Hm|].
    destruct (carMap s !! car_id c) as [g|];
      destruct (sec_id sec =? "drive")%string; cbn [negb andb];
      repeat lazymatch goal with
      | |- movesOnly ?a ?a => apply movesOnly_refl
      | |- movesOnly ?a (Loop.drive _ _ ?x) =>
          apply (movesOnly_trans a x); [|apply drive_movesOnly]
      | |- movesOnly ?a (Loop.explode _ _ ?x) =>
          apply (movesOnly_trans a x); [|apply explode_movesOnly]
      | |- movesOnly ?a (foldl (Loop.lineupCar _ _ _) ?a _) =>
          apply movesOnly_fold; intros; apply lineupCar_movesOnly
      end.
Qed.

Lemma animate_animatesOnly (delta elapsed : Q) (s : Service) :
  animatesOnly s (Js.state_of (Loop.animate delta elapsed s)).
Proof.
  apply (animate_frame animatesOnly).
  - apply movesOnly_animatesOnly.
  - apply animatesOnly_trans.
  - intros sec g a _ _ _. apply walk_animatesOnly.
Qed.

Lemma animate_movesOnly (delta elapsed : Q) (s : Service) :
  (forall sec, Store.activeSection (store s) = Some sec ->
               sec_id sec = "walk" -> charMixer (character s) = None) ->
  movesOnly s (Js.state_of (Loop.animate delta elapsed s)).
Proof.
  intros Hc. apply (animate_frame movesOnly).
  - auto.
  - apply movesOnly_trans.
  - intros sec g a Hsec Hw Ha. apply walk_movesOnly.
    destruct Ha as (_ & _ & _ & _ & _ & _ & _ & _ & _ & _ & _ & _ & ->).
    exact (Hc sec Hsec Hw).
Qed.

(** X22: a frame of the simulation loop, in whatever mode, only moves and
    animates things.  The store (configuration and loading counter), the
    maps of live vehicles, scene objects and environments, the material
    sets, the part classification, the loads in flight and the set of held
    keys are unchanged; no object is created or deleted and no object
    changes its parent, children, kind, name or user data; the engine is
    neither started nor stopped, and the engine loop neither starts nor
    stops playing; the character keeps its registered parts, its actions
    and its model type, and its mixer, if it has one, stays the mixer of
    the same root and only receives further calls.  Unless the frame is in
    the walk section with a mixer on the character, no object changes its
    scale either and the character is unchanged altogether. *)
Theorem animate_only_moves (delta elapsed : Q) (s : Service) :
  let s' := Js.state_of (Loop.animate delta elapsed s) in
  animatesOnly s s'
  /\ ((forall sec, Store.activeSection (store s) = Some sec ->
                  sec_id sec = "walk" -> charMixer (character s) = None) ->
      movesOnly s s').
Proof.
  cbv zeta. split; [apply animate_animatesOnly|apply animate_movesOnly].
Qed.

End FrameFacts.

(** ** The exploded view *)

Lemma foldl_alter_notin {V : Type} (f : V -> Object3D -> Object3D)
  (l : list (nat * V)) (h : Heap) (k : nat) :
  k ∉ l.*1 ->
  foldl (fun h e => alter (f e.2) e.1 h) h l !! k = h !! k.
Proof.
  revert h. induction l as [|[a v] l IH]; intros h Hk; [reflexivity|].
  cbn [foldl]. cbn in Hk. apply not_elem_of_cons in Hk as [Hka Hk].
  rewrite IH by exact Hk. cbn. apply lookup_alter_ne. congruence.
Qed.

Lemma foldl_alter_in {V : Type} (f : V -> Object3D -> Object3D)
  (l : list (nat * V)) (h : Heap) (k : nat) (v : V) :
  NoDup l.*1 -> (k, v) ∈ l ->
  foldl (fun h e => alter (f e.2) e.1 h) h l !! k = f v <$> h !! k.
Proof.
  revert h. induction l as [|[a w] l IH]; intros h Hnd Hin.
  - apply elem_of_nil in Hin. destruct Hin.
  - cbn [foldl]. cbn in Hnd. apply NoDup_cons in Hnd as [Ha Hnd].
    apply elem_of_cons in Hin as [Hin|Hin].
    + injection Hin as <- <-. rewrite foldl_alter_notin by exact Ha.
      cbn. apply lookup_alter_eq.
    + rewrite (IH _ Hnd Hin). cbn. rewrite lookup_alter_ne; [reflexivity|].
      intros <-. apply Ha. apply list_elem_of_fmap. exists (a, v).
      split; [reflexivity|exact Hin].
Qed.

Lemma foldl_alter_map_to_list {V : Type} (f : V -> Object3D -> Object3D)
  (m : gmap nat V) (h : Heap) (k : nat) :
  foldl (fun h e => alter (f e.2) e.1 h) h (map_to_list m) !! k
  = match m !! k with Some v => f v <$> h !! k | None => h !! k end.
Proof.
  destruct (m !! k) as [v|] eqn:E.
  - apply foldl_alter_in; [apply NoDup_fst_map_to_list|].
    apply elem_of_map_to_list, E.
  - apply foldl_alter_notin. intros Hin.
    apply list_elem_of_fmap in Hin as ([k' v] & -> & Hin).
    apply elem_of_map_to_list in Hin. cbn in E. congruence.
Qed.

(** What the snap leaves at a handle. *)
Lemma snapParts_lookup (s : Service) (k : nat) :
  heap (Loop.snapParts s) !! k
  = (fun o =>
       match originalRotations (currentCarParams s) !! k with
       | Some r => set_rotation r
       | None => fun o => o
       end
         (match originalPositions (currentCarParams s) !! k with
          | Some p => set_position p o
          | None => o
          end)) <$> heap s !! k.
Proof.
  unfold Loop.snapParts. cbv zeta. cbn [heap with_heap].
  rewrite (foldl_alter_map_to_list set_rotation).
  rewrite (foldl_alter_map_to_list set_position).
  destruct (originalRotations (currentCarParams s) !! k);
    destruct (originalPositions (currentCarParams s) !! k);
    destruct (heap s !! k); reflexivity.
Qed.

(** ** The part classification *)

Lemma dedupe_fold_spec (arr acc : list nat) :
  NoDup acc ->
  NoDup (foldl (fun acc x => if bool_decide (x ∈ acc) then acc else acc ++ [x])
           acc arr)
  /\ forall x,
       x ∈ foldl (fun acc x => if bool_decide (x ∈ acc) then acc else acc ++ [x])
             acc arr
       <-> x ∈ acc \/ x ∈ arr.
Proof.
  revert acc. induction arr as [|a arr IH]; intros acc Hnd.
  - cbn. split; [exact Hnd|]. intros x. split; [auto|].
    intros [H|H]; [exact H|]. apply elem_of_nil in H. destruct H.
  - cbn [foldl]. case_bool_decide as Ha.
    + destruct (IH acc Hnd) as [N E]. split; [exact N|].
      intros x. rewrite E. rewrite elem_of_cons.
      split; [tauto|]. intros [H|[->|H]]; auto.
    + assert (Hnd' : NoDup (acc ++ [a])).
      { apply NoDup_app. split; [exact Hnd|]. split; [|apply NoDup_singleton].
        intros x Hx Hx'. apply list_elem_of_singleton in Hx'. subst x.
        exact (Ha Hx). }
      destruct (IH (acc ++ [a]) Hnd') as [N E]. split; [exact N|].
      intros x. rewrite E. rewrite elem_of_app, list_elem_of_singleton.
      rewrite elem_of_cons. tauto.
Qed.

Lemma dedupe_spec (arr : list nat) :
  NoDup (Fleet.dedupe arr) /\ forall x, x ∈ Fleet.dedupe arr <-> x ∈ arr.
Proof.
  destruct (dedupe_fold_spec arr [] (NoDup_nil_2)) as [N E].
  split; [exact N|]. intros x. unfold Fleet.dedupe. rewrite E.
  split; [|auto]. intros [H|H]; [|exact H]. apply elem_of_nil in H. destruct H.
Qed.

(** The classification [p] and the heap [h], part way through the
    analysis of a vehicle whose objects were as in [h0] when it began. *)
Definition analysisInv (h0 : Heap) (p : CarParams) (h : Heap) : Prop :=
  (forall obj pos, originalPositions p !! obj = Some pos ->
     o_position <$> h0 !! obj = Some pos)
  /\ (forall obj r, originalRotations p !! obj = Some r ->
        o_rotation <$> h0 !! obj = Some r)
  /\ (forall obj, is_Some (originalPositions p !! obj)
                  <-> is_Some (originalRotations p !! obj))
  /\ (forall obj,
        obj ∈ wheels p ++ bodyParts p ++ hoodParts p ++ chassisParts p ->
        is_Some (originalPositions p !! obj))
  /\ (forall obj, o_position <$> h !! obj = o_position <$> h0 !! obj)
  /\ (forall obj, originalRotations p !! obj = None ->
        o_rotation <$> h !! obj = o_rotation <$> h0 !! obj)
  /\ (forall obj, obj ∈ wheels p ->
        (fun o => e_order (o_rotation o)) <$> h !! obj = Some "YXZ").

(** Recording the transform of an object that has none recorded yet. *)
Lemma analysisInv_record (h0 : Heap) (p : CarParams) (h : Heap) (obj : nat)
  (o : Object3D) :
  analysisInv h0 p h -> h !! obj = Some o ->
  let p' :=
    if bool_decide (is_Some (originalPositions p !! obj)) then p
    else
      mkCarParams (wheels p) (bodyParts p) (hoodParts p) (chassisParts p)
        (<[obj := o_position o]> (originalPositions p))
        (<[obj := o_rotation o]> (originalRotations p)) in
  analysisInv h0 p' h /\ is_Some (originalPositions p' !! obj).
Proof.
  intros (I1 & I2 & I3 & I4 & I5 & I6 & I7) Ho. cbv zeta.
  case_bool_decide as Hrec.
  - split; [|exact Hrec]. repeat split; try assumption; apply I3.
  - assert (Hp : originalPositions p !! obj = None).
    { destruct (originalPositions p !! obj); [exfalso; eauto|reflexivity]. }
    assert (Hr : originalRotations p !! obj = None).
    { destruct (originalRotations p !! obj) eqn:E; [|reflexivity].
      exfalso. apply Hrec, I3. eauto. }
    split; [|cbn; rewrite lookup_insert_eq; eauto].
    unfold analysisInv. cbn.
    split; [|split; [|split; [|split; [|split; [|split]]]]].
    + intros x pos. destruct (decide (obj = x)) as [<-|Hx].
      * rewrite lookup_insert_eq. intros [= <-]. rewrite <- I5, Ho. reflexivity.
      * rewrite lookup_insert_ne by exact Hx. apply I1.
    + intros x r. destruct (decide (obj = x)) as [<-|Hx].
      * rewrite lookup_insert_eq. intros [= <-].
        rewrite <- (I6 obj Hr), Ho. reflexivity.
      * rewrite lookup_insert_ne by exact Hx. apply I2.
    + intros x. destruct (decide (obj = x)) as [<-|Hx].
      * rewrite !lookup_insert_eq. split; eauto.
      * rewrite !lookup_insert_ne by exact Hx. apply I3.
    + intros x Hx. destruct (decide (obj = x)) as [<-|Hne].
      * rewrite lookup_insert_eq. eauto.
      * rewrite lookup_insert_ne by exact Hne. apply I4, Hx.
    + exact I5.
    + intros x. destruct (decide (obj = x)) as [<-|Hne].
      * rewrite lookup_insert_eq. discriminate.
      * rewrite lookup_insert_ne by exact Hne. apply I6.
    + exact I7.
Qed.

(** Listing a recorded object as a body, hood or chassis part. *)
Lemma analysisInv_list (h0 : Heap) (p : CarParams) (h : Heap)
  (b hd ch : list nat) :
  analysisInv h0 p h ->
  (forall x, x ∈ b ++ hd ++ ch -> is_Some (originalPositions p !! x)) ->
  analysisInv h0
    (mkCarParams (wheels p) b hd ch (originalPositions p)
       (originalRotations p)) h.
Proof.
  intros (I1 & I2 & I3 & I4 & I5 & I6 & I7) Hl.
  unfold analysisInv. cbn. repeat split; try assumption; try apply I3.
  intros x Hx. apply elem_of_app in Hx as [Hx|Hx]; [|apply Hl, Hx].
  apply I4. apply elem_of_app. left. exact Hx.
Qed.

(** Listing a recorded object as a wheel, with its rotation order set. *)
Lemma analysisInv_wheel (h0 : Heap) (p : CarParams) (h : Heap) (obj : nat)
  (f : Object3D -> Object3D) :
  analysisInv h0 p h ->
  is_Some (originalPositions p !! obj) ->
  is_Some (h !! obj) ->
  (forall o, o_position (f o) = o_position o) ->
  (forall o, e_order (o_rotation (f o)) = "YXZ") ->
  analysisInv h0
    (mkCarParams (wheels p ++ [obj]) (bodyParts p) (hoodParts p)
       (chassisParts p) (originalPositions p) (originalRotations p))
    (alter f obj h).
Proof.
  intros (I1 & I2 & I3 & I4 & I5 & I6 & I7) Hrec [o Ho] Hfp Hfo.
  unfold analysisInv. cbn.
  split; [exact I1|]. split; [exact I2|]. split; [exact I3|].
  split; [|split; [|split]].
  - intros x Hx. rewrite <- app_assoc in Hx.
    apply elem_of_app in Hx as [Hx|Hx];
      [apply I4, elem_of_app; left; exact Hx|].
    apply elem_of_cons in Hx as [->|Hx]; [exact Hrec|].
    apply I4, elem_of_app. right. exact Hx.
  - intros x. rewrite (alter_preserves o_position) by exact Hfp. apply I5.
  - intros x Hx. destruct (decide (obj = x)) as [<-|Hne].
    + apply I3 in Hrec. rewrite Hx in Hrec. destruct Hrec; discriminate.
    + rewrite lookup_alter_ne by exact Hne. apply I6, Hx.
  - intros x Hx. destruct (decide (obj = x)) as [<-|Hne].
    + rewrite lookup_alter_eq, Ho. cbn. rewrite Hfo. reflexivity.
    + rewrite lookup_alter_ne by exact Hne. apply I7.
      apply elem_of_app in Hx as [Hx|Hx]; [exact Hx|].
      apply list_elem_of_singleton in Hx. congruence.
Qed.

Section AnalysisFacts.
Context {host : Host}.

Lemma analyzePart_analysisInv (h0 : Heap) (group : nat) (center size : Vec3)
  (thresholdY : option Q) (frontZ : Q) (s : Service) (obj : nat) :
  analysisInv h0 (currentCarParams s) (heap s) ->
  let s' := Fleet.analyzePart group center size thresholdY frontZ s obj in
  analysisInv h0 (currentCarParams s') (heap s').
Proof.
  intros I. cbv zeta. unfold Fleet.analyzePart.
  destruct (heap s !! obj) as [o|] eqn:Ho; [|exact I].
  destruct (o_kind o); try exact I;
    (destruct (bool_decide (obj = group)); [exact I|]);
    cbv zeta;
    (destruct (negb _ && negb _); [exact I|]);
    (destruct (analysisInv_record h0 (currentCarParams s) (heap s) obj o I Ho)
       as [I1 R1]);
    cbv zeta in I1, R1;
    set (p1 := if bool_decide (is_Some (originalPositions (currentCarParams s) !! obj))
               then currentCarParams s else _) in *;
    (destruct (Fleet.includes "wheel" _ || Fleet.includes "tire" _
               || Fleet.includes "rim" _ || Fleet.includes "brake" _);
     [ destruct (bool_decide _ || bool_decide _); [|exact I1];
       cbn [currentCarParams with_currentCarParams heap with_heap];
       apply analysisInv_wheel;
         [exact I1|exact R1|rewrite Ho; eauto|reflexivity|reflexivity]
     | repeat match goal with
              | |- context [if ?b then _ else _] => destruct b
              end;
       cbn [currentCarParams with_currentCarParams heap with_heap];
       apply analysisInv_list; try exact I1;
       intros x Hx; rewrite !elem_of_app in Hx;
       destruct I1 as (_ & _ & _ & I4 & _);
       repeat match type of Hx with
              | _ \/ _ => destruct Hx as [Hx|Hx]
              end;
       try (apply list_elem_of_singleton in Hx; subst x; exact R1);
       apply I4; rewrite !elem_of_app; auto ]).
Qed.

End AnalysisFacts.

Section AnalysisResults.
Context {host : Host}.

Lemma analyzeParts_analysisInv (h0 : Heap) (group : nat) (center size : Vec3)
  (thresholdY : option Q) (frontZ : Q) (objs : list nat) (s : Service) :
  analysisInv h0 (currentCarParams s) (heap s) ->
  let s' :=
    foldl (Fleet.analyzePart group center size thresholdY frontZ) s objs in
  analysisInv h0 (currentCarParams s') (heap s').
Proof.
  revert s. induction objs as [|obj objs IH]; intros s I; [exact I|].
  cbn [foldl]. apply IH. apply analyzePart_analysisInv, I.
Qed.

(** X23: what [analyzeCarStructure] leaves in [currentCarParams]: every
    object it lists as a wheel, body, hood or chassis part has a recorded
    position and a recorded rotation; each recorded position and rotation
    is the one the object had when the analysis began; no wheel is listed
    twice; every listed wheel has rotation order [YXZ] afterwards; and the
    analysis moves no object. *)
Theorem analyzeCarStructure_records (group : nat) (s : Service) :
  let s' := Fleet.analyzeCarStructure group s in
  let p := currentCarParams s' in
  (forall obj,
     obj ∈ wheels p ++ bodyParts p ++ hoodParts p ++ chassisParts p ->
     is_Some (originalPositions p !! obj)
     /\ is_Some (originalRotations p !! obj))
  /\ (forall obj pos, originalPositions p !! obj = Some pos ->
        o_position <$> heap s !! obj = Some pos)
  /\ (forall obj r, originalRotations p !! obj = Some r ->
        o_rotation <$> heap s !! obj = Some r)
  /\ NoDup (wheels p)
  /\ (forall obj, obj ∈ wheels p ->
        (fun o => e_order (o_rotation o)) <$> heap s' !! obj = Some "YXZ")
  /\ (forall obj, o_position <$> heap s' !! obj = o_position <$> heap s !! obj).
Proof.
  cbv zeta. unfold Fleet.analyzeCarStructure. cbv zeta.
  cbn [currentCarParams with_currentCarParams heap
       wheels bodyParts hoodParts chassisParts originalPositions
       originalRotations].
  match goal with
  | |- context [foldl (Fleet.analyzePart _ ?c ?z ?t ?f) ?s0 ?l] =>
      pose proof (analyzeParts_analysisInv (heap s) group c z t f l s0) as I;
      set (s1 := foldl (Fleet.analyzePart group c z t f) s0 l) in *
  end.
  cbv zeta in I.
  assert (I0 : analysisInv (heap s) emptyCarParams (heap s)).
  { unfold analysisInv. cbn.
    split; [intros obj pos H; rewrite lookup_empty in H; discriminate|].
    split; [intros obj r H; rewrite lookup_empty in H; discriminate|].
    split; [intros obj; rewrite !lookup_empty;
            split; intros [x Hx]; discriminate|].
    split; [intros obj H; apply elem_of_nil in H; destruct H|].
    split; [reflexivity|]. split; [reflexivity|].
    intros obj H. apply elem_of_nil in H. destruct H. }
  destruct (I I0) as (I1 & I2 & I3 & I4 & I5 & I6 & I7). clear I I0.
  destruct (dedupe_spec (wheels (currentCarParams s1))) as [N E].
  split; [|split; [exact I1|split; [exact I2|split; [exact N|split]]]].
  - intros obj Hobj.
    assert (H : is_Some (originalPositions (currentCarParams s1) !! obj)).
    { apply I4. rewrite elem_of_app in Hobj |- *.
      destruct Hobj as [Hobj|Hobj]; [left; apply E, Hobj|right; exact Hobj]. }
    split; [exact H|apply I3, H].
  - intros obj Hobj. apply I7, E, Hobj.
  - exact I5.
Qed.

Lemma modulateEngine_sim (s : Service) : sim (Loop.modulateEngine s) = sim s.
Proof.
  unfold Loop.modulateEngine. destruct (sounds (audio s)); [|reflexivity].
  destruct (_ && _); reflexivity.
Qed.

Lemma lineup_sim (delta elapsed : Q) (i : Z) (l : list (nat * CarConfig))
  (s : Service) :
  sim (foldl (Loop.lineupCar delta elapsed i) s l) = sim s.
Proof.
  revert s. induction l as [|[n c] l IH]; intros s; [reflexivity|].
  cbn [foldl]. rewrite IH. unfold Loop.lineupCar.
  destruct (carMap s !! car_id c); reflexivity.
Qed.

(** What the snap does to one object. *)
Definition snapObject (p : CarParams) (obj : nat) (o : Object3D) : Object3D :=
  match originalRotations p !! obj with
  | Some r => set_rotation r
  | None => fun o => o
  end
    (match originalPositions p !! obj with
     | Some pos => set_position pos o
     | None => o
     end).

(** A frame in a section other than drive, walk and engineering whose
    explode factor ends at most at [0.01]: the line-up of the fleet, then
    the snap. *)
Lemma closed_frame_heap (delta elapsed : Q) (s : Service)
  (c : CarConfig) (g : nat) (sec : SectionConfig) :
  Store.activeCar (store s) = Some c ->
  carMap s !! car_id c = Some g ->
  Store.isMenuOpen (store s) = false ->
  Store.activeSection (store s) = Some sec ->
  sec_id sec ≠ "drive" -> sec_id sec ≠ "walk" ->
  sec_id sec ≠ "engineering" ->
  Loop.explodeStep false delta (explodeFactor (sim s)) <= 0.01 ->
  exists (s' : Service) (hm : Heap),
    Loop.animate delta elapsed s = Js.Done s'
    /\ (forall obj, is_Some (heap s !! obj) -> is_Some (hm !! obj))
    /\ forall obj,
         heap s' !! obj = snapObject (currentCarParams s) obj <$> hm !! obj.
Proof.
  intros Ha Hg Hm Hsec Hd Hw He Hf.
  unfold Loop.animate. rewrite Ha, Hm.
  destruct (modulateEngine_movesOnly s) as (M1 & _).
  rewrite M1, Hsec. cbv zeta.
  apply String.eqb_neq in Hd, Hw, He. rewrite Hd, Hw, He, Hg.
  cbn [negb andb].
  set (sl := foldl _ (Loop.modulateEngine s) _).
  exists (Loop.explode false delta sl), (heap sl).
  split; [reflexivity|].
  assert (Hl : movesOnly s sl).
  { apply (movesOnly_trans s (Loop.modulateEngine s));
      [apply modulateEngine_movesOnly|].
    apply movesOnly_fold. intros. apply lineupCar_movesOnly. }
  assert (Hsim : sim sl = sim s)
    by (unfold sl; rewrite lineup_sim; apply modulateEngine_sim).
  destruct Hl as (_ & _ & _ & _ & _ & Hp & _ & _ & Hh & _).
  split.
  - intros obj [o Ho]. specialize (Hh obj). rewrite Ho in Hh.
    destruct (heap sl !! obj); [eauto|discriminate Hh].
  - intros obj. unfold Loop.explode. cbv zeta. rewrite Hsim.
    apply Qgt_bool_false in Hf. rewrite Hf. cbn [negb].
    rewrite snapParts_lookup.
    cbn [heap with_sim currentCarParams]. rewrite Hp. reflexivity.
Qed.

(** X24: a frame in a section other than drive, walk and engineering, once
    the explode factor has come down to at most [0.01], ends with every
    object that has a recorded transform exactly at it: its position is
    the recorded position and its rotation, rotation order included, is
    the recorded rotation, whatever the line-up of the fleet did to it
    earlier in the frame. *)
Theorem showroom_frame_restores_parts (delta elapsed : Q) (s : Service)
  (c : CarConfig) (g : nat) (sec : SectionConfig) :
  Store.activeCar (store s) = Some c ->
  carMap s !! car_id c = Some g ->
  Store.isMenuOpen (store s) = false ->
  Store.activeSection (store s) = Some sec ->
  sec_id sec ≠ "drive" -> sec_id sec ≠ "walk" ->
  sec_id sec ≠ "engineering" ->
  Loop.explodeStep false delta (explodeFactor (sim s)) <= 0.01 ->
  exists s', Loop.animate delta elapsed s = Js.Done s'
    /\ forall obj o, heap s !! obj = Some o ->
         exists o', heap s' !! obj = Some o'
           /\ (forall p,
                 originalPositions (currentCarParams s) !! obj = Some p ->
                 o_position o' = p)
           /\ (forall r,
                 originalRotations (currentCarParams s) !! obj = Some r ->
                 o_rotation o' = r).
Proof.
  intros Ha Hg Hm Hsec Hd Hw He Hf.
  destruct (closed_frame_heap delta elapsed s c g sec Ha Hg Hm Hsec Hd Hw He Hf)
    as (s' & hm & E & Hs & Hl).
  exists s'. split; [exact E|]. intros obj o Ho.
  destruct (Hs obj) as [om Hom]; [eauto|].
  exists (snapObject (currentCarParams s) obj om).
  split; [rewrite Hl, Hom; reflexivity|].
  unfold snapObject. split.
  - intros p Ep. rewrite Ep.
    destruct (originalRotations (currentCarParams s) !! obj); reflexivity.
  - intros r Er. rewrite Er. reflexivity.
Qed.

(** The transforms that [analyzeCarStructure] records for the parts it
    lists are the ones the parts had when it began. *)
Lemma analyzeCarStructure_recorded (group : nat) (s : Service) (obj : nat) :
  let p := currentCarParams (Fleet.analyzeCarStructure group s) in
  obj ∈ wheels p ++ bodyParts p ++ hoodParts p ++ chassisParts p ->
  exists o, heap s !! obj = Some o
    /\ originalPositions p !! obj = Some (o_position o)
    /\ originalRotations p !! obj = Some (o_rotation o)
    /\ (obj ∈ wheels p ->
        (fun o => e_order (o_rotation o)) <$>
          heap (Fleet.analyzeCarStructure group s) !! obj = Some "YXZ").
Proof.
  cbv zeta. unfold Fleet.analyzeCarStructure. cbv zeta.
  cbn [currentCarParams with_currentCarParams heap
       wheels bodyParts hoodParts chassisParts originalPositions
       originalRotations].
  match goal with
  | |- context [foldl (Fleet.analyzePart _ ?c ?z ?t ?f) ?s0 ?l] =>
      pose proof (analyzeParts_analysisInv (heap s) group c z t f l s0) as I;
      set (s1 := foldl (Fleet.analyzePart group c z t f) s0 l) in *
  end.
  cbv zeta in I.
  assert (I0 : analysisInv (heap s) emptyCarParams (heap s)).
  { unfold analysisInv. cbn.
    split; [intros x pos H; rewrite lookup_empty in H; discriminate|].
    split; [intros x r H; rewrite lookup_empty in H; discriminate|].
    split; [intros x; rewrite !lookup_empty;
            split; intros [y Hy]; discriminate|].
    split; [intros x H; apply elem_of_nil in H; destruct H|].
    split; [reflexivity|]. split; [reflexivity|].
    intros x H. apply elem_of_nil in H. destruct H. }
  destruct (I I0) as (I1 & I2 & I3 & I4 & I5 & I6 & I7). clear I I0.
  destruct (dedupe_spec (wheels (currentCarParams s1))) as [N E].
  intros Hobj.
  assert (Hp : is_Some (originalPositions (currentCarParams s1) !! obj)).
  { apply I4. rewrite elem_of_app in Hobj |- *.
    destruct Hobj as [Hobj|Hobj]; [left; apply E, Hobj|right; exact Hobj]. }
  pose proof (proj1 (I3 obj) Hp) as Hr.
  destruct Hp as [pos Hp]. destruct Hr as [r Hr].
  pose proof (I1 obj pos Hp) as H1. pose proof (I2 obj r Hr) as H2.
  destruct (heap s !! obj) as [o|]; [|discriminate H1].
  exists o. split; [reflexivity|]. cbn in H1, H2.
  split; [congruence|]. split; [congruence|].
  intros Hw. apply I7, E, Hw.
Qed.

(** X26: the first frame outside drive, walk and engineering after an
    analysis undoes the rotation order that the analysis set on the
    wheels.  [analyzeCarStructure] records a wheel's rotation before it
    sets the order to [YXZ]; the frame, with the explode factor at most
    [0.01], copies the recorded rotation back, so every listed wheel ends
    the frame with the position and rotation, order included, that it had
    before the analysis. *)
Theorem showroom_frame_undoes_wheel_order (delta elapsed : Q) (s0 : Service)
  (group : nat) (c : CarConfig) (g : nat) (sec : SectionConfig) (w : nat) :
  let s := Fleet.analyzeCarStructure group s0 in
  Store.activeCar (store s0) = Some c ->
  carMap s0 !! car_id c = Some g ->
  Store.isMenuOpen (store s0) = false ->
  Store.activeSection (store s0) = Some sec ->
  sec_id sec ≠ "drive" -> sec_id sec ≠ "walk" ->
  sec_id sec ≠ "engineering" ->
  Loop.explodeStep false delta (explodeFactor (sim s0)) <= 0.01 ->
  w ∈ wheels (currentCarParams s) ->
  exists o s' o', heap s0 !! w = Some o
    /\ (fun o => e_order (o_rotation o)) <$> heap s !! w = Some "YXZ"
    /\ Loop.animate delta elapsed s = Js.Done s'
    /\ heap s' !! w = Some o'
    /\ o_position o' = o_position o
    /\ o_rotation o' = o_rotation o.
Proof.
  cbv zeta. intros Ha Hg Hm Hsec Hd Hw He Hf Hin.
  destruct (analyzeCarStructure_registry group s0)
    as ((R1 & R2 & _ & _ & _ & _ & R7) & _).
  destruct (analyzeCarStructure_recorded group s0 w) as (o & Ho & Hp & Hr & Hy).
  { apply elem_of_app. left. exact Hin. }
  destruct (closed_frame_heap delta elapsed
              (Fleet.analyzeCarStructure group s0) c g sec)
    as (s' & hm & E & Hs & Hl);
    rewrite ?R1, ?R2, ?R7; try assumption.
  assert (Hw0 : is_Some (heap (Fleet.analyzeCarStructure group s0) !! w)).
  { specialize (Hy Hin).
    destruct (heap (Fleet.analyzeCarStructure group s0) !! w);
      [eauto|discriminate Hy]. }
  destruct (Hs w Hw0) as [om Hom].
  exists o, s', (snapObject
                   (currentCarParams (Fleet.analyzeCarStructure group s0))
                   w om).
  split; [exact Ho|]. split; [exact (Hy Hin)|]. split; [exact E|].
  split; [rewrite Hl, Hom; reflexivity|].
  unfold snapObject. rewrite Hp, Hr. split; reflexivity.
Qed.

End AnalysisResults.

(** [fleetShown] after a frame of [1/250] s in the engineering section,
    which opens the view to [0.012] and moves the wheels of the active
    vehicle outwards, and the return to the showroom section. *)
Definition leavingEngineering : Service :=
  with_store (Store.mk defaultConfig 0 0 false (0, 0))
    (Js.state_of
       (@Loop.animate exampleHost (1 # 250) 1
          (with_store (Store.mk defaultConfig 0 3 false (0, 0)) fleetShown))).

Lemma showroom_frame_restores_parts_witness :
  (exists o, heap leavingEngineering !! 11%nat = Some o
             /\ vx (o_position o) == -0.0096)
  /\ exists s' o',
       @Loop.animate exampleHost (1 # 15) 2 leavingEngineering = Js.Done s'
       /\ heap s' !! 11%nat = Some o'
       /\ o_position o' = mkVec3 0 0 0.
Proof.
  split.
  { eexists. split; [vm_compute; reflexivity|]. vm_compute. reflexivity. }
  destruct (@showroom_frame_restores_parts exampleHost (1 # 15) 2
              leavingEngineering lfa 7%nat
              (mkSectionConfig "showroom" "DESIGN STUDIO"))
    as (s' & E & H).
  - vm_compute. reflexivity.
  - vm_compute. reflexivity.
  - vm_compute. reflexivity.
  - vm_compute. reflexivity.
  - discriminate.
  - discriminate.
  - discriminate.
  - vm_compute. discriminate.
  - destruct (heap leavingEngineering !! 11%nat) as [o|] eqn:Ho;
      [|vm_compute in Ho; discriminate Ho].
    destruct (H 11%nat o Ho) as (o' & E' & P & _).
    exists s', o'. split; [exact E|]. split; [exact E'|].
    apply P. vm_compute. reflexivity.
Defined.

(** [fleetShown] with the rotation order of one wheel of the first vehicle
    back at the default. *)
Definition wheelReset : Service :=
  with_heap
    (alter (set_rotation (mkEuler 0 0 (355 # 226) "XYZ")) 11%nat
       (heap fleetShown))
    fleetShown.

Lemma showroom_frame_undoes_wheel_order_witness :
  exists s' o',
    @Loop.animate exampleHost (1 # 60) 1
      (@Fleet.analyzeCarStructure exampleHost 7%nat wheelReset) = Js.Done s'
    /\ heap s' !! 11%nat = Some o'
    /\ e_order (o_rotation o') = "XYZ".
Proof.
  destruct (@showroom_frame_undoes_wheel_order exampleHost (1 # 60) 1
              wheelReset 7%nat lfa 7%nat
              (mkSectionConfig "showroom" "DESIGN STUDIO") 11%nat)
    as (o & s' & o' & H1 & _ & H3 & H4 & _ & H6).
  - vm_compute. reflexivity.
  - vm_compute. reflexivity.
  - vm_compute. reflexivity.
  - vm_compute. reflexivity.
  - discriminate.
  - discriminate.
  - discriminate.
  - vm_compute. discriminate.
  - apply (bool_decide_unpack _). vm_compute. exact I.
  - exists s', o'. split; [exact H3|]. split; [exact H4|].
    rewrite H6. vm_compute in H1. injection H1 as <-. reflexivity.
Defined.

(** ** The completion of a vehicle load *)

Lemma add_attaches (parent child : nat) (h : Heap) :
  parent ≠ child -> is_Some (h !! child) ->
  Obj.add parent child h !! child ≫= o_parent = Some parent.
Proof.
  intros Hne Hc. unfold Obj.add.
  rewrite bool_decide_eq_false_2 by exact Hne.
  set (h1 := match h !! child ≫= o_parent with
             | Some q => Obj.remove q child h
             | None => h
             end).
  assert (H1 : is_Some (h1 !! child)).
  { unfold h1. destruct (h !! child ≫= o_parent) as [q|]; [|exact Hc].
    apply (keepsUserData_url _ _ child (keepsUserData_remove q child h) Hc). }
  rewrite lookup_alter_eq, lookup_alter_ne by exact Hne.
  destruct H1 as [x ->]. reflexivity.
Qed.

Section CarLoadFacts.
Context {host : Host}.

Lemma analyzePart_parent (group : nat) (center size : Vec3)
  (thresholdY : option Q) (frontZ : Q) (s : Service) (obj k : nat) :
  o_parent <$>
    heap (Fleet.analyzePart group center size thresholdY frontZ s obj) !! k
  = o_parent <$> heap s !! k.
Proof.
  unfold Fleet.analyzePart.
  repeat match goal with
         | |- context [match ?x with _ => _ end] => destruct x
         end;
    first [reflexivity
          |cbn [heap with_heap with_currentCarParams];
           apply alter_preserves; reflexivity].
Qed.

Lemma analyzeParts_parent (group : nat) (center size : Vec3)
  (thresholdY : option Q) (frontZ : Q) (l : list nat) (t : Service)
  (k : nat) :
  o_parent <$>
    heap (foldl (Fleet.analyzePart group center size thresholdY frontZ) t l)
      !! k
  = o_parent <$> heap t !! k.
Proof.
  revert t. induction l as [|x l IH]; intros t; [reflexivity|].
  cbn [foldl]. rewrite IH. apply analyzePart_parent.
Qed.

Lemma analyzeCarStructure_parent (group : nat) (s : Service) (k : nat) :
  o_parent <$> heap (Fleet.analyzeCarStructure group s) !! k
  = o_parent <$> heap s !! k.
Proof.
  unfold Fleet.analyzeCarStructure. cbv zeta.
  cbn [heap with_currentCarParams]. rewrite analyzeParts_parent.
  reflexivity.
Qed.

Lemma onCarLoaded_completion_holds (c : CarConfig) (group model : nat)
  (s : Service) :
  let o := Fleet.onCarLoaded c group model s in
  let s' := Js.state_of o in
  carMap s' = carMap s
  /\ pending s' = pending s
  /\ is_Some (materialsMap s' !! car_id c)
  /\ (group ≠ model -> is_Some (heap s !! model) ->
      heap s' !! model ≫= o_parent = Some group)
  /\ (Js.threw o = true <-> Store.activeCar (store s) = None)
  /\ store s'
     = if Js.threw o then store s else Store.decrementLoading (store s).
Proof.
  cbv zeta. unfold Fleet.onCarLoaded. cbv zeta.
  set (s1 := with_heap _ s).
  destruct (getOrCreateMaterials_registry (car_id c) s1)
    as ((G1 & G2 & _ & _ & G5 & _ & _) & Gh & Gm & _).
  destruct (Fleet.getOrCreateMaterials (car_id c) s1) as [m s2].
  cbn [snd] in G1, G2, G5, Gh, Gm.
  set (s3 := with_heap _ s2).
  assert (R3 : store s3 = store s /\ carMap s3 = carMap s
               /\ pending s3 = pending s
               /\ materialsMap s3 = materialsMap s2).
  { unfold s3. cbn. rewrite G1, G2, G5. repeat split. }
  destruct R3 as (R1 & R2 & R4 & R5).
  assert (P3 : group ≠ model -> is_Some (heap s !! model) ->
               heap s3 !! model ≫= o_parent = Some group).
  { intros Hne Hm. unfold s3. cbn [heap with_heap].
    apply add_attaches; [exact Hne|].
    assert (Hp : forall k, o_parent <$>
        foldl (fun h child =>
          alter (fun o =>
            match o_kind o with
            | KMesh => set_ud_origPos (Some (o_position o)) o
            | _ => o
            end) child h) (heap s2) (Obj.subtree (heap s2) model) !! k
        = o_parent <$> heap s2 !! k).
    { intros k. apply (foldl_heap_preserves o_parent).
      intros h a j. apply alter_preserves. intros o.
      destruct (o_kind o); reflexivity. }
    specialize (Hp model). destruct Hm as [x Hx].
    assert (Hq : o_parent <$> heap s2 !! model = Some (o_parent x)).
    { rewrite Gh. unfold s1. cbn [heap with_heap].
      rewrite (alter_preserves o_parent) by reflexivity.
      rewrite Hx. reflexivity. }
    rewrite Hq in Hp.
    match type of Hp with o_parent <$> ?t = _ => destruct t end;
      [eauto|discriminate Hp]. }
  unfold Fleet.analyzeIfActive.
  destruct (Store.activeCar (store s3)) as [a|] eqn:Ha; rewrite R1 in Ha;
    rewrite Ha.
  - assert (Hres : exists s4,
      (if (car_id a =? car_id c)%string
       then Js.Done (Fleet.analyzeCarStructure group s3)
       else Js.Done s3) = Js.Done s4
      /\ sameRegistry s3 s4 /\ materialsMap s4 = materialsMap s3
      /\ forall k, o_parent <$> heap s4 !! k = o_parent <$> heap s3 !! k).
    { destruct (car_id a =? car_id c)%string.
      - eexists. split; [reflexivity|].
        destruct (analyzeCarStructure_registry group s3) as [A B].
        split; [exact A|]. split; [exact B|].
        intros k. apply analyzeCarStructure_parent.
      - exists s3. split; [reflexivity|].
        split; [apply sameRegistry_refl|]. split; reflexivity. }
    destruct Hres as (s4 & E4 & (Q1 & Q2 & _ & _ & Q5 & _ & _) & Qm & Qp).
    rewrite E4. cbn [andThen Js.state_of Js.threw].
    cbn [carMap pending materialsMap heap store with_store].
    rewrite Q2, Q5, Qm, R2, R4, R5, Q1, R1.
    split; [reflexivity|]. split; [reflexivity|]. split; [exact Gm|].
    split.
    + intros Hne Hm. specialize (P3 Hne Hm). specialize (Qp model).
      destruct (heap s3 !! model) as [x3|]; [|discriminate P3].
      destruct (heap s4 !! model) as [x4|]; [|discriminate Qp].
      cbn in *. congruence.
    + split; [|reflexivity]. split; discriminate.
  - cbn [andThen Js.state_of Js.threw].
    rewrite R2, R4, R5, R1.
    split; [reflexivity|]. split; [reflexivity|]. split; [exact Gm|].
    split; [exact P3|]. split; [|reflexivity]. split; reflexivity.
Qed.

(** X25: the completion handler of a vehicle load checks neither that
    the vehicle is still in the fleet nor that the group is still the one
    registered for it.  Whatever the maps hold, it attaches the model to
    the group the load was started for and makes sure that a material set
    exists for the vehicle's id; it leaves [carMap] and the loads in flight
    unchanged.  It throws exactly when the store has no active vehicle,
    and then the loading counter is not decremented; otherwise the counter
    is decremented once. *)
Theorem onCarLoaded_completion (c : CarConfig) (group model : nat)
  (s : Service) :
  let o := Fleet.onCarLoaded c group model s in
  let s' := Js.state_of o in
  carMap s' = carMap s
  /\ pending s' = pending s
  /\ is_Some (materialsMap s' !! car_id c)
  /\ (group ≠ model -> is_Some (heap s !! model) ->
      heap s' !! model ≫= o_parent = Some group)
  /\ (Js.threw o = true <-> Store.activeCar (store s) = None)
  /\ store s'
     = if Js.threw o then store s else Store.decrementLoading (store s).
Proof.
  exact (onCarLoaded_completion_holds c group model s).
Qed.

End CarLoadFacts.

(** ** The exploded view opens and closes *)

Lemma explodeStep_approaches (isTechMode : bool) (delta factor : Q) :
  let target := if isTechMode then 1 else 0 in
  let factor' := Loop.explodeStep isTechMode delta factor in
  factor' - target == (1 - 3 * delta) * (factor - target)
  /\ (0 <= delta -> 3 * delta <= 1 -> 0 <= factor -> factor <= 1 ->
      0 <= factor' <= 1
      /\ Js.Math_abs (factor' - target) <= Js.Math_abs (factor - target)).
Proof.
  cbv zeta. unfold Loop.explodeStep, Js.lerp.
  assert (E : (1 - delta * 3) * factor
              + delta * 3 * (if isTechMode then 1 else 0)
              - (if isTechMode then 1 else 0)
              == (1 - 3 * delta) * (factor - (if isTechMode then 1 else 0)))
    by ring.
  split; [exact E|]. intros H0 H1 H2 H3.
  split.
  - destruct isTechMode; nra.
  - destruct (Math_abs_cases
                ((1 - delta * 3) * factor
                 + delta * 3 * (if isTechMode then 1 else 0)
                 - (if isTechMode then 1 else 0)))
      as [[A1 ->]|[A1 ->]];
      destruct (Math_abs_cases (factor - (if isTechMode then 1 else 0)))
        as [[A2 ->]|[A2 ->]]; destruct isTechMode; nra.
Qed.

Lemma explode_explodeFactor (isTechMode : bool) (delta : Q) (s : Service) :
  explodeFactor (sim (Loop.explode isTechMode delta s))
  = Loop.explodeStep isTechMode delta (explodeFactor (sim s)).
Proof.
  unfold Loop.explode. cbv zeta.
  destruct (Fleet.Qgt_bool _ _); [reflexivity|].
  destruct isTechMode; reflexivity.
Qed.

(** The frames of a session: the frame time and the elapsed time of
    each. *)
Definition frames {host : Host} (fs : list (Q * Q)) (s : Service) : Service :=
  foldl (fun s f => Js.state_of (Loop.animate f.1 f.2 s)) s fs.

(** The explode factor after frames of durations [ds] that close the
    view. *)
Definition closeFrames (ds : list Q) (factor : Q) : Q :=
  foldl (fun f d => Loop.explodeStep false d f) factor ds.

Definition totalTime (ds : list Q) : Q := foldr Qplus 0 ds.

Lemma totalTime_nonneg (ds : list Q) :
  Forall (fun d => 0 <= d /\ 3 * d <= 1) ds -> 0 <= totalTime ds.
Proof.
  induction 1 as [|d ds [H0 H1] _ IH].
  - unfold totalTime. cbn [foldr]. lra.
  - change (0 <= d + totalTime ds). lra.
Qed.

Lemma closeFrames_bound (ds : list Q) (factor : Q) :
  Forall (fun d => 0 <= d /\ 3 * d <= 1) ds -> 0 <= factor ->
  0 <= closeFrames ds factor
  /\ closeFrames ds factor * (1 + 3 * totalTime ds) <= factor.
Proof.
  intros Hds. revert factor.
  induction Hds as [|d ds [H0 H1] Hds IH]; intros factor Hf.
  - unfold closeFrames, totalTime. cbn [foldl foldr]. split; [exact Hf|]. lra.
  - change (closeFrames (d :: ds) factor)
      with (closeFrames ds (Loop.explodeStep false d factor)).
    change (totalTime (d :: ds)) with (d + totalTime ds).
    pose proof (totalTime_nonneg ds Hds) as HT.
    assert (E : Loop.explodeStep false d factor == (1 - 3 * d) * factor)
      by (unfold Loop.explodeStep, Js.lerp; ring).
    assert (H1f : 0 <= Loop.explodeStep false d factor) by (rewrite E; nra).
    destruct (IH _ H1f) as [R0 R1].
    set (r := closeFrames ds (Loop.explodeStep false d factor)) in *.
    set (T := totalTime ds) in *.
    split; [exact R0|].
    assert (Hr : r <= factor) by nra.
    nra.
Qed.

Section ExplodeFacts.
Context {host : Host}.

Lemma animateCharacter_sim (delta time moveSpeed : Q) (s : Service) :
  sim (Loop.animateCharacter delta time moveSpeed s) = sim s
  /\ audio (Loop.animateCharacter delta time moveSpeed s) = audio s.
Proof.
  unfold Loop.animateCharacter. cbv zeta.
  destruct (charMixer (character s)); [split; reflexivity|].
  destruct (_ && _); [split; reflexivity|].
  destruct (Fleet.Qgt_bool moveSpeed 0.1); split; reflexivity.
Qed.

Lemma walk_explodeFactor (delta elapsed : Q) (g : option nat) (s : Service) :
  explodeFactor (sim (Loop.walk delta elapsed g s)) = explodeFactor (sim s).
Proof.
  unfold Loop.walk. cbv zeta.
  rewrite (proj1 (animateCharacter_sim _ _ _ _)). reflexivity.
Qed.

(** The frames that update the explode factor: menu closed, a section
    other than drive and walk, the active vehicle's group live. *)
Lemma animate_explodeFactor (delta elapsed : Q) (s : Service)
  (c : CarConfig) (g : nat) (sec : SectionConfig) :
  Store.activeCar (store s) = Some c ->
  carMap s !! car_id c = Some g ->
  Store.isMenuOpen (store s) = false ->
  Store.activeSection (store s) = Some sec ->
  sec_id sec ≠ "drive" -> sec_id sec ≠ "walk" ->
  explodeFactor (sim (Js.state_of (Loop.animate delta elapsed s)))
  = Loop.explodeStep (sec_id sec =? "engineering")%string delta
      (explodeFactor (sim s)).
Proof.
  intros Ha Hg Hm Hsec Hd Hw.
  unfold Loop.animate. rewrite Ha, Hm.
  destruct (modulateEngine_movesOnly s) as (M1 & _).
  rewrite M1, Hsec. cbv zeta.
  apply String.eqb_neq in Hd, Hw. rewrite Hd, Hw, Hg.
  cbn [negb andb Js.state_of].
  rewrite explode_explodeFactor, lineup_sim, modulateEngine_sim. reflexivity.
Qed.

(** The frames that leave the explode factor alone. *)
Definition keepsExplodeFactor (s : Service) : Prop :=
  Store.activeCar (store s) = None
  \/ Store.isMenuOpen (store s) = true
  \/ Store.activeSection (store s) = None
  \/ (exists sec, Store.activeSection (store s) = Some sec
                  /\ (sec_id sec = "drive" \/ sec_id sec = "walk"))
  \/ (exists c, Store.activeCar (store s) = Some c
                /\ carMap s !! car_id c = None).

Lemma animate_explodeFactor_kept (delta elapsed : Q) (s : Service) :
  keepsExplodeFactor s ->
  explodeFactor (sim (Js.state_of (Loop.animate delta elapsed s)))
  = explodeFactor (sim s).
Proof.
  intros H. unfold Loop.animate.
  destruct (Store.activeCar (store s)) as [c|] eqn:Ha; [|reflexivity].
  destruct (Store.isMenuOpen (store s)) eqn:Hm; [reflexivity|].
  destruct (modulateEngine_movesOnly s) as (M1 & _).
  rewrite M1.
  destruct (Store.activeSection (store s)) as [sec|] eqn:Hsec;
    [|cbn [Js.state_of]; rewrite modulateEngine_sim; reflexivity].
  cbv zeta. cbn [Js.state_of].
  assert (Hk : (sec_id sec = "drive" \/ sec_id sec = "walk")
               \/ carMap s !! car_id c = None).
  { destruct H as [H|[H|[H|[(sec' & E & H)|(c' & E & H)]]]].
    - rewrite Ha in H. discriminate H.
    - rewrite Hm in H. discriminate H.
    - rewrite Hsec in H. discriminate H.
    - rewrite Hsec in E. injection E as <-. left. exact H.
    - rewrite Ha in E. injection E as <-. right. exact H. }
  destruct (String.eqb_spec (sec_id sec) "walk") as [Ew|Ew].
  - rewrite Ew. cbn [String.eqb Ascii.eqb Bool.eqb negb andb].
    rewrite walk_explodeFactor.
    destruct (carMap s !! car_id c); rewrite modulateEngine_sim; reflexivity.
  - destruct (String.eqb_spec (sec_id sec) "drive") as [Ed|Ed].
    + cbn [negb andb].
      destruct (carMap s !! car_id c) as [g|];
        [|rewrite modulateEngine_sim; reflexivity].
      unfold Loop.drive. cbv zeta. cbn [sim with_heap with_sim explodeFactor].
      rewrite modulateEngine_sim. reflexivity.
    + destruct Hk as [[Hk|Hk]|Hk]; [contradiction|contradiction|].
      rewrite Hk. cbn [negb andb].
      rewrite lineup_sim, modulateEngine_sim. reflexivity.
Qed.

(** X21: what a frame does to the explode factor.  With the menu closed,
    in a section other than drive and walk and with the active vehicle's
    group live, the frame moves the factor towards its target ([1] in the
    engineering section, [0] otherwise) by the factor [1 - 3 * delta]; on
    a frame of at most a third of a second the factor therefore stays
    between [0] and [1] once it is there and never passes the target.  In
    every other frame (no active vehicle or section, menu open, drive or
    walk section, no live group for the active vehicle) the factor is
    left as it was. *)
Theorem explodeFactor_approaches_target (delta elapsed : Q) (s : Service) :
  let factor := explodeFactor (sim s) in
  let factor' :=
    explodeFactor (sim (Js.state_of (Loop.animate delta elapsed s))) in
  (forall c g sec,
     Store.activeCar (store s) = Some c ->
     carMap s !! car_id c = Some g ->
     Store.isMenuOpen (store s) = false ->
     Store.activeSection (store s) = Some sec ->
     sec_id sec ≠ "drive" -> sec_id sec ≠ "walk" ->
     let target := if (sec_id sec =? "engineering")%string then 1 else 0 in
     factor' - target == (1 - 3 * delta) * (factor - target)
     /\ (0 <= delta -> 3 * delta <= 1 -> 0 <= factor -> factor <= 1 ->
         0 <= factor' <= 1
         /\ Js.Math_abs (factor' - target) <= Js.Math_abs (factor - target)))
  /\ (keepsExplodeFactor s -> factor' = factor).
Proof.
  cbv zeta. split; [|apply animate_explodeFactor_kept].
  intros c g sec Ha Hg Hm Hsec Hd Hw.
  rewrite (animate_explodeFactor delta elapsed s c g sec Ha Hg Hm Hsec Hd Hw).
  apply explodeStep_approaches.
Qed.

(** The conditions under which a frame closes the exploded view. *)
Definition closing (s : Service) (c : CarConfig) (g : nat)
  (sec : SectionConfig) : Prop :=
  Store.activeCar (store s) = Some c
  /\ carMap s !! car_id c = Some g
  /\ Store.isMenuOpen (store s) = false
  /\ Store.activeSection (store s) = Some sec
  /\ sec_id sec ≠ "drive" /\ sec_id sec ≠ "walk"
  /\ sec_id sec ≠ "engineering".

Lemma frames_animatesOnly (fs : list (Q * Q)) (s : Service) :
  animatesOnly s (frames fs s).
Proof.
  revert s. induction fs as [|f fs IH]; intros s;
    [apply movesOnly_animatesOnly, movesOnly_refl|].
  unfold frames. cbn [foldl].
  apply (animatesOnly_trans s (Js.state_of (Loop.animate f.1 f.2 s)));
    [apply animate_animatesOnly|apply IH].
Qed.

Lemma closing_animatesOnly (s s' : Service) (c : CarConfig) (g : nat)
  (sec : SectionConfig) :
  animatesOnly s s' -> closing s c g sec -> closing s' c g sec.
Proof.
  intros (A1 & _ & _ & A4 & _) H. unfold closing. rewrite A1, A4. exact H.
Qed.

Lemma frames_explodeFactor (fs : list (Q * Q)) (s : Service)
  (c : CarConfig) (g : nat) (sec : SectionConfig) :
  closing s c g sec ->
  explodeFactor (sim (frames fs s))
  = closeFrames fs.*1 (explodeFactor (sim s)).
Proof.
  revert s. induction fs as [|f fs IH]; intros s Hc; [reflexivity|].
  unfold frames, closeFrames. cbn [foldl fmap list_fmap].
  fold (frames fs (Js.state_of (Loop.animate f.1 f.2 s))).
  rewrite IH
    by (apply (closing_animatesOnly s); [apply animate_animatesOnly|exact Hc]).
  destruct Hc as (Ha & Hg & Hm & Hsec & Hd & Hw & He).
  rewrite (animate_explodeFactor f.1 f.2 s c g sec Ha Hg Hm Hsec Hd Hw).
  apply String.eqb_neq in He. rewrite He. reflexivity.
Qed.

(** X27: outside drive, walk and engineering the exploded view always
    closes.  Over frames of the simulation loop of at most a third of a
    second each, of total duration [T], with the menu closed and the
    active vehicle's group live, an explode factor that starts at
    [f >= 0] ends at most at [f / (1 + 3 * T)] and never below [0]; so
    from any factor up to [1] it is at most [0.01] once the frames add up
    to 33 seconds (a coarse bound), and the last of those frames leaves
    every object that has a recorded transform exactly at it. *)
Theorem exploded_view_closes (fs : list (Q * Q)) (s : Service)
  (c : CarConfig) (g : nat) (sec : SectionConfig) :
  Store.activeCar (store s) = Some c ->
  carMap s !! car_id c = Some g ->
  Store.isMenuOpen (store s) = false ->
  Store.activeSection (store s) = Some sec ->
  sec_id sec ≠ "drive" -> sec_id sec ≠ "walk" ->
  sec_id sec ≠ "engineering" ->
  Forall (fun f => 0 <= f.1 /\ 3 * f.1 <= 1) fs ->
  0 <= explodeFactor (sim s) ->
  let s' := frames fs s in
  let T := totalTime fs.*1 in
  (0 <= explodeFactor (sim s')
   /\ explodeFactor (sim s') * (1 + 3 * T) <= explodeFactor (sim s))
  /\ (explodeFactor (sim s) <= 1 -> 33 <= T ->
      explodeFactor (sim s') <= 0.01
      /\ forall obj o, heap s !! obj = Some o ->
           exists o', heap s' !! obj = Some o'
             /\ (forall p,
                   originalPositions (currentCarParams s) !! obj = Some p ->
                   o_position o' = p)
             /\ (forall r,
                   originalRotations (currentCarParams s) !! obj = Some r ->
                   o_rotation o' = r)).
Proof.
  intros Ha Hg Hm Hsec Hd Hw He Hfs Hf. cbv zeta.
  assert (Hc : closing s c g sec) by (repeat split; assumption).
  assert (Hds : Forall (fun d => 0 <= d /\ 3 * d <= 1) fs.*1)
    by (apply Forall_fmap; exact Hfs).
  rewrite (frames_explodeFactor fs s c g sec Hc).
  destruct (closeFrames_bound fs.*1 _ Hds Hf) as [R0 R1].
  split; [split; assumption|].
  intros H1 HT.
  assert (R2 : closeFrames fs.*1 (explodeFactor (sim s)) <= 0.01).
  { set (r := closeFrames _ _) in *. set (T := totalTime _) in *. nra. }
  split; [exact R2|].
  destruct (decide (fs = [])) as [->|Hne].
  { unfold totalTime in HT. cbn in HT. lra. }
  destruct (exists_last Hne) as (fs0 & f & ->).
  unfold frames. rewrite foldl_app. cbn [foldl].
  fold (frames fs0 s). set (sm := frames fs0 s).
  pose proof (frames_animatesOnly fs0 s) as Hsm. fold sm in Hsm.
  destruct (closing_animatesOnly s sm c g sec Hsm Hc)
    as (Ha' & Hg' & Hm' & Hsec' & _).
  assert (Hf' : Loop.explodeStep false f.1 (explodeFactor (sim sm)) <= 0.01).
  { revert R2. rewrite fmap_app. unfold closeFrames. rewrite foldl_app.
    cbn [foldl fmap list_fmap].
    fold (closeFrames fs0.*1 (explodeFactor (sim s))).
    unfold sm. rewrite (frames_explodeFactor fs0 s c g sec Hc). auto. }
  destruct (closed_frame_heap f.1 f.2 sm c g sec
              Ha' Hg' Hm' Hsec' Hd Hw He Hf') as (s' & hm & E & Hs & Hl).
  rewrite E. cbn [Js.state_of].
  destruct Hsm as (_ & _ & _ & _ & _ & Hp & _ & _ & Hh & _).
  intros obj o Ho.
  assert (Hom : is_Some (hm !! obj)).
  { apply Hs. specialize (Hh obj). rewrite Ho in Hh.
    destruct (heap sm !! obj); [eauto|discriminate Hh]. }
  destruct Hom as [om Hom].
  exists (snapObject (currentCarParams sm) obj om).
  split; [rewrite Hl, Hom; reflexivity|].
  unfold snapObject. rewrite Hp. split.
  - intros p Ep. rewrite Ep.
    destruct (originalRotations (currentCarParams s) !! obj); reflexivity.
  - intros r Er. rewrite Er. reflexivity.
Qed.

End ExplodeFacts.

(** [fleetShown] in the engineering section, the view half open. *)
Definition halfOpen : Service :=
  with_sim (mkSim 0 0 0 0.5 0 ∅)
    (with_store (Store.mk defaultConfig 0 3 false (0, 0)) fleetShown).

Lemma explodeFactor_approaches_target_witness :
  explodeFactor (sim (Js.state_of (@Loop.animate exampleHost (1 # 60) 1
                                     halfOpen))) == 0.525
  /\ explodeFactor (sim (Js.state_of (@Loop.animate exampleHost (1 # 60) 1
                                        halfOpen))) <= 1.
Proof.
  split; [reflexivity|].
  refine (proj2 (proj1 (proj2 (proj1
            (@explodeFactor_approaches_target exampleHost (1 # 60) 1 halfOpen)
            lfa 7%nat (mkSectionConfig "engineering" "TECH") _ _ _ _ _ _)
            _ _ _ _))).
  - vm_compute. reflexivity.
  - vm_compute. reflexivity.
  - vm_compute. reflexivity.
  - vm_compute. reflexivity.
  - discriminate.
  - discriminate.
  - vm_compute. discriminate.
  - vm_compute. discriminate.
  - vm_compute. discriminate.
  - vm_compute. discriminate.
Defined.

(** [fleetShown] back in the showroom section with the view fully open. *)
Definition fullyOpen : Service := with_sim (mkSim 0 0 0 1 0 ∅) fleetShown.

Lemma exploded_view_closes_witness :
  explodeFactor (sim (@frames exampleHost (replicate 7 (1 # 6, 1)) fullyOpen))
  == 1 # 128
  /\ explodeFactor
       (sim (@frames exampleHost (replicate 198 (1 # 6, 1)) fullyOpen))
     <= 0.01.
Proof.
  split; [vm_compute; reflexivity|].
  refine (proj1 (proj2 (@exploded_view_closes exampleHost
            (replicate 198 (1 # 6, 1)) fullyOpen lfa 7%nat
            (mkSectionConfig "showroom" "DESIGN STUDIO")
            _ _ _ _ _ _ _ _ _) _ _)).
  - vm_compute. reflexivity.
  - vm_compute. reflexivity.
  - vm_compute. reflexivity.
  - vm_compute. reflexivity.
  - discriminate.
  - discriminate.
  - discriminate.
  - apply Forall_replicate. split; vm_compute; discriminate.
  - vm_compute. discriminate.
  - vm_compute. discriminate.
  - vm_compute. discriminate.
Defined.

(** ** What a frame moves *)

(** Where an object is, how it is turned and how it is scaled. *)
Definition placement (o : Object3D) : Vec3 * Euler * Vec3 :=
  (o_position o, o_rotation o, o_scale o).

Lemma alter_other_placement (f : Object3D -> Object3D) (k g : nat)
  (h : Heap) :
  (k ≠ g \/ forall o, placement (f o) = placement o) ->
  placement <$> alter f k h !! g = placement <$> h !! g.
Proof.
  intros [Hk|Hf]; [rewrite lookup_alter_ne by exact Hk; reflexivity|].
  apply alter_preserves, Hf.
Qed.

(** The subtree of a root depends on the children lists only. *)
Lemma traverse_ext (fuel : nat) (h h' : Heap) (root : nat) :
  (forall k, o_children <$> h' !! k = o_children <$> h !! k) ->
  Obj.traverse fuel h' root = Obj.traverse fuel h root.
Proof.
  intros H. revert root. induction fuel as [|n IH]; intros root;
    [reflexivity|].
  cbn [Obj.traverse]. f_equal.
  assert (E : match h' !! root with Some o => o_children o | None => [] end
              = match h !! root with Some o => o_children o | None => [] end).
  { specialize (H root). destruct (h' !! root), (h !! root); cbn in H;
      congruence. }
  rewrite E. apply flat_map_ext. exact IH.
Qed.

Lemma subtree_ext (h h' : Heap) (root : nat) :
  (forall k, o_children <$> h' !! k = o_children <$> h !! k) ->
  Obj.subtree h' root = Obj.subtree h root.
Proof.
  intros H. unfold Obj.subtree.
  assert (Hd : dom h' = dom h).
  { apply set_eq. intros k. rewrite !elem_of_dom. specialize (H k).
    destruct (h' !! k), (h !! k); cbn in H; try discriminate H;
      split; intros [x Hx]; try discriminate Hx; eauto. }
  rewrite <- (size_dom h'), <- (size_dom h), Hd.
  apply traverse_ext, H.
Qed.

Lemma onCharMesh_other (name : string) (f : Object3D -> Object3D)
  (c : Character) (h : Heap) (k : nat) :
  (forall n, charMeshes c !! n ≠ Some k) ->
  Loop.onCharMesh name f c h !! k = h !! k.
Proof.
  intros H. unfold Loop.onCharMesh.
  destruct (charMeshes c !! name) as [obj|] eqn:E; [|reflexivity].
  apply lookup_alter_ne. intros ->. exact (H name E).
Qed.

Section FootprintFacts.
Context {host : Host}.

Lemma mixerUpdate_other (m : Mixer) (h : Heap) (k : nat) :
  k ∉ Obj.subtree h (mixerRoot m) ->
  Loop.mixerUpdate m h !! k = h !! k.
Proof.
  unfold Loop.mixerUpdate.
  set (F := fun (h' : Heap) (node : nat) =>
              match AnimationMixer_update m h node with
              | Some (p, r, sc) => alter _ node h'
              | None => h'
              end).
  assert (G : forall l h', k ∉ l -> foldl F h' l !! k = h' !! k).
  { induction l as [|a l IH]; intros h' Hk; [reflexivity|].
    apply not_elem_of_cons in Hk as [Hka Hk]. cbn [foldl].
    rewrite IH by exact Hk. unfold F.
    destruct (AnimationMixer_update m h a) as [[[p r] sc]|]; [|reflexivity].
    apply lookup_alter_ne. congruence. }
  apply G.
Qed.

(** The animation of the character touches the character's group, its
    registered parts and the nodes under the root of its mixer. *)
Lemma animateCharacter_other (delta time moveSpeed : Q) (s : Service)
  (k : nat) :
  k ≠ charGroup ->
  (forall n, charMeshes (character s) !! n ≠ Some k) ->
  (forall m, charMixer (character s) = Some m ->
             k ∉ Obj.subtree (heap s) (mixerRoot m)) ->
  heap (Loop.animateCharacter delta time moveSpeed s) !! k = heap s !! k.
Proof.
  intros Hk Hn Hm. unfold Loop.animateCharacter. cbv zeta.
  destruct (charMixer (character s)) as [m|].
  - cbn [heap with_heap with_character mixerRoot].
    apply mixerUpdate_other. exact (Hm m eq_refl).
  - destruct (_ && _).
    + cbn [heap with_heap]. apply lookup_alter_ne. congruence.
    + destruct (Fleet.Qgt_bool moveSpeed 0.1); cbn [heap with_heap];
        rewrite !onCharMesh_other by exact Hn; reflexivity.
Qed.

Lemma walk_placement (delta elapsed : Q) (g : option nat) (s : Service)
  (k : nat) :
  k ≠ charGroup ->
  (forall n, charMeshes (character s) !! n ≠ Some k) ->
  (forall m, charMixer (character s) = Some m ->
             k ∉ Obj.subtree (heap s) (mixerRoot m)) ->
  placement <$> heap (Loop.walk delta elapsed g s) !! k
  = placement <$> heap s !! k.
Proof.
  intros Hk Hn Hm. unfold Loop.walk. cbv zeta.
  rewrite animateCharacter_other; cbn [heap with_heap with_sim character];
    [|exact Hk|exact Hn|].
  - rewrite lookup_alter_ne by (intros E; apply Hk; symmetry; exact E).
    destruct g as [g|]; [|reflexivity].
    apply alter_preserves. reflexivity.
  - intros m E. rewrite (subtree_ext (heap s)); [exact (Hm m E)|].
    intros j. rewrite alter_preserves by reflexivity.
    destruct g as [g|]; [|reflexivity].
    apply alter_preserves. reflexivity.
Qed.

Lemma drive_placement (delta : Q) (g : nat) (s : Service) (k : nat) :
  k ≠ g -> k ∉ wheels (currentCarParams s) ->
  placement <$> heap (Loop.drive delta g s) !! k = placement <$> heap s !! k.
Proof.
  intros Hk Hw. unfold Loop.drive. cbv zeta. cbn [heap with_heap with_sim].
  set (F := fun (h : Heap) (w : nat) => alter _ w h).
  assert (HF : forall l h, k ∉ l -> foldl F h l !! k = h !! k).
  { induction l as [|w l IH]; intros h Hl; [reflexivity|].
    apply not_elem_of_cons in Hl as [Hkw Hl]. cbn [foldl].
    rewrite IH by exact Hl. unfold F. apply lookup_alter_ne. congruence. }
  rewrite HF by exact Hw.
  rewrite lookup_alter_ne by congruence.
  rewrite lookup_alter_ne by congruence.
  apply (foldl_heap_preserves placement).
  intros h a j. destruct (bool_decide (a = g)); [reflexivity|].
  apply alter_preserves. reflexivity.
Qed.

(** X28: what a frame in walk or drive mode can move.  In the walk
    section every object keeps its position, rotation and scale, except
    the character's group, the character's registered parts and the nodes
    under the root of the character's mixer; the vehicle's speed,
    steering, heading and explode factor are unchanged.  In the drive
    section every object other than the active vehicle's group and the
    wheels listed for it keeps its position, rotation and scale, and the
    explode factor and the character's heading are unchanged. *)
Theorem frame_footprint (delta elapsed : Q) (s : Service)
  (sec : SectionConfig) (k : nat) :
  Store.activeSection (store s) = Some sec ->
  let s' := Js.state_of (Loop.animate delta elapsed s) in
  (sec_id sec = "walk" ->
   (k ≠ charGroup ->
    (forall n, charMeshes (character s) !! n ≠ Some k) ->
    (forall m, charMixer (character s) = Some m ->
               k ∉ Obj.subtree (heap s) (mixerRoot m)) ->
    placement <$> heap s' !! k = placement <$> heap s !! k)
   /\ speed (sim s') = speed (sim s)
   /\ steering (sim s') = steering (sim s)
   /\ carAngle (sim s') = carAngle (sim s)
   /\ explodeFactor (sim s') = explodeFactor (sim s))
  /\ (sec_id sec = "drive" ->
      (forall c g, Store.activeCar (store s) = Some c ->
                   carMap s !! car_id c = Some g -> k ≠ g) ->
      k ∉ wheels (currentCarParams s) ->
      placement <$> heap s' !! k = placement <$> heap s !! k
      /\ explodeFactor (sim s') = explodeFactor (sim s)
      /\ charRotation (sim s') = charRotation (sim s)).
Proof.
  intros Hsec. cbv zeta. unfold Loop.animate.
  destruct (Store.activeCar (store s)) as [c|] eqn:Ha;
    [|split; intros; repeat split].
  destruct (Store.isMenuOpen (store s)); [split; intros; repeat split|].
  destruct (modulateEngine_movesOnly s)
    as (M1 & _ & _ & M4 & _ & M6 & _ & _ & _ & _ & _ & _ & M13).
  pose proof (modulateEngine_sim s) as Ms.
  assert (Mh : heap (Loop.modulateEngine s) = heap s).
  { unfold Loop.modulateEngine. destruct (sounds (audio s)); [|reflexivity].
    destruct (_ && _); reflexivity. }
  rewrite M1, Hsec. cbv zeta. cbn [Js.state_of].
  split.
  - intros Hid. rewrite Hid. cbn [String.eqb Ascii.eqb Bool.eqb negb andb].
    assert (Hw : forall g,
              (k ≠ charGroup ->
               (forall n, charMeshes (character s) !! n ≠ Some k) ->
               (forall m, charMixer (character s) = Some m ->
                          k ∉ Obj.subtree (heap s) (mixerRoot m)) ->
               placement <$>
                 heap (Loop.walk delta elapsed g (Loop.modulateEngine s)) !! k
               = placement <$> heap s !! k)
              /\ sim (Loop.walk delta elapsed g (Loop.modulateEngine s))
                 = mkSim (speed (sim s)) (steering (sim s)) (carAngle (sim s))
                     (explodeFactor (sim s))
                     (charRotation
                        (sim (Loop.walk delta elapsed g
                                (Loop.modulateEngine s))))
                     (keys (sim s))).
    { intros g. split.
      - intros Hk Hn Hm. rewrite walk_placement; rewrite ?M13, ?Mh;
          [reflexivity|exact Hk|exact Hn|exact Hm].
      - unfold Loop.walk. cbv zeta.
        rewrite (proj1 (animateCharacter_sim _ _ _ _)).
        cbn [sim with_heap with_sim charRotation]. rewrite Ms. reflexivity. }
    destruct (carMap s !! car_id c) as [g|];
      match goal with |- context [Loop.walk _ _ ?g _] =>
        destruct (Hw g) as [Hp Hs]
      end; (split; [exact Hp|rewrite Hs; repeat split]).
  - intros Hid Hg Hw. rewrite Hid.
    cbn [String.eqb Ascii.eqb Bool.eqb negb andb].
    destruct (carMap s !! car_id c) as [g|] eqn:Eg.
    + rewrite drive_placement;
        [|apply (Hg c g); [reflexivity|exact Eg]|rewrite M6; exact Hw].
      rewrite Mh. unfold Loop.drive. cbv zeta.
      cbn [sim with_heap with_sim explodeFactor charRotation].
      rewrite Ms. repeat split.
    + rewrite Mh, Ms. repeat split.
Qed.

End FootprintFacts.

(** [fleetShown] in the walk section, the joystick pushed forward. *)
Definition walking : Service :=
  with_store (Store.mk defaultConfig 0 4 false (0, 1)) fleetShown.

(** The handle of the character model of [walkingAnimated]. *)
Definition characterModel : nat :=
  Eval vm_compute in fresh (dom (heap walking)).

(** [walking] once a character model with two clips has been loaded: the
    model hangs under the character's group, the mixer animates it, and
    the load has started the idle clip. *)
Definition walkingAnimated : Service :=
  with_character
    (mkCharacter ∅ (Some (mkMixer characterModel [ActionPlay "Idle"]))
       ["Idle"; "Run"] (Some "glb"))
    (with_heap
       (Obj.add charGroup characterModel
          (Obj.alloc (newObject KGroup) (heap walking)).2)
       walking).

(** A host whose mixer lifts and doubles the root it animates, and whose
    actions are never found running. *)
Definition animatedHost : Host :=
  mkHost (fun _ => 0) (fun _ => 1) (355 # 113) (fun _ _ => None)
    (fun _ _ => mkVec3 0 0 0)
    (fun m _ node =>
       if bool_decide (node = mixerRoot m)
       then Some (mkVec3 0 0.1 0, mkVec3 0 0 0, mkVec3 2 2 2)
       else None)
    (fun _ _ => false).

Lemma animate_only_moves_witness :
  let s' := Js.state_of (@Loop.animate animatedHost (1 # 60) 1
                           walkingAnimated) in
  o_scale <$> heap walkingAnimated !! characterModel = Some (mkVec3 1 1 1)
  /\ o_scale <$> heap s' !! characterModel = Some (mkVec3 2 2 2)
  /\ (mixerCalls <$> charMixer (character s')
      = Some [ActionPlay "Idle"; MixerUpdate (1 # 60);
              ActionFadeOut "Idle" 0.2; ActionReset "Run";
              ActionFadeIn "Run" 0.2; ActionPlay "Run";
              ActionSetEffectiveTimeScale "Run" (1.0 + 1 * 0.5)])
  /\ animatesOnly walkingAnimated s'.
Proof.
  cbv zeta. split; [vm_compute; reflexivity|].
  split; [vm_compute; reflexivity|]. split; [vm_compute; reflexivity|].
  exact (proj1 (@animate_only_moves animatedHost (1 # 60) 1 walkingAnimated)).
Defined.

Lemma frame_footprint_witness :
  let s' := Js.state_of (@Loop.animate animatedHost (1 # 60) 1
                           walkingAnimated) in
  placement <$> heap s' !! 8%nat = placement <$> heap walkingAnimated !! 8%nat
  /\ placement <$> heap s' !! characterModel
     ≠ placement <$> heap walkingAnimated !! characterModel.
Proof.
  cbv zeta. split; [|vm_compute; discriminate].
  refine (proj1 (proj1 (@frame_footprint animatedHost (1 # 60) 1
            walkingAnimated (mkSectionConfig "walk" "FREE ROAM") 8%nat _) _)
            _ _ _).
  - vm_compute. reflexivity.
  - reflexivity.
  - discriminate.
  - intros n H. vm_compute in H. discriminate H.
  - intros m E. vm_compute in E. injection E as <-.
    apply (bool_decide_unpack _). vm_compute. exact I.
Defined.

(** * Further properties of the vehicle sounds *)

Lemma play_isPlaying (a : PositionalAudio) :
  a_isPlaying (Engine.play a) = true.
Proof.
  unfold Engine.play. destruct (a_isPlaying a) eqn:E; [exact E|reflexivity].
Qed.

Lemma play_playbackRate (a : PositionalAudio) :
  a_playbackRate (Engine.play a) = a_playbackRate a.
Proof. unfold Engine.play. destruct (a_isPlaying a); reflexivity. Qed.

(** X29: a drive-sound load that was started while the engine was running
    starts the engine loop when it completes, even if the engine has been
    switched off in between: [updateCarAudio] captures [isEngineRunning]
    when it starts the load and cuts the loop; [stopEngine] then leaves the
    vehicle silent; and the completion callback, which tests the captured
    value and not the current one, plays the loop with [isEngineRunning]
    false. *)
Theorem stale_drive_sound_restarts_loop (a : CarAudio.t) (car : CarConfig)
  (snd : Sounds) :
  CarAudio.audioListener a = true ->
  sounds (audio (CarAudio.service a)) = Some snd ->
  isEngineRunning (audio (CarAudio.service a)) = true ->
  Js.truthy_opt (car_driveSoundUrl car) = true ->
  CarAudio.currentEngineSoundId a ≠ Some (car_id car) ->
  let a1 := Js.state_of (CarAudio.updateCarAudio (Some car) a) in
  let a2 :=
    CarAudio.with_service
      (Js.state_of (Engine.stopEngine (CarAudio.service a1))) a1 in
  let a3 := Js.state_of (CarAudio.onDriveSoundLoaded car true a2) in
  (CarAudio.DriveSoundLoad car true ∈ CarAudio.soundLoads a1
   /\ Engine.engineLoopPlaying (CarAudio.service a1) = false)
  /\ (isEngineRunning (audio (CarAudio.service a2)) = false
      /\ Engine.engineLoopPlaying (CarAudio.service a2) = false)
  /\ (isEngineRunning (audio (CarAudio.service a3)) = false
      /\ Engine.engineLoopPlaying (CarAudio.service a3) = true).
Proof.
  intros Hl Hs Hr Hu Hid. cbv zeta.
  unfold CarAudio.updateCarAudio. rewrite Hl. cbn [negb]. rewrite Hs. cbv zeta.
  cbn [audio with_heap]. rewrite Hr, Hu.
  rewrite (bool_decide_eq_false_2 _ Hid). cbn [negb andb].
  destruct (a_isPlaying (engineSound snd)) eqn:Ep;
    destruct (a_isPlaying (ignitionSound snd)) eqn:Ei;
    destruct (Js.truthy_opt (car_ignitionSoundUrl car));
    cbn [Js.state_of CarAudio.service CarAudio.soundLoads];
    unfold Engine.engineLoopPlaying, Engine.stopEngine,
      CarAudio.onDriveSoundLoaded;
    repeat (progress (cbn; rewrite ?Ep, ?Ei, ?Hr, ?play_isPlaying));
    rewrite ?elem_of_app, !list_elem_of_singleton; auto 10.
Qed.

(** The vehicle with both sounds loaded and the engine loop running. *)
Definition engineRunning : CarAudio.t :=
  CarAudio.mk
    (with_audio
       (mkAudio
          (Some (mkSounds
                   (mkPositionalAudio true true DefaultOnEnded 1
                      (Some DefaultOnEnded))
                   (mkPositionalAudio true false IgnitionOnEnded 1 None)))
          true)
       fleetShown)
    (Some "lfa-next") [].

Definition lfzWithSound : CarConfig :=
  mkCarConfig "lf-z" "LF-Z ELECTRIFIED" "#0055ff" "#0044cc" 0.2 0.8
    None None (Some "lf-z-engine.mp3").

Lemma stale_drive_sound_restarts_loop_witness :
  let a1 := Js.state_of (CarAudio.updateCarAudio (Some lfzWithSound)
                           engineRunning) in
  let a2 :=
    CarAudio.with_service
      (Js.state_of (Engine.stopEngine (CarAudio.service a1))) a1 in
  let a3 := Js.state_of (CarAudio.onDriveSoundLoaded lfzWithSound true a2) in
  isEngineRunning (audio (CarAudio.service a3)) = false
  /\ Engine.engineLoopPlaying (CarAudio.service a3) = true.
Proof.
  cbv zeta.
  refine (proj2 (proj2 (stale_drive_sound_restarts_loop engineRunning
            lfzWithSound
            (mkSounds
               (mkPositionalAudio true true DefaultOnEnded 1
                  (Some DefaultOnEnded))
               (mkPositionalAudio true false IgnitionOnEnded 1 None))
            _ _ _ _ _))).
  - reflexivity.
  - reflexivity.
  - reflexivity.
  - reflexivity.
  - discriminate.
Defined.

(** * The speed over a session *)

(** [this.store.joystickState.set({ x, y })] *)
Definition setJoystick (x y : Q) (s : Service) : Service :=
  with_store
    (Store.mk (Store.config (store s)) (Store.loadingCount (store s))
       (Store.activeSectionIndex (store s)) (Store.isMenuOpen (store s))
       (x, y)) s.

(** One thing that happens to the service: a frame of the simulation
    loop, an event of the audio binder, a key going down or up, or the
    joystick moving. *)
Inductive Tick : Type :=
| Frame (delta elapsed : Q)
| Sound (e : Engine.Event)
| KeyDown (key : string)
| KeyUp (key : string)
| Joystick (x y : Q).

Definition tick {host : Host} (s : Service) (t : Tick) : Service :=
  match t with
  | Frame delta elapsed => Js.state_of (Loop.animate delta elapsed s)
  | Sound e => Engine.step s e
  | KeyDown key => Loop.handleKeyDown key s
  | KeyUp key => Loop.handleKeyUp key s
  | Joystick x y => setJoystick x y s
  end.

(** A frame of at most one second. *)
Definition shortFrame (t : Tick) : Prop :=
  match t with
  | Frame delta _ => 0 <= delta /\ delta <= 1
  | _ => True
  end.

(** The speed is at most [80] either way and the playback rate of the
    engine loop is between [0.8] and [1.6]. *)
Definition speedOk (s : Service) : Prop :=
  Js.Math_abs (speed (sim s)) <= 80
  /\ forall snd, sounds (audio s) = Some snd ->
       0.8 <= a_playbackRate (engineSound snd) <= 1.6.

Lemma speedOk_same (s s' : Service) :
  speed (sim s') = speed (sim s) -> audio s' = audio s ->
  speedOk s -> speedOk s'.
Proof. unfold speedOk. intros -> ->. auto. Qed.

Lemma lineup_audio (delta elapsed : Q) (i : Z) (l : list (nat * CarConfig))
  (s : Service) :
  audio (foldl (Loop.lineupCar delta elapsed i) s l) = audio s.
Proof.
  revert s. induction l as [|[n c] l IH]; intros s; [reflexivity|].
  cbn [foldl]. rewrite IH. unfold Loop.lineupCar.
  destruct (carMap s !! car_id c); reflexivity.
Qed.

Lemma explode_speedOk (isTechMode : bool) (delta : Q) (s : Service) :
  speedOk s -> speedOk (Loop.explode isTechMode delta s).
Proof.
  apply speedOk_same; unfold Loop.explode; cbv zeta;
    destruct (Fleet.Qgt_bool _ _); try reflexivity;
    destruct isTechMode; reflexivity.
Qed.

Lemma modulateEngine_speedOk (s : Service) :
  speedOk s -> speedOk (Loop.modulateEngine s).
Proof.
  intros [Hv Hr]. unfold Loop.modulateEngine.
  destruct (sounds (audio s)) as [snd|] eqn:Hs; [|split; [exact Hv|]].
  - destruct (isEngineRunning (audio s) && a_isPlaying (engineSound snd));
      [|split; [exact Hv|rewrite Hs; exact Hr]].
    split; [exact Hv|]. intros snd' E. cbn in E. injection E as <-. cbn.
    unfold Qdiv. change (/ 80) with (1 # 80).
    destruct (Math_abs_cases (speed (sim s))) as [[A E]|[A E]];
      rewrite E in Hv |- *; lra.
  - rewrite Hs. exact Hr.
Qed.

Section SpeedFacts.
Context {host : Host}.

Lemma drive_speedOk (delta : Q) (g : nat) (s : Service) :
  0 <= delta -> delta <= 1 -> speedOk s -> speedOk (Loop.drive delta g s).
Proof.
  intros H0 H1 [Hv Hr]. split; [|exact Hr].
  unfold Loop.drive. cbv zeta. cbn [sim with_heap with_sim speed].
  set (v := speed (sim s)) in *.
  destruct (Loop.isBrake s).
  - unfold Loop.driveSpeed, Js.lerp.
    match goal with |- context [if ?b then _ else _] => destruct b end;
      match goal with |- Js.Math_abs ?x <= _ =>
        destruct (Math_abs_cases x) as [[A1 ->]|[A1 ->]]
      end;
      destruct (Math_abs_cases v) as [[A2 E2]|[A2 E2]]; rewrite E2 in Hv;
      nra.
  - match goal with |- context [Loop.driveSpeed false ?t ?d ?w] =>
      pose proof (driveSpeed_range t d w) as Hd;
      set (v0 := Loop.driveSpeed false t d w) in *
    end.
    match goal with |- context [if ?b then _ else _] => destruct b end;
      match goal with |- Js.Math_abs ?x <= _ =>
        destruct (Math_abs_cases x) as [[A1 ->]|[A1 ->]]
      end; lra.
Qed.

Lemma walk_speedOk (delta elapsed : Q) (g : option nat) (s : Service) :
  speedOk s -> speedOk (Loop.walk delta elapsed g s).
Proof.
  apply speedOk_same; unfold Loop.walk; cbv zeta;
    [rewrite (proj1 (animateCharacter_sim _ _ _ _))
    |rewrite (proj2 (animateCharacter_sim _ _ _ _))]; reflexivity.
Qed.

Lemma animate_speedOk (delta elapsed : Q) (s : Service) :
  0 <= delta -> delta <= 1 ->
  speedOk s -> speedOk (Js.state_of (Loop.animate delta elapsed s)).
Proof.
  intros H0 H1 Hs. unfold Loop.animate.
  destruct (Store.activeCar (store s)) as [c|]; [|exact Hs].
  destruct (Store.isMenuOpen (store s)); [exact Hs|].
  pose proof (modulateEngine_speedOk s Hs) as Hm.
  set (s1 := Loop.modulateEngine s) in *.
  destruct (Store.activeSection (store s1)) as [sec|]; [|exact Hm].
  cbv zeta. cbn [Js.state_of].
  assert (Hl : speedOk
                 (foldl (Loop.lineupCar delta elapsed
                           (activeCarIndex (Store.config (store s1))))
                    s1 (imap pair (fleet (Store.config (store s1)))))).
  { revert Hm. apply speedOk_same; [rewrite lineup_sim|rewrite lineup_audio];
      reflexivity. }
  destruct (carMap s !! car_id c) as [g|];
    destruct (sec_id sec =? "drive")%string;
    destruct (sec_id sec =? "walk")%string; cbn [negb andb];
    repeat first
      [ assumption
      | apply walk_speedOk
      | apply drive_speedOk; [exact H0|exact H1|]
      | apply explode_speedOk ].
Qed.

Lemma step_speedOk (e : Engine.Event) (s : Service) :
  speedOk s -> speedOk (Engine.step s e).
Proof.
  intros Hs0. pose proof Hs0 as [Hv Hr]. destruct e; cbn [Engine.step].
  - unfold Engine.toggleIgnition.
    destruct (audioListener s); cbn [negb]; [|exact Hs0].
    destruct (isEngineRunning (audio s)) eqn:Er.
    + unfold Engine.stopEngine. rewrite Er. cbn [negb].
      destruct (sounds (audio s)) as [snd|] eqn:Es; [|exact Hs0].
      split.
      * cbn. destruct (Math_abs_cases 0) as [[A ->]|[A ->]]; lra.
      * intros snd' E. cbn in E. injection E as <-. cbn.
        destruct (a_isPlaying (engineSound snd)); apply (Hr snd eq_refl).
    + unfold Engine.startEngine. rewrite Er. cbn.
      destruct (sounds (audio s)) as [snd|] eqn:Es.
      * destruct (a_buffer (ignitionSound snd));
          [|destruct (a_buffer (engineSound snd))];
          (split; [exact Hv|]); intros snd' E; cbn in E;
          rewrite ?Es in E; injection E as <-; cbn [engineSound];
          rewrite ?play_playbackRate; apply (Hr snd eq_refl).
      * split; [exact Hv|]. intros snd' E. cbn in E. congruence.
  - unfold Engine.ignitionEnded.
    destruct (sounds (audio s)) as [snd|] eqn:Es; [|exact Hs0].
    destruct (a_source (ignitionSound snd)) as [[|]|]; [| |exact Hs0].
    + split; [exact Hv|]. intros snd' E. cbn in E. injection E as <-.
      apply (Hr snd eq_refl).
    + split; [exact Hv|]. intros snd' E. cbn in E. injection E as <-.
      cbn [engineSound].
      destruct (a_buffer (engineSound snd) && negb (a_isPlaying (engineSound snd))
                && isEngineRunning (audio s)); [|apply (Hr snd eq_refl)].
      rewrite play_playbackRate. apply (Hr snd eq_refl).
Qed.

(** X30: over any session of frames of at most one second each,
    ignition toggles, ignition-clip completions, key presses and releases
    and joystick movements, in whatever section the store is, the speed
    never exceeds [80] in either direction and the playback rate of the
    engine loop stays between [0.8] and [1.6], provided that they are so
    at the start. *)
Theorem speed_stays_bounded (ticks : list Tick) (s : Service) :
  Forall shortFrame ticks -> speedOk s -> speedOk (foldl tick s ticks).
Proof.
  intros Ht. revert s. induction Ht as [|t ticks Hsf _ IH]; intros s Hs;
    [exact Hs|].
  cbn [foldl]. apply IH.
  destruct t as [delta elapsed|e|key|key|x y]; cbn [tick].
  - destruct Hsf as [H0 H1]. apply animate_speedOk; assumption.
  - apply step_speedOk, Hs.
  - revert Hs. apply speedOk_same; reflexivity.
  - revert Hs. apply speedOk_same; reflexivity.
  - revert Hs. apply speedOk_same; reflexivity.
Qed.

End SpeedFacts.

(** [fleetShown] in the drive section, both clips loaded and the engine
    loop playing. *)
Definition driving : Service :=
  with_store (Store.mk defaultConfig 0 1 false (0, 0))
    (with_audio
       (mkAudio
          (Some (mkSounds
                   (mkPositionalAudio true true DefaultOnEnded 1
                      (Some DefaultOnEnded))
                   (mkPositionalAudio true false IgnitionOnEnded 1 None)))
          true)
       fleetShown).

(** Two seconds of throttle, a frame with the joystick pulled back, a
    frame on the brake, and the engine switched off. *)
Definition driveSession : list Tick :=
  [KeyDown "W"; Frame 1 1; Frame 1 2; Joystick 0 (-1); KeyUp "w";
   Frame (1 # 60) 3; KeyDown " "; Frame (1 # 60) 4; Sound Engine.Toggle].

Lemma speed_stays_bounded_witness :
  (let s1 := foldl (@tick exampleHost) driving [KeyDown "W"; Frame 1 1;
                                                Frame 1 2] in
   speed (sim s1) == 58.212
   /\ exists snd, sounds (audio s1) = Some snd
        /\ a_playbackRate (engineSound snd) == 1.094)
  /\ speedOk (foldl (@tick exampleHost) driving driveSession).
Proof.
  split.
  { cbv zeta. split; [vm_compute; reflexivity|].
    eexists. split; [vm_compute; reflexivity|]. vm_compute. reflexivity. }
  apply (@speed_stays_bounded exampleHost).
  - repeat constructor; vm_compute; discriminate.
  - split.
    + vm_compute. discriminate.
    + intros snd E. vm_compute in E. injection E as <-.
      split; vm_compute; discriminate.
Defined.

(** * The reconciler *)

Section ReconcilerFacts.
Context {host : Host}.


End ReconcilerFacts.



Section ReloadFacts.
Context {host : Host}.


End ReloadFacts.


(** * The speed at the edge of the map *)

(** The drive of [driving] with the throttle key held for four seconds, in
    frames of a tenth of a second: the vehicle has reached [78.4] and is
    less than two units from the northern edge. *)
Definition fullThrottle : Service :=
  foldl (@tick exampleHost) driving (KeyDown "w" :: replicate 40 (Frame 0.1 0)).

(** C4: where the speed leaves the range.  After four seconds of full
    throttle from the origin the speed is [78.4] and the vehicle is
    between [z = 188] and the edge at [190]; the next frame of a tenth of
    a second would take it over the edge, so the frame bounces: the speed, clamped to
    [[-20, 80]] and damped to [78.4] earlier in the frame, is multiplied by
    [-0.5] and ends at [-39.2], below the reverse limit [-20].  And with
    the brake held, a frame of [1.5] seconds (the frame time is not
    clamped) takes the speed from [78.4] to [-156.8]: its magnitude
    doubles. *)
Theorem drive_bounce_leaves_speed_range :
  let bounced := @tick exampleHost fullThrottle (Frame 0.1 0) in
  let braked :=
    @tick exampleHost (Loop.handleKeyDown " " fullThrottle) (Frame 1.5 0) in
  (speed (sim fullThrottle) == 78.4
   /\ exists o, heap fullThrottle !! 7%nat = Some o
                /\ 188 < vz (o_position o) < 190)
  /\ (speed (sim bounced) == -39.2 /\ speed (sim bounced) < -20)
  /\ (speed (sim braked) == -156.8
      /\ Js.Math_abs (speed (sim fullThrottle))
         < Js.Math_abs (speed (sim braked))).
Proof.
  cbv zeta. split; [|split].
  - split; [vm_compute; reflexivity|].
    eexists. split; [vm_compute; reflexivity|].
    split; vm_compute; reflexivity.
  - split; vm_compute; reflexivity.
  - split; vm_compute; reflexivity.
Qed.

(** * The exploded view and the tracked parts *)

(** C5, as stated, fails: after a frame of the drive with the throttle key
    held the explode factor is [0], the section is not the engineering
    section, and the first wheel of the active vehicle, a tracked part, is
    turned by [0.588] against its recorded rotation. *)
Lemma tracked_wheel_turns_in_drive_counterexample :
  let s := Js.state_of (@Loop.animate exampleHost 0.1 0
                          (Loop.handleKeyDown "w" driving)) in
  sec_id <$> Store.activeSection (store s) = Some "drive"
  /\ explodeFactor (sim s) <= 0.01
  /\ 11%nat ∈ wheels (currentCarParams s)
  /\ exists o r,
       heap s !! 11%nat = Some o
       /\ originalRotations (currentCarParams s) !! 11%nat = Some r
       /\ ex r == 0 /\ ex (o_rotation o) == 0.588
       /\ o_rotation o ≠ r.
Proof.
  cbv zeta. split; [vm_compute; reflexivity|].
  split; [vm_compute; discriminate|].
  split; [apply (bool_decide_unpack _); vm_compute; exact I|].
  eexists _, _. split; [vm_compute; reflexivity|].
  split; [vm_compute; reflexivity|].
  split; [vm_compute; reflexivity|]. split; [vm_compute; reflexivity|].
  vm_compute. discriminate.
Qed.

Section ExplodeTickFacts.
Context {host : Host}.

(** C5, as amended: on a tick with the menu closed, in a section other
    than drive and walk and with the active vehicle's group live, the
    explode factor moves towards [1] in the engineering section and towards
    [0] otherwise, by the factor [1 - 3 * delta]: on a tick of at most a
    third of a second it stays between [0] and [1] and gets no further from
    its target; and when such a tick outside the engineering section ends
    with the factor at most [0.01], every object with a recorded transform
    has exactly the recorded position and rotation at the end of the tick.
    Every other tick leaves the factor as it was. *)
Theorem explodeFactor_tick (delta elapsed : Q) (s : Service) :
  let factor := explodeFactor (sim s) in
  let out := Loop.animate delta elapsed s in
  let factor' := explodeFactor (sim (Js.state_of out)) in
  (forall c g sec,
     Store.activeCar (store s) = Some c ->
     carMap s !! car_id c = Some g ->
     Store.isMenuOpen (store s) = false ->
     Store.activeSection (store s) = Some sec ->
     sec_id sec ≠ "drive" -> sec_id sec ≠ "walk" ->
     let target := if (sec_id sec =? "engineering")%string then 1 else 0 in
     factor' - target == (1 - 3 * delta) * (factor - target)
     /\ (0 <= delta -> 3 * delta <= 1 -> 0 <= factor -> factor <= 1 ->
         0 <= factor' <= 1
         /\ Js.Math_abs (factor' - target) <= Js.Math_abs (factor - target))
     /\ (sec_id sec ≠ "engineering" -> factor' <= 0.01 ->
         exists s', out = Js.Done s'
           /\ forall obj o, heap s !! obj = Some o ->
                exists o', heap s' !! obj = Some o'
                  /\ (forall p,
                        originalPositions (currentCarParams s) !! obj
                        = Some p -> o_position o' = p)
                  /\ (forall r,
                        originalRotations (currentCarParams s) !! obj
                        = Some r -> o_rotation o' = r)))
  /\ (keepsExplodeFactor s -> factor' = factor).
Proof.
  cbv zeta. split; [|apply animate_explodeFactor_kept].
  intros c g sec Ha Hg Hm Hsec Hd Hw.
  rewrite (animate_explodeFactor delta elapsed s c g sec Ha Hg Hm Hsec Hd Hw).
  destruct (explodeStep_approaches (sec_id sec =? "engineering")%string
              delta (explodeFactor (sim s))) as [E R].
  split; [exact E|]. split; [exact R|].
  intros He Hf. pose proof He as He'. apply String.eqb_neq in He'.
  rewrite He' in Hf.
  destruct (closed_frame_heap delta elapsed s c g sec Ha Hg Hm Hsec Hd Hw He Hf)
    as (s' & hm & E' & Hs & Hl).
  exists s'. split; [exact E'|]. intros obj o Ho.
  destruct (Hs obj) as [om Hom]; [eauto|].
  exists (snapObject (currentCarParams s) obj om).
  split; [rewrite Hl, Hom; reflexivity|].
  unfold snapObject. split.
  - intros p Ep. rewrite Ep.
    destruct (originalRotations (currentCarParams s) !! obj); reflexivity.
  - intros r Er. rewrite Er. reflexivity.
Qed.

End ExplodeTickFacts.

Lemma explodeFactor_tick_witness :
  explodeFactor
    (sim (Js.state_of (@Loop.animate exampleHost (1 # 15) 2
                         leavingEngineering))) == 0.0096
  /\ exists s' o',
       @Loop.animate exampleHost (1 # 15) 2 leavingEngineering = Js.Done s'
       /\ heap s' !! 11%nat = Some o'
       /\ o_position o' = mkVec3 0 0 0.
Proof.
  split; [vm_compute; reflexivity|].
  assert (Ha : Store.activeCar (store leavingEngineering) = Some lfa)
    by (vm_compute; reflexivity).
  assert (Hg : carMap leavingEngineering !! car_id lfa = Some 7%nat)
    by (vm_compute; reflexivity).
  assert (Hm : Store.isMenuOpen (store leavingEngineering) = false)
    by (vm_compute; reflexivity).
  assert (Hsec : Store.activeSection (store leavingEngineering)
                 = Some (mkSectionConfig "showroom" "DESIGN STUDIO"))
    by (vm_compute; reflexivity).
  destruct (proj2 (proj2 (proj1
              (@explodeFactor_tick exampleHost (1 # 15) 2 leavingEngineering)
              lfa 7%nat (mkSectionConfig "showroom" "DESIGN STUDIO")
              Ha Hg Hm Hsec ltac:(discriminate) ltac:(discriminate)))
              ltac:(discriminate) ltac:(vm_compute; discriminate))
    as (s' & E & H).
  destruct (heap leavingEngineering !! 11%nat) as [o|] eqn:Ho;
    [|vm_compute in Ho; discriminate Ho].
  destruct (H 11%nat o Ho) as (o' & E' & P & _).
  exists s', o'. split; [exact E|]. split; [exact E'|].
  apply P. vm_compute. reflexivity.
Defined.

(** * The completion of a replaced vehicle load *)

(** The active vehicle with a model file, and with another one. *)
Definition lfaModelA : CarConfig :=
  mkCarConfig "lfa-next" "LFA-X CONCEPT" "#FF9900" "#FF8800" 0.1 0.6
    (Some "lfa-a.glb") None None.

Definition lfaModelB : CarConfig :=
  mkCarConfig "lfa-next" "LFA-X CONCEPT" "#FF9900" "#FF8800" 0.1 0.6
    (Some "lfa-b.glb") None None.

(** The first synchronisation: group [7] is created for the vehicle and
    the load of [lfa-a.glb] is in flight. *)
Definition loadingA : Service :=
  Js.state_of
    (@Fleet.syncFleet exampleHost [lfaModelA]
       (initialService
          (Store.initial
             (mkAppConfig defaultSections 0 [lfaModelA] [] None []
                (mkVec3 (-5) 0 5))))).

(** The fleet arrives with the other model file and is synchronised: group
    [7] is replaced by group [8] and the load of [lfa-b.glb] is in flight
    as well. *)
Definition reloading : Service :=
  Js.state_of
    (@Fleet.syncFleet exampleHost [lfaModelB]
       (with_store (Remote.pollCars (Some [lfaModelB]) (store loadingA))
          loadingA)).

(** The scene of [lfa-a.glb] as the loader delivers it: a root with one
    mesh, a wheel. *)
Definition modelA : nat := Eval vm_compute in fresh (dom (heap reloading)).

Definition wheelA : nat :=
  Eval vm_compute in
    fresh (dom (Obj.alloc (newObject KGroup) (heap reloading)).2).

Definition arrivedA : Service :=
  with_heap
    (Obj.add modelA wheelA
       (Obj.alloc (set_name "Wheel_FL" (newObject KMesh))
          (Obj.alloc (newObject KGroup) (heap reloading)).2).2)
    reloading.

(** C6: a completion without a liveness check.  The load of the first
    model file is still in flight when the vehicle's group [7] is replaced
    by group [8]: group [7] is out of the scene and out of [carMap], and
    nothing is classified yet.  The completion of that load then attaches the model to
    group [7] and, the vehicle being the active one, classifies the parts
    of group [7]: [carMap] still gives group [8], but the wheel of the
    model under the replaced group is now the listed wheel, with a recorded
    transform. *)
Theorem stale_car_load_reclassifies :
  let stale :=
    Js.state_of (@Fleet.onCarLoaded exampleHost lfaModelA 7%nat modelA
                   arrivedA) in
  (carMap reloading !! "lfa-next" = Some 8%nat
   /\ pending reloading = [CarLoad lfaModelA 7%nat; CarLoad lfaModelB 8%nat]
   /\ heap reloading !! 7%nat ≫= o_parent = None
   /\ o_children <$> heap reloading !! fleetGroup = Some [8%nat]
   /\ wheels (currentCarParams reloading) = [])
  /\ carMap stale !! "lfa-next" = Some 8%nat
  /\ heap stale !! modelA ≫= o_parent = Some 7%nat
  /\ heap stale !! 7%nat ≫= o_parent = None
  /\ wheels (currentCarParams stale) = [wheelA]
  /\ is_Some (originalPositions (currentCarParams stale) !! wheelA).
Proof.
  cbv zeta. split.
  { split; [vm_compute; reflexivity|].
    repeat split; vm_compute; reflexivity. }
  split; [vm_compute; reflexivity|]. split; [vm_compute; reflexivity|].
  split; [vm_compute; reflexivity|]. split; [vm_compute; reflexivity|].
  vm_compute. eauto.
Qed.
